(** * Bidirectional link search (main.py): Page, Tree.explore and Game.search

    A shallow embedding of the three classes of [main.py] and of the tests
    of [testing.py], the proofs of the properties the specification states
    about them, and proofs of further properties of the code: termination,
    shortest paths, the names and links of pages, the strings printed.

    - A Python [set] of [Page] objects is a duplicate-free list of pages;
      membership, removal, difference and intersection compare pages the way
      [Page.__eq__] does, by name only.  [set.pop()] removes "an arbitrary
      element": the element is chosen by a function [pick] that every
      definition and theorem is parametric in.
    - The two scraping branches of [Tree.getChildren] are the neighbour
      lookups [links] (links on a page) and [linksHere] (pages that link to
      a page); both are parameters.
    - A raised exception is a value ([Raise]); the two [while] loops of
      [Game.search] take fuel, [OutOfFuel] standing for a loop that has not
      finished yet.
    - What the code asks of the network and of [urllib] is a parameter of
      the definition that asks: the links served for an address, the address
      of a random page, [urllib.parse.unquote]. *)

From Stdlib Require Import String Ascii List ZArith Lia Bool Arith Sorted Permutation.
From Stdlib Require Decimal DecimalString.
Import ListNotations.
Local Open Scope string_scope.
Local Open Scope nat_scope.
Local Open Scope list_scope.

Set Implicit Arguments.

(** ** Page *)

(** [Page.name] is the canonical identifier that [Page.__init__] computes;
    [Page.parent] is the page that discovered it, [None] for a root. *)
Local Unset Elimination Schemes.
Inductive Page : Type :=
| MkPage (name : string) (parent : option Page).
Local Set Elimination Schemes.

Definition getName (p : Page) : string :=
  match p with MkPage n _ => n end.

Definition getParent (p : Page) : option Page :=
  match p with MkPage _ q => q end.

(** [Page.__eq__]: equality of names, whatever the parents. *)
Definition Page_eqb (p q : Page) : bool := String.eqb (getName p) (getName q).

(** The pages reached by following [getParent] from [p], [p] excluded: the
    [while ... is not None] loops of [Game.__getPath]. *)
Fixpoint ancestors (p : Page) : list Page :=
  match p with
  | MkPage _ None => []
  | MkPage _ (Some q) => q :: ancestors q
  end.

Definition depth (p : Page) : nat := length (ancestors p).

(** ** Python sets of pages *)

Definition PageSet := list Page.

Definition set_mem (p : Page) (s : PageSet) : bool := existsb (Page_eqb p) s.

(** [s.add(p)]: nothing happens when an equal page is already there. *)
Definition set_add (p : Page) (s : PageSet) : PageSet :=
  if set_mem p s then s else s ++ [p].

Definition set_discard (p : Page) (s : PageSet) : PageSet :=
  filter (fun q => negb (Page_eqb p q)) s.

(** [s.remove(p)]: [None] is the [KeyError] of an absent element. *)
Definition set_remove (p : Page) (s : PageSet) : option PageSet :=
  if set_mem p s then Some (set_discard p s) else None.

(** [a.difference(b)] *)
Definition set_difference (a b : PageSet) : PageSet :=
  filter (fun p => negb (set_mem p b)) a.

(** [a.intersection(b)]: CPython walks the smaller of the two sets and keeps
    its elements that the other one contains. *)
Definition set_intersection (a b : PageSet) : PageSet :=
  if length a <? length b
  then filter (fun p => set_mem p b) a
  else filter (fun p => set_mem p a) b.

(** [set().union( *levels )] *)
Definition set_union_all (ls : list PageSet) : PageSet :=
  fold_left (fun acc l => fold_left (fun acc' p => set_add p acc') l acc) ls [].

(** ** Exceptions and outcomes *)

Inductive exn : Type := KeyError | IndexError | UnboundLocalError.

Inductive outcome (A : Type) : Type :=
| Done (a : A)
| Raise (e : exn)
| OutOfFuel.

Arguments Raise {A} e.
Arguments OutOfFuel {A}.

Definition bind {A B : Type} (m : outcome A) (k : A -> outcome B) : outcome B :=
  match m with
  | Done a => k a
  | Raise e => Raise e
  | OutOfFuel => OutOfFuel
  end.

Notation "x <- m ;; k" := (bind m (fun x => k))
  (at level 61, m at next level, right associativity).

(** ** Python slices *)

(** The index normalisation of [l[a:b]]: a negative bound counts from the
    end, and both bounds are clamped to [0 .. len(l)]. *)
Definition slice_bound (len i : Z) : Z :=
  let j := (if i <? 0 then i + len else i)%Z in
  Z.max 0 (Z.min len j).

Definition py_slice {A : Type} (l : list A) (a b : Z) : list A :=
  let len := Z.of_nat (length l) in
  let a' := slice_bound len a in
  let b' := slice_bound len b in
  firstn (Z.to_nat (b' - a')) (skipn (Z.to_nat a') l).

(** ** Tree *)

Record Tree : Type := MkTree {
  root : Page;
  isStarting : bool;
  endpoints : PageSet;
  queue : PageSet;
  queueLevel : nat;
  levels : list PageSet
}.

(** [Tree.__init__] *)
Definition Tree_init (r : Page) (starting : bool) : Tree :=
  {| root := r; isStarting := starting; endpoints := [r]; queue := [r];
     queueLevel := 0; levels := [[r]] |}.

(** [levels[-1].add(child)]; [None] is the [IndexError] of an empty list. *)
Definition add_to_last (c : Page) (lv : list PageSet) : option (list PageSet) :=
  match rev lv with
  | [] => None
  | l :: r => Some (rev r ++ [set_add c l])
  end.

(** The loop [for child in unseenChildren] of [Tree.explore]. *)
Fixpoint add_children (cs : list Page) (lv : list PageSet) (e : PageSet)
  : option (list PageSet * PageSet) :=
  match cs with
  | [] => Some (lv, e)
  | c :: cs' =>
      match add_to_last c lv with
      | None => None
      | Some lv' => add_children cs' lv' (set_add c e)
      end
  end.

(** ** Game *)

Inductive Side : Type := Start | End.

Record Game : Type := MkGame {
  startTree : Tree;
  endTree : Tree;
  searchIndex : Z;
  paths : list (list Page)
}.

(** [Game.__init__] on two page names. *)
Definition Game_init (startPage endPage : string) : Game :=
  {| startTree := Tree_init (MkPage startPage None) true;
     endTree := Tree_init (MkPage endPage None) false;
     searchIndex := 0;
     paths := [] |}.

Definition treeOf (sd : Side) (g : Game) : Tree :=
  match sd with Start => startTree g | End => endTree g end.

Definition otherSide (sd : Side) : Side :=
  match sd with Start => End | End => Start end.

Definition setTree (sd : Side) (t : Tree) (g : Game) : Game :=
  match sd with
  | Start => {| startTree := t; endTree := endTree g;
                searchIndex := searchIndex g; paths := paths g |}
  | End => {| startTree := startTree g; endTree := t;
              searchIndex := searchIndex g; paths := paths g |}
  end.

(** The loops [for e in endpoints: if e == mid: found = e] of
    [Game.__getPath]: the last equal element, [None] when the variable is
    never bound. *)
Definition find_eq (mid : Page) (s : PageSet) : option Page :=
  fold_left (fun acc e => if Page_eqb e mid then Some e else acc) s None.

(** [Game.__getPath] *)
Definition getPath (g : Game) (mid : Page) : outcome (list Page) :=
  match find_eq mid (endpoints (startTree g)),
        find_eq mid (endpoints (endTree g)) with
  | Some startMid, Some endMid =>
      Done (rev (ancestors startMid) ++ mid :: ancestors endMid)
  | _, _ => Raise UnboundLocalError
  end.

(** Which [return] statement of [Game.search] was taken; with [printInfo]
    each of the first four prints its "No paths possible" message. *)
Inductive Exit : Type :=
| NoEndpointsStart   (* line 263 *)
| NoEndpointsEnd     (* line 268 *)
| ExhaustedStart     (* line 295 *)
| ExhaustedEnd       (* line 326 *)
| Completed.         (* line 347 *)

Record SearchResult : Type := MkResult {
  ret : list (list Page);   (* the returned list of paths *)
  exit : Exit;
  explored : list Side      (* the explore calls made, in order *)
}.

(** One pass of [for mid in endpoints.intersection(res[1])]. *)
Definition record_mid (target : Z) (g : Game) (mid : Page) : outcome Game :=
  let si := (if searchIndex g <? target then searchIndex g + 1
             else searchIndex g)%Z in
  let g1 := {| startTree := startTree g; endTree := endTree g;
               searchIndex := si; paths := paths g |} in
  p <- getPath g1 mid ;;
  Done {| startTree := startTree g; endTree := endTree g;
          searchIndex := si; paths := paths g ++ [p] |}.

Fixpoint record_mids (target : Z) (g : Game) (mids : list Page) : outcome Game :=
  match mids with
  | [] => Done g
  | mid :: rest => g' <- record_mid target g mid ;; record_mids target g' rest
  end.

(** The loop [for i in range(searchIndex, min(targetIndex, len(paths)))]:
    each pass adds one to [searchIndex]. *)
Definition serve_buffered (target : Z) (g : Game) : Game :=
  let n := Z.to_nat (Z.min target (Z.of_nat (length (paths g))) - searchIndex g) in
  Nat.iter n (fun g' => {| startTree := startTree g'; endTree := endTree g';
                           searchIndex := searchIndex g' + 1;
                           paths := paths g' |}) g.

(** The test that selects the starting tree (line 283). *)
Definition chooseStart (g : Game) : bool :=
  let s := startTree g in
  let e := endTree g in
  ((Z.of_nat (queueLevel s) =? Z.of_nat (length (levels s)) - 2)
   || ((Z.of_nat (queueLevel e) =? Z.of_nat (length (levels e)) - 1)
       && (Z.of_nat (length (endpoints s)) <=? Z.of_nat (length (endpoints e)))))%Z.

Definition exhausted (sd : Side) : Exit :=
  match sd with Start => ExhaustedStart | End => ExhaustedEnd end.

Definition names (p : list Page) : list string := map getName p.

(** ** Python strings *)

(** [s.replace(a, b)] for two one-character strings [a] and [b]. *)
Fixpoint replace_char (a b : ascii) (s : string) : string :=
  match s with
  | EmptyString => EmptyString
  | String c s' =>
      String (if Ascii.eqb c a then b else c) (replace_char a b s')
  end.

(** [s[n:]] for a literal [n >= 0]. *)
Fixpoint str_drop (n : nat) (s : string) : string :=
  match n, s with
  | O, _ => s
  | S _, EmptyString => EmptyString
  | S n', String _ s' => str_drop n' s'
  end.

(** [s[:n]] for [n >= 0]. *)
Fixpoint str_take (n : nat) (s : string) : string :=
  match n, s with
  | O, _ => EmptyString
  | S _, EmptyString => EmptyString
  | S n', String c s' => String c (str_take n' s')
  end.

(** [c in s] for a one-character string [c]. *)
Fixpoint str_contains (c : ascii) (s : string) : bool :=
  match s with
  | EmptyString => false
  | String d s' => Ascii.eqb d c || str_contains c s'
  end.

(** [s.find(c)]: the index of the first [c]; [None] is Python's [-1]. *)
Fixpoint str_find (c : ascii) (s : string) : option nat :=
  match s with
  | EmptyString => None
  | String d s' =>
      if Ascii.eqb d c then Some 0
      else match str_find c s' with
           | Some n => Some (S n)
           | None => None
           end
  end.

(** ** Page names and links *)

Definition wiki : string := "https://en.wikipedia.org/wiki/".

(** [Page.__cleanLink]; [unquote] is [urllib.parse.unquote]. *)
Definition cleanLink (unquote : string -> string) (link : string) : string :=
  let link := replace_char " " "_" (unquote link) in
  if String.prefix wiki link then link else (wiki ++ link)%string.

(** The field [fullLink] that [Page.__init__] computes; [randomUrl] is the
    address that [Special:Random] redirects to, used for an empty name. *)
Definition Page_fullLink (unquote : string -> string) (randomUrl : string)
           (name : string) : string :=
  let name := if String.eqb name "" then randomUrl else name in
  cleanLink unquote name.

(** The field [name] that [Page.__init__] computes. *)
Definition Page_name (unquote : string -> string) (randomUrl : string)
           (name : string) : string :=
  replace_char "_" " " (str_drop 30 (Page_fullLink unquote randomUrl name)).

(** [Page(name, parent)] *)
Definition Page_init (unquote : string -> string) (randomUrl : string)
           (name : string) (parent : option Page) : Page :=
  MkPage (Page_name unquote randomUrl name) parent.

(** [Page.getFullLink]: a page keeps the name only; [Page_fullLink_of_name]
    shows that the stored link is this function of the stored name. *)
Definition getFullLink (p : Page) : string :=
  (wiki ++ replace_char " " "_" (getName p))%string.

(** [Tree.__fixLink]; the argument is [None] for an anchor without [href]. *)
Definition fixLink (unquote : string -> string) (link : option string)
  : option string :=
  match link with
  | None => None
  | Some l =>
      if negb (String.prefix "/wiki/" l) || str_contains ":" l then None
      else
        let l' := replace_char " " "_" (unquote (str_drop 6 l)) in
        match str_find "#" l' with
        | None => Some l'
        | Some pos => Some (str_take pos l')
        end
  end.

(** The address of the list of pages that link to [p]. *)
Definition reverse_link (p : Page) : string :=
  ("https://en.wikipedia.org/wiki/Special:WhatLinksHere?target="
   ++ replace_char " " "_" (getName p)
   ++ "&namespace=0&hidetrans=1&hideredirs=1&limit=5000")%string.

(** The links of a page with their places in the page: the pairs
    [(0, l0), (1, l1), ...]. *)
Definition numbered (hrefs : list (option string)) : list (nat * option string) :=
  combine (seq 0 (length hrefs)) hrefs.

(** The loops [for possLink in ...] of [Tree.getChildren]; [randomUrl i] is
    the address a random page is served from when the link at place [i]
    asks for one. *)
Definition add_links (unquote : string -> string) (randomUrl : nat -> string)
           (searchPage : Page) (hrefs : list (option string)) : PageSet :=
  fold_left (fun allPages link =>
               match fixLink unquote (snd link) with
               | Some fixed =>
                   set_add (Page_init unquote (randomUrl (fst link)) fixed
                                      (Some searchPage))
                           allPages
               | None => allPages
               end) (numbered hrefs) [].

(** [Tree.getChildren] on the pages as they are served: [body_hrefs url]
    is the list of the [href] attributes of the anchors in the paragraphs of
    the page body at [url], and [list_hrefs url] the one of the anchors of
    the list [mw-whatlinkshere-list]; each is [None] when the page has no
    such element.  [randomUrl url i] is the address a random page is served
    from when the link at place [i] of the page at [url] asks for one. *)
Definition getChildren_html (unquote : string -> string)
           (randomUrl : string -> nat -> string)
           (body_hrefs list_hrefs : string -> option (list (option string)))
           (t : Tree) (searchPage : Page) : PageSet :=
  if isStarting t then
    match body_hrefs (getFullLink searchPage) with
    | None => []
    | Some hrefs =>
        add_links unquote (randomUrl (getFullLink searchPage)) searchPage hrefs
    end
  else
    match list_hrefs (reverse_link searchPage) with
    | None => []
    | Some hrefs =>
        add_links unquote (randomUrl (reverse_link searchPage)) searchPage hrefs
    end.

(** The names that [getChildren_html] finds for the page called [n]. *)
Definition names_of_hrefs (unquote : string -> string)
           (randomUrl : nat -> string)
           (hrefs : option (list (option string))) : list string :=
  match hrefs with
  | None => []
  | Some l =>
      flat_map (fun link =>
                  match fixLink unquote (snd link) with
                  | Some fixed => [Page_name unquote (randomUrl (fst link)) fixed]
                  | None => []
                  end) (numbered l)
  end.

Definition html_links (unquote : string -> string)
           (randomUrl : string -> nat -> string)
           (body_hrefs : string -> option (list (option string)))
           (n : string) : list string :=
  names_of_hrefs unquote (randomUrl (getFullLink (MkPage n None)))
                 (body_hrefs (getFullLink (MkPage n None))).

Definition html_linksHere (unquote : string -> string)
           (randomUrl : string -> nat -> string)
           (list_hrefs : string -> option (list (option string)))
           (n : string) : list string :=
  names_of_hrefs unquote (randomUrl (reverse_link (MkPage n None)))
                 (list_hrefs (reverse_link (MkPage n None))).

(** [Game.__init__] on two strings, through [Page.__init__]; [randomStart]
    and [randomEnd] are the addresses a random page is served from for an
    empty [startPage] and an empty [endPage]. *)
Definition Game_new (unquote : string -> string)
           (randomStart randomEnd : string)
           (startPage endPage : string) : Game :=
  {| startTree := Tree_init (Page_init unquote randomStart startPage None) true;
     endTree := Tree_init (Page_init unquote randomEnd endPage None) false;
     searchIndex := 0;
     paths := [] |}.

(** ** Path strings *)

(** [Game.getPathStringFromPath]: [" > ".join(...)] *)
Definition getPathStringFromPath (path : list Page) : string :=
  String.concat " > " (map getName path).

(** [Game.__getPathString]: the two [while] loops walk the parents of the
    two endpoints that equal [mid]. *)
Definition getPathString (g : Game) (mid : Page) : outcome string :=
  let out := getName mid in
  match find_eq mid (endpoints (startTree g)),
        find_eq mid (endpoints (endTree g)) with
  | Some startMid, Some endMid =>
      let out := fold_left (fun out midStartParent =>
                              (getName midStartParent ++ " > " ++ out)%string)
                           (ancestors startMid) out in
      let out := fold_left (fun out midEndParent =>
                              (out ++ " > " ++ getName midEndParent)%string)
                           (ancestors endMid) out in
      Done out
  | _, _ => Raise UnboundLocalError
  end.

(** ** Status strings *)

(** [str(n)] for a count [n]: its decimal digits. *)
Definition str_of_nat (n : nat) : string :=
  DecimalString.NilEmpty.string_of_uint (Nat.to_uint n).

(** [str(l)] for a list of counts: the items between brackets, separated
    by a comma and a space. *)
Definition str_of_list (l : list nat) : string :=
  ("[" ++ String.concat ", " (map str_of_nat l) ++ "]")%string.

(** [s[a:b]] on a string. *)
Definition str_slice (s : string) (a b : Z) : string :=
  string_of_list_ascii (py_slice (list_ascii_of_string s) a b).

(** [s.replace(old, new)] for a non-empty [old]: the occurrences of [old]
    are replaced from left to right, without overlap; [skip] counts the
    characters of a replaced occurrence that are still to pass. *)
Fixpoint str_replace_from (old new : string) (skip : nat) (s : string) : string :=
  match s with
  | EmptyString => EmptyString
  | String c s' =>
      match skip with
      | S k => str_replace_from old new k s'
      | O =>
          if String.prefix old s
          then (new ++ str_replace_from old new (String.length old - 1) s')%string
          else String c (str_replace_from old new 0 s')
      end
  end.

Definition str_replace (old new s : string) : string :=
  str_replace_from old new 0 s.

(** [Tree.__str__] *)
Definition Tree_str (t : Tree) : string :=
  let sizes := map (@length Page) (levels t) in
  let sizes := if isStarting t then sizes else rev sizes in
  str_replace ", " " > " (str_slice (str_of_list sizes) 1 (-1)).

(** [Game.getStatusString] *)
Definition getStatusString (g : Game) : string :=
  (Tree_str (startTree g) ++ " > ... > " ++ Tree_str (endTree g))%string.

(** ** Tests (testing.py) *)

Inductive TestFailure : Type :=
| AssertionError
| ZeroDivisionError
| Uncaught (e : exn).

(** How a test function ends: it returns, it stops on an exception, or it is
    still running when the fuel is spent. *)
Inductive TestOutcome (A : Type) : Type :=
| Passed (a : A)
| Failed (f : TestFailure)
| Unfinished.

Arguments Failed {A} f.
Arguments Unfinished {A}.

(** ** Example graphs *)

Definition first_pick : PageSet -> nat := fun _ => 0.

(** The scenario of the specification: A links to B and C; B and E link to D. *)
Definition scenario_links (n : string) : list string :=
  if String.eqb n "A" then ["B"; "C"] else
  if String.eqb n "B" then ["D"] else
  if String.eqb n "E" then ["D"] else [].

Definition scenario_linksHere (n : string) : list string :=
  if String.eqb n "D" then ["B"; "E"] else
  if String.eqb n "B" then ["A"] else
  if String.eqb n "C" then ["A"] else [].

(** A page that links back: A links to X; X links to M and G; M links to X. *)
Definition loop_links (n : string) : list string :=
  if String.eqb n "A" then ["X"] else
  if String.eqb n "X" then ["M"; "G"] else
  if String.eqb n "M" then ["X"] else [].

Definition loop_linksHere (n : string) : list string :=
  if String.eqb n "G" then ["X"] else
  if String.eqb n "X" then ["A"; "M"] else
  if String.eqb n "M" then ["X"] else [].

(** A round trip: A links to B and C; B links to A. *)
Definition round_links (n : string) : list string :=
  if String.eqb n "A" then ["B"; "C"] else
  if String.eqb n "B" then ["A"] else [].

Definition round_linksHere (n : string) : list string :=
  if String.eqb n "A" then ["B"] else
  if String.eqb n "B" then ["A"] else
  if String.eqb n "C" then ["A"] else [].

(** No link at all. *)
Definition no_links (n : string) : list string := [].

(** The pages of the tests: "United States" links to "North America", B and
    C; B and E link to "Donald Trump"; C links to E. *)
Definition test_links (n : string) : list string :=
  if String.eqb n "United States" then ["North America"; "B"; "C"] else
  if String.eqb n "B" then ["Donald Trump"] else
  if String.eqb n "C" then ["E"] else
  if String.eqb n "E" then ["Donald Trump"] else [].

Definition test_linksHere (n : string) : list string :=
  if String.eqb n "Donald Trump" then ["B"; "E"] else
  if String.eqb n "North America" then ["United States"] else
  if String.eqb n "B" then ["United States"] else
  if String.eqb n "C" then ["United States"] else
  if String.eqb n "E" then ["C"] else [].

(** A fork: A links to B and C; B links to E; C links to E and F; E and G
    link to D; F links to G. *)
Definition fork_links (n : string) : list string :=
  if String.eqb n "A" then ["B"; "C"] else
  if String.eqb n "B" then ["E"] else
  if String.eqb n "C" then ["E"; "F"] else
  if String.eqb n "E" then ["D"] else
  if String.eqb n "F" then ["G"] else
  if String.eqb n "G" then ["D"] else [].

Definition fork_linksHere (n : string) : list string :=
  if String.eqb n "D" then ["E"; "G"] else
  if String.eqb n "E" then ["B"; "C"] else
  if String.eqb n "G" then ["F"] else
  if String.eqb n "F" then ["C"] else
  if String.eqb n "B" then ["A"] else
  if String.eqb n "C" then ["A"] else [].

(** A fan: A links to B1, B2, B3, B4 and C; B1, B2, B3, B4 and E link to D;
    C links to E. *)
Definition fan_links (n : string) : list string :=
  if String.eqb n "A" then ["B1"; "B2"; "B3"; "B4"; "C"] else
  if String.eqb n "B1" then ["D"] else
  if String.eqb n "B2" then ["D"] else
  if String.eqb n "B3" then ["D"] else
  if String.eqb n "B4" then ["D"] else
  if String.eqb n "C" then ["E"] else
  if String.eqb n "E" then ["D"] else [].

Definition fan_linksHere (n : string) : list string :=
  if String.eqb n "D" then ["B1"; "B2"; "B3"; "B4"; "E"] else
  if String.eqb n "B1" then ["A"] else
  if String.eqb n "B2" then ["A"] else
  if String.eqb n "B3" then ["A"] else
  if String.eqb n "B4" then ["A"] else
  if String.eqb n "C" then ["A"] else
  if String.eqb n "E" then ["C"] else [].

(** An [unquote] for titles without escape. *)
Definition plain_unquote (s : string) : string := s.

(** The names of the scenario. *)
Definition scenario_names : list string := ["A"; "B"; "C"; "D"; "E"].

Section Search.

(** The order in which [set.pop()] delivers: the index of the popped
    element in the set, taken modulo its size. *)
Variable pick : PageSet -> nat.

(** The neighbour lookups behind [Tree.getChildren]. *)
Variable links : string -> list string.
Variable linksHere : string -> list string.

(** [s.pop()]; [None] is the [KeyError] of an empty set. *)
Definition set_pop (s : PageSet) : option (Page * PageSet) :=
  match nth_error s (pick s mod length s) with
  | Some p => Some (p, set_discard p s)
  | None => None
  end.

(** [Tree.getChildren]: every name found becomes a page whose parent is
    [searchPage], added to the set [allPages]. *)
Definition getChildren (t : Tree) (searchPage : Page) : PageSet :=
  let names := if isStarting t then links (getName searchPage)
               else linksHere (getName searchPage) in
  fold_left (fun allPages n => set_add (MkPage n (Some searchPage)) allPages)
            names [].

(** [Tree.explore]: the returned triple and the tree after the call. *)
Definition explore (t : Tree) : outcome ((bool * PageSet * bool) * Tree) :=
  match set_pop (queue t) with
  | None => Raise KeyError
  | Some (searchPage, queue1) =>
  match set_remove searchPage (endpoints t) with
  | None => Raise KeyError
  | Some endpoints1 =>
  let children := getChildren t searchPage in
  let levels1 :=
    if (Z.of_nat (queueLevel t) =? Z.of_nat (length (levels t)) - 1)%Z
    then levels t ++ [[]] else levels t in
  let unseenChildren := set_difference children (set_union_all levels1) in
  match add_children unseenChildren levels1 endpoints1 with
  | None => Raise IndexError
  | Some (levels2, endpoints2) =>
  if length queue1 =? 0 then
    let queueLevel1 := S (queueLevel t) in
    match nth_error levels2 queueLevel1 with
    | None => Raise IndexError
    | Some l =>
        if length l =? 0 then
          Done ((false, [], false),
                {| root := root t; isStarting := isStarting t;
                   endpoints := endpoints2; queue := queue1;
                   queueLevel := queueLevel1; levels := levels2 |})
        else
          Done ((true, unseenChildren, true),
                {| root := root t; isStarting := isStarting t;
                   endpoints := endpoints2; queue := l;
                   queueLevel := queueLevel1; levels := levels2 |})
    end
  else
    Done ((true, unseenChildren, false),
          {| root := root t; isStarting := isStarting t;
             endpoints := endpoints2; queue := queue1;
             queueLevel := queueLevel t; levels := levels2 |})
  end end end.

(** How an inner [while] loop of [Game.search] ends: with the [return] of an
    exhausted tree, or by falling out of the loop. *)
Inductive DrainExit : Type := TreeExhausted | LoopEnded.

(** The inner loop [while not queueEmpty and searchIndex < targetIndex]; the
    two copies in the source differ only in the tree they explore, [sd]. *)
Fixpoint drain (fuel : nat) (sd : Side) (target : Z) (queueEmpty : bool)
         (g : Game) (tr : list Side)
  : outcome (DrainExit * Game * list Side) :=
  if negb queueEmpty && (searchIndex g <? target)%Z then
    match fuel with
    | O => OutOfFuel
    | S fuel' =>
        r <- explore (treeOf sd g) ;;
        let '((ok, newPages, lastInQueue), t') := r in
        let g1 := setTree sd t' g in
        let tr1 := tr ++ [sd] in
        if negb ok then Done (TreeExhausted, g1, tr1)
        else
          g2 <- record_mids target g1
                  (set_intersection (endpoints (treeOf (otherSide sd) g1)) newPages) ;;
          drain fuel' sd target lastInQueue g2 tr1
    end
  else Done (LoopEnded, g, tr).

(** The outer loop [while searchIndex < targetIndex]. *)
Fixpoint outer (fuel : nat) (target : Z) (g : Game) (tr : list Side)
  : outcome (Exit * Game * list Side) :=
  if (searchIndex g <? target)%Z then
    match fuel with
    | O => OutOfFuel
    | S fuel' =>
        let sd := if chooseStart g then Start else End in
        r <- drain fuel' sd target false g tr ;;
        let '(x, g', tr') := r in
        match x with
        | TreeExhausted => Done (exhausted sd, g', tr')
        | LoopEnded => outer fuel' target g' tr'
        end
    end
  else Done (Completed, g, tr).

(** [Game.search(count, printInfo)]: the result and the game after the
    call.  Printing does not change what is computed. *)
Definition search (fuel : nat) (count : Z) (g : Game) : outcome (SearchResult * Game) :=
  let newCount := 0%Z in
  let targetIndex := (searchIndex g + count)%Z in
  if length (endpoints (startTree g)) =? 0 then
    Done ({| ret := py_slice (paths g) (searchIndex g - newCount) (searchIndex g);
             exit := NoEndpointsStart; explored := [] |}, g)
  else if length (endpoints (endTree g)) =? 0 then
    Done ({| ret := py_slice (paths g) (searchIndex g - newCount) (searchIndex g);
             exit := NoEndpointsEnd; explored := [] |}, g)
  else
    let originalStartIndex := searchIndex g in
    let g1 := serve_buffered targetIndex g in
    r <- outer fuel targetIndex g1 [] ;;
    let '(x, g2, tr) := r in
    Done ({| ret := py_slice (paths g2) originalStartIndex (originalStartIndex + count);
             exit := x; explored := tr |}, g2).


(** ** The tests of testing.py *)

(** [validatePath]: the [for depth in range(0, len(path) - 1)] loop, which
    returns [False] at the first page that is no child of the page before
    it; [None] of [nth_error] is the [IndexError] of a list index. *)
Fixpoint validate_loop (t : Tree) (path : list Page) (depths : list nat)
  : outcome bool :=
  match depths with
  | [] => Done true
  | depth :: rest =>
      match nth_error path (depth + 1), nth_error path depth with
      | Some next, Some here =>
          if negb (set_mem next (getChildren t here)) then Done false
          else validate_loop t path rest
      | _, _ => Raise IndexError
      end
  end.

(** Every page of [path] but the first is a child of the page before it. *)
Fixpoint children_chain (t : Tree) (path : list Page) : bool :=
  match path with
  | a :: ((b :: _) as rest) =>
      set_mem b (getChildren t a) && children_chain t rest
  | _ => true
  end.

Definition validatePath (path : list Page) : outcome bool :=
  if length path <? 2 then Done false
  else
    match nth_error path 0 with
    | None => Raise IndexError
    | Some first =>
        let t := Tree_init first true in
        validate_loop t path (seq 0 (length path - 1))
    end.

(** The body of a test after [res = g.search(1, False)]: the [assert]
    statements of [testLength2]. *)
Definition checkLength2 (res : list (list Page)) : TestOutcome unit :=
  if negb (length res =? 1) then Failed AssertionError
  else
    match nth_error res 0 with
    | None => Failed (Uncaught IndexError)
    | Some p =>
        if negb (length p =? 2) then Failed AssertionError
        else
          match validatePath p with
          | Done true => Passed tt
          | Done false => Failed AssertionError
          | Raise e => Failed (Uncaught e)
          | OutOfFuel => Unfinished
          end
    end.

(** [testLength2]; [unquote] is [urllib.parse.unquote], [randomStart] and
    [randomEnd] are the addresses of [Game_new]. *)
Definition testLength2 (unquote : string -> string)
           (randomStart randomEnd : string)
           (fuel : nat) : TestOutcome unit :=
  let g := Game_new unquote randomStart randomEnd
                    "United States" "North America" in
  match search fuel 1 g with
  | Done (res, _) => checkLength2 (ret res)
  | Raise e => Failed (Uncaught e)
  | OutOfFuel => Unfinished
  end.

(** The loop [while more] of [testLength3]; [rounds] bounds the number of
    its iterations and [fuel] the loops of each [search] call.  The result
    is the pair [(validPaths, allLength3Paths)] at the [break]. *)
Fixpoint length3_loop (rounds fuel : nat) (g : Game)
         (allLength3Paths : list Page) (validPaths : nat)
  : TestOutcome (nat * list Page) :=
  match rounds with
  | O => Unfinished
  | S rounds' =>
      match search fuel 1 g with
      | Raise e => Failed (Uncaught e)
      | OutOfFuel => Unfinished
      | Done (res, g') =>
          let path := ret res in
          if negb (length path =? 1) then Failed AssertionError
          else
            match nth_error path 0 with
            | None => Failed (Uncaught IndexError)
            | Some p0 =>
                if length p0 =? 3 then
                  match validatePath p0 with
                  | Done v =>
                      length3_loop rounds' fuel g' (allLength3Paths ++ p0)
                                   (validPaths + (if v then 1 else 0))
                  | Raise e => Failed (Uncaught e)
                  | OutOfFuel => Unfinished
                  end
                else if 3 <? length p0 then
                  Passed (validPaths, allLength3Paths)
                else length3_loop rounds' fuel g' allLength3Paths validPaths
            end
      end
  end.

(** [testLength3]: the two numbers of the quotient
    [validPaths / len(allLength3Paths)] that the test prints as a
    percentage. *)
Definition testLength3 (unquote : string -> string)
           (randomStart randomEnd : string)
           (rounds fuel : nat) : TestOutcome (nat * nat) :=
  let g := Game_new unquote randomStart randomEnd
                    "United States" "Donald Trump" in
  match length3_loop rounds fuel g [] 0 with
  | Passed (validPaths, allLength3Paths) =>
      if length allLength3Paths =? 0 then Failed ZeroDivisionError
      else Passed (validPaths, length allLength3Paths)
  | Failed f => Failed f
  | Unfinished => Unfinished
  end.

(** ** Invariants of a tree *)

(** The neighbour lookup a tree uses. *)
Definition nbrs (t : Tree) : string -> list string :=
  if isStarting t then links else linksHere.

(** What it takes to sit on level [k]: the root on level 0, and above it a
    page whose parent sits one level lower and lists it as a neighbour. *)
Definition on_level (t : Tree) (k : nat) (p : Page) : Prop :=
  match k with
  | O => p = root t
  | S k' => exists q l, getParent p = Some q
                        /\ In (getName p) (nbrs t (getName q))
                        /\ nth_error (levels t) k' = Some l /\ In q l
  end.

(** A page of level [k] has been explored when its level is below the
    queue's, or is the queue's and the page has left the queue. *)
Definition was_explored (t : Tree) (k : nat) (u : Page) : Prop :=
  k < queueLevel t \/ (k = queueLevel t /\ set_mem u (queue t) = false).

Record levels_ok (t : Tree) : Prop := {
  lo_first : nth_error (levels t) 0 = Some [root t];
  lo_nodup : NoDup (map getName (concat (levels t)));
  lo_level : forall k l p,
      nth_error (levels t) k = Some l -> In p l -> on_level t k p;
  lo_closed : forall k l u,
      nth_error (levels t) k = Some l -> In u l -> was_explored t k u ->
      forall c, In c (nbrs t (getName u)) ->
      exists k' l', k' <= S k /\ nth_error (levels t) k' = Some l'
                    /\ In c (map getName l')
}.

(** Between two levels: the queue holds the whole deepest level. *)
Definition boundary (t : Tree) : Prop :=
  exists init, levels t = init ++ [queue t]
               /\ queueLevel t = length init
               /\ endpoints t = queue t
               /\ queue t <> [].

(** Inside a level: some pages of level [queueLevel] are still queued and
    the next level is being filled. *)
Definition midlevel (t : Tree) : Prop :=
  exists init cur nxt, levels t = init ++ [cur; nxt]
               /\ queueLevel t = length init
               /\ incl (queue t) cur
               /\ endpoints t = queue t ++ nxt
               /\ queue t <> [].

(** After [explore] has returned its [(False, set(), False)]. *)
Definition dead (t : Tree) : Prop :=
  exists init, levels t = init ++ [[]]
               /\ queueLevel t = length init
               /\ queue t = [] /\ endpoints t = [].

Definition live (t : Tree) : Prop := boundary t \/ midlevel t.

(** A live tree seen after the statement [levels.append(set())] has run
    when it had to: [cur] is the level being drained and [nxt] the level
    being filled (still missing from [levels] when at a boundary). *)
Definition opened (t : Tree) (init : list PageSet) (cur nxt : PageSet) : Prop :=
  queueLevel t = length init
  /\ incl (queue t) cur
  /\ endpoints t = queue t ++ nxt
  /\ queue t <> []
  /\ ((levels t = init ++ [cur] /\ nxt = [] /\ queue t = cur)
      \/ levels t = init ++ [cur; nxt]).

(** The effect of one [explore] call that pops [u] from an opened tree. *)
Definition stepped (t t' : Tree) (init : list PageSet) (cur nxt : PageSet)
           (u : Page) (unseen : PageSet) : Prop :=
  opened t init cur nxt
  /\ In u (queue t)
  /\ unseen = set_difference (getChildren t u) (set_union_all (init ++ [cur; nxt]))
  /\ levels t' = init ++ [cur; nxt ++ unseen]
  /\ endpoints t' = set_discard u (queue t) ++ nxt ++ unseen
  /\ root t' = root t
  /\ isStarting t' = isStarting t
  /\ ((set_discard u (queue t) <> []
       /\ queue t' = set_discard u (queue t) /\ queueLevel t' = queueLevel t)
      \/ (set_discard u (queue t) = []
          /\ queue t' = nxt ++ unseen /\ queueLevel t' = S (queueLevel t))).

(** The triple [explore] returns after such a step. *)
Definition step_result (t t' : Tree) (u : Page) (unseen : PageSet)
  : bool * PageSet * bool :=
  if length (set_discard u (queue t)) =? 0 then
    if length (queue t') =? 0 then (false, [], false) else (true, unseen, true)
  else (true, unseen, false).

(** The states of a tree: [Tree.__init__], then [explore] calls as long as
    they report success. *)
Inductive tree_reachable (r : Page) (starting : bool) : Tree -> Prop :=
| tr_init : tree_reachable r starting (Tree_init r starting)
| tr_explore t new last t' :
    tree_reachable r starting t ->
    explore t = Done ((true, new, last), t') ->
    tree_reachable r starting t'.

(** A walk of [n] edges of the lookup [f] from [x] to [y]. *)
Fixpoint walk (f : string -> list string) (n : nat) (x y : string) : Prop :=
  match n with
  | O => x = y
  | S n' => exists z, walk f n' x z /\ In y (f z)
  end.

(** ** Invariants of a game *)

(** The number of pages of a path found now: one new page below the queue
    level of the explored tree, joined to the deepest level of the other. *)
Definition path_len_now (g : Game) : nat :=
  queueLevel (startTree g) + queueLevel (endTree g) + 2.

(** [p] joins a page of level [i] of the starting tree to a page of level
    [j] of the ending tree that carry the same name, the way
    [Game.__getPath] builds it. *)
Definition joins (s e : Tree) (i j : nat) (p : list Page) : Prop :=
  exists mid startMid endMid ls le,
    nth_error (levels s) i = Some ls /\ In startMid ls
    /\ nth_error (levels e) j = Some le /\ In endMid le
    /\ getName startMid = getName mid /\ getName endMid = getName mid
    /\ p = rev (ancestors startMid) ++ mid :: ancestors endMid.

(** [mid] is found among the endpoints of both trees, on levels [i] and [j]. *)
Definition meets (s e : Tree) (i j : nat) (mid : Page) : Prop :=
  exists startMid endMid ls le,
    find_eq mid (endpoints s) = Some startMid
    /\ find_eq mid (endpoints e) = Some endMid
    /\ nth_error (levels s) i = Some ls /\ In startMid ls
    /\ nth_error (levels e) j = Some le /\ In endMid le
    /\ getName startMid = getName mid /\ getName endMid = getName mid.

Definition by_length (p q : list Page) : Prop := length p <= length q.

Definition overflow (g : Game) : list (list Page) :=
  skipn (Z.to_nat (searchIndex g)) (paths g).

Record game_core (g : Game) : Prop := {
  gc_start : levels_ok (startTree g);
  gc_start_flag : isStarting (startTree g) = true;
  gc_start_root : getParent (root (startTree g)) = None;
  gc_end : levels_ok (endTree g);
  gc_end_flag : isStarting (endTree g) = false;
  gc_end_root : getParent (root (endTree g)) = None;
  gc_index : (0 <= searchIndex g <= Z.of_nat (length (paths g)))%Z;
  gc_paths : forall p, In p (paths g) ->
      exists i j, joins (startTree g) (endTree g) i j p
                  /\ 1 <= i + j /\ i + j + 1 <= path_len_now g;
  gc_sorted : StronglySorted by_length (paths g);
  gc_overflow : forall p q, In p (overflow g) -> In q (overflow g) ->
      length p = length q
}.

(** Both trees can be explored, and at most one is inside a level. *)
Definition both_live (g : Game) : Prop :=
  live (startTree g) /\ live (endTree g)
  /\ (boundary (startTree g) \/ boundary (endTree g)).

(** One tree has been exhausted; every path found has been delivered. *)
Definition one_dead (g : Game) : Prop :=
  ((dead (startTree g) /\ boundary (endTree g))
   \/ (boundary (startTree g) /\ dead (endTree g)))
  /\ searchIndex g = Z.of_nat (length (paths g)).

Definition game_ok (g : Game) : Prop :=
  game_core g /\ (both_live g \/ one_dead g).

(** While a loop of [search] runs towards [target], nothing found is held
    back. *)
Definition no_backlog (target : Z) (g : Game) : Prop :=
  (searchIndex g < target)%Z -> searchIndex g = Z.of_nat (length (paths g)).

(** What a tree keeps from an earlier state. *)
Definition tree_grows (t t' : Tree) : Prop :=
  root t' = root t /\ isStarting t' = isStarting t
  /\ queueLevel t <= queueLevel t'
  /\ forall k l, nth_error (levels t) k = Some l ->
       exists l', nth_error (levels t') k = Some l' /\ incl l l'.

(** What a game keeps from an earlier state: the paths found since are
    appended, and none is shorter than what could be found then. *)
Definition game_grows (g g' : Game) : Prop :=
  tree_grows (startTree g) (startTree g')
  /\ tree_grows (endTree g) (endTree g')
  /\ (searchIndex g <= searchIndex g')%Z
  /\ exists found, paths g' = paths g ++ found
       /\ forall q, In q found -> path_len_now g <= length q.

(** The outcome [m] is no exception, and satisfies [P] if it is a result. *)
Definition safely {A : Type} (m : outcome A) (P : A -> Prop) : Prop :=
  match m with
  | Done a => P a
  | Raise _ => False
  | OutOfFuel => True
  end.

(** Every two consecutive elements of [l] are related by [R]. *)
Fixpoint chain (R : string -> string -> Prop) (l : list string) : Prop :=
  match l with
  | a :: ((b :: _) as rest) => R a b /\ chain R rest
  | _ => True
  end.

(** Every name of [l] but the first is among the neighbours that the lookup
    [f] gives for the name before it. *)
Definition linked (f : string -> list string) (l : list string) : Prop :=
  chain (fun a b => In b (f a)) l.

(** The states of a game, with all the paths its [search] calls have
    returned so far, in order. *)
Inductive game_run (startPage endPage : string) : Game -> list (list Page) -> Prop :=
| run_init : game_run startPage endPage (Game_init startPage endPage) []
| run_search g delivered fuel count r g' :
    game_run startPage endPage g delivered ->
    search fuel count g = Done (r, g') ->
    game_run startPage endPage g' (delivered ++ ret r).

(** The states of a game whose [search] calls all ask for a number of paths
    that is not negative. *)
Inductive paged_run (startPage endPage : string) : Game -> list (list Page) -> Prop :=
| paged_init : paged_run startPage endPage (Game_init startPage endPage) []
| paged_search g delivered fuel count r g' :
    paged_run startPage endPage g delivered ->
    (0 <= count)%Z ->
    search fuel count g = Done (r, g') ->
    paged_run startPage endPage g' (delivered ++ ret r).

(** The pages that the first [explore] call of a tree reports. *)
Definition root_children (r : Page) (starting : bool) : PageSet :=
  set_difference (getChildren (Tree_init r starting) r)
                 (set_union_all [[r]; []]).

(** The pages of a tree that [explore] has not popped yet: the queue and
    the levels below it. *)
Definition unexplored (t : Tree) : nat :=
  length (queue t) + length (concat (skipn (S (queueLevel t)) (levels t))).

(** The [explore] calls a tree can still take when its lookup answers with
    at most [bound] names in all: one for each page not popped yet and one
    for each name not found yet. *)
Definition budget (bound : nat) (t : Tree) : nat :=
  (S bound - length (concat (levels t))) + unexplored t.

Definition game_budget (bound : nat) (g : Game) : nat :=
  budget bound (startTree g) + budget bound (endTree g).

(** What a loop of [search] does with its fuel: a result leaves a budget
    lowered by the [explore] calls made, and the fuel runs out only when it
    is below the budget and [slack]. *)
Definition spends (bound fuel slack : nat) (g : Game) (tr : list Side)
           (X : Type) (m : outcome (X * Game * list Side)) : Prop :=
  match m with
  | Done (_, g', tr') =>
      length tr' + game_budget bound g' <= length tr + game_budget bound g
  | Raise _ => False
  | OutOfFuel => fuel < game_budget bound g + slack
  end.

(** Some name is on a level of both trees. *)
Definition shares_name (s e : Tree) : Prop :=
  exists n, In n (map getName (concat (levels s)))
            /\ In n (map getName (concat (levels e))).

(** What the paths of a game from [startPage] to [endPage] owe to the
    links: a name that both trees have reached has given a path, and the
    first path found is no longer than any walk along the links. *)
Definition found_ok (startPage endPage : string) (g : Game) : Prop :=
  getName (root (startTree g)) = startPage
  /\ getName (root (endTree g)) = endPage
  /\ (shares_name (startTree g) (endTree g) -> paths g <> [])
  /\ (forall p d, hd_error (paths g) = Some p ->
        walk links d startPage endPage -> length p <= d + 1).

(** The place of the meeting page in a path found now by exploring the
    tree [sd]: the number of pages before it. *)
Definition mid_index (sd : Side) (g : Game) : nat :=
  match sd with
  | Start => S (queueLevel (startTree g))
  | End => queueLevel (startTree g)
  end.

(** No two paths found visit the same names in the same order; a path as
    long as the paths found now was found on the level being explored, and
    the name of its meeting page is on the levels of the tree explored. *)
Definition paths_distinct (g : Game) : Prop :=
  NoDup (map names (paths g))
  /\ forall q, In q (paths g) -> length q = path_len_now g ->
       exists sd n, midlevel (treeOf sd g)
         /\ nth_error (names q) (mid_index sd g) = Some n
         /\ In n (map getName (concat (levels (treeOf sd g)))).

(** The paths that one pass over the meeting pages [mids] appends. *)
Definition found_paths (s e : Tree) (mids : list Page) : list (list Page) :=
  map (fun mid =>
         match find_eq mid (endpoints s), find_eq mid (endpoints e) with
         | Some startMid, Some endMid =>
             rev (ancestors startMid) ++ mid :: ancestors endMid
         | _, _ => []
         end) mids.

(** The game after one successful [explore] of the tree [sd], which left
    the tree [t'] and reported the pages [new], and after the loop over the
    meeting pages. *)
Definition after_step (sd : Side) (target : Z) (g : Game) (t' : Tree)
           (new : PageSet) : Game :=
  let g1 := setTree sd t' g in
  let mids := set_intersection (endpoints (treeOf (otherSide sd) g1)) new in
  {| startTree := startTree g1; endTree := endTree g1;
     searchIndex := Z.max (searchIndex g)
                      (Z.min target (searchIndex g + Z.of_nat (length mids)));
     paths := paths g ++ found_paths (startTree g1) (endTree g1) mids |}.

(** A property of games that every pass of the inner loops keeps: [Q] holds
    after the [explore] call and the loop over the meeting pages, and after
    the [explore] call alone when it exhausts the tree. *)
Definition kept_by_steps (Q : Game -> Prop) : Prop :=
  forall (sd : Side) (target : Z) (g : Game) (t' : Tree)
         (init : list PageSet) (cur nxt : PageSet) (u : Page) (unseen : PageSet),
    game_core g -> live (treeOf sd g) -> boundary (treeOf (otherSide sd) g) ->
    searchIndex g = Z.of_nat (length (paths g)) ->
    stepped (treeOf sd g) t' init cur nxt u unseen ->
    game_core (setTree sd t' g) ->
    game_core (after_step sd target g t' unseen) ->
    Q g ->
    Q (after_step sd target g t' unseen) /\ (dead t' -> Q (setTree sd t' g)).

(** A property of games that does not look at [searchIndex]. *)
Definition index_free (Q : Game -> Prop) : Prop :=
  forall (g : Game) (si : Z),
    Q g -> Q {| startTree := startTree g; endTree := endTree g;
                searchIndex := si; paths := paths g |}.

(** What the inner loop on the tree [sd] guarantees when it ends. *)
Definition drain_post (sd : Side) (target : Z) (queueEmpty : bool) (g : Game)
           (tr : list Side) (r : DrainExit * Game * list Side) : Prop :=
  let '(x, g', tr') := r in
  game_core g' /\ game_grows g g' /\ no_backlog target g'
  /\ (searchIndex g' <= Z.max (searchIndex g) target)%Z
  /\ (exists n, tr' = tr ++ repeat sd n
                /\ (queueEmpty = false -> (searchIndex g < target)%Z -> 1 <= n))
  /\ match x with
     | LoopEnded => both_live g'
     | TreeExhausted => one_dead g' /\ (searchIndex g' < target)%Z
     end.

(** The tree the outer loop explores next. *)
Definition next_side (g : Game) : Side := if chooseStart g then Start else End.

(** What the outer loop guarantees when it ends. *)
Definition outer_post (target : Z) (g : Game) (tr : list Side)
           (r : Exit * Game * list Side) : Prop :=
  let '(x, g', tr') := r in
  game_core g' /\ game_grows g g' /\ no_backlog target g'
  /\ (searchIndex g' <= Z.max (searchIndex g) target)%Z
  /\ (exists tr2, tr' = tr ++ tr2
        /\ ((searchIndex g < target)%Z -> exists rest, tr2 = next_side g :: rest))
  /\ match x with
     | Completed => both_live g' /\ (target <= searchIndex g')%Z
     | ExhaustedStart | ExhaustedEnd =>
         one_dead g' /\ (searchIndex g' < target)%Z
     | _ => False
     end.

(** What a [search] call guarantees when it returns: either it found a
    tree without endpoints and changed nothing, or it went through the
    loops. *)
Definition search_post (fuel : nat) (count : Z) (g : Game)
           (r : SearchResult * Game) : Prop :=
  let '(res, g') := r in
  game_ok g' /\ game_grows g g'
  /\ ((one_dead g /\ g' = g /\ ret res = [] /\ explored res = []
       /\ (exit res = NoEndpointsStart \/ exit res = NoEndpointsEnd))
      \/ (both_live g
          /\ outer fuel (searchIndex g + count)
                   (serve_buffered (searchIndex g + count) g) []
             = Done (exit res, g', explored res)
          /\ outer_post (searchIndex g + count)
                        (serve_buffered (searchIndex g + count) g) []
                        (exit res, g', explored res)
          /\ ret res = py_slice (paths g') (searchIndex g)
                                (searchIndex g + count))).

(** The starting tree of a fresh game after an [explore] that found no
    link on the root. *)
Definition exhausted_root (r : Page) (starting : bool) : Tree :=
  {| root := r; isStarting := starting; endpoints := []; queue := [];
     queueLevel := 1; levels := [[r]; []] |}.

(** The game [g] with the [searchIndex] that a loop towards [target] keeps:
    everything found is delivered, up to [target]. *)
Definition reindex (target : Z) (g : Game) : Game :=
  {| startTree := startTree g; endTree := endTree g;
     searchIndex := Z.min target (Z.of_nat (length (paths g)));
     paths := paths g |}.

(** ** Basic facts: sets *)

Lemma Page_eqb_spec (p q : Page) :
  reflect (getName p = getName q) (Page_eqb p q).
Proof. unfold Page_eqb. apply String.eqb_spec. Qed.

Lemma set_mem_true (p : Page) (s : PageSet) :
  set_mem p s = true <-> In (getName p) (map getName s).
Proof.
  unfold set_mem. rewrite existsb_exists, in_map_iff. unfold Page_eqb.
  split; intros [q [H1 H2]].
  - exists q. apply String.eqb_eq in H2. now split.
  - exists q. split; [assumption|]. apply String.eqb_eq. now symmetry.
Qed.

Lemma set_mem_false (p : Page) (s : PageSet) :
  set_mem p s = false <-> ~ In (getName p) (map getName s).
Proof.
  rewrite <- set_mem_true. destruct (set_mem p s); split; intro H;
    try reflexivity; try discriminate; try (now intros H'); now elim H.
Qed.

Lemma set_mem_In (p : Page) (s : PageSet) : In p s -> set_mem p s = true.
Proof. intro H. apply set_mem_true. now apply in_map. Qed.

Lemma set_discard_In (p q : Page) (s : PageSet) :
  In q (set_discard p s) <-> In q s /\ getName q <> getName p.
Proof.
  unfold set_discard. rewrite filter_In. unfold Page_eqb.
  rewrite negb_true_iff, String.eqb_neq. intuition congruence.
Qed.

Lemma set_discard_app (p : Page) (a b : PageSet) :
  set_discard p (a ++ b) = set_discard p a ++ set_discard p b.
Proof. apply filter_app. Qed.

Lemma set_discard_absent (p : Page) (s : PageSet) :
  ~ In (getName p) (map getName s) -> set_discard p s = s.
Proof.
  intro H. unfold set_discard. induction s as [|q s IH]; simpl; [reflexivity|].
  simpl in H. unfold Page_eqb at 1.
  destruct (String.eqb_spec (getName p) (getName q)) as [E|E]; simpl.
  - elim H. left. now symmetry.
  - f_equal. apply IH. intro H'. apply H. now right.
Qed.

Lemma set_discard_mem (p u : Page) (s : PageSet) :
  set_mem u (set_discard p s) = false ->
  set_mem u s = false \/ getName u = getName p.
Proof.
  intro H. destruct (String.eqb_spec (getName u) (getName p)) as [E|E];
    [now right|left].
  apply set_mem_false. intro H1. apply set_mem_false in H. apply H.
  apply in_map_iff in H1. destruct H1 as [q [H1 H2]].
  apply in_map_iff. exists q. split; [assumption|].
  apply set_discard_In. split; [assumption|congruence].
Qed.

Lemma set_add_fresh (p : Page) (s : PageSet) :
  ~ In (getName p) (map getName s) -> set_add p s = s ++ [p].
Proof. intro H. unfold set_add. apply set_mem_false in H. now rewrite H. Qed.

Lemma set_add_names (p : Page) (s : PageSet) (n : string) :
  In n (map getName (set_add p s)) <-> In n (map getName s) \/ n = getName p.
Proof.
  unfold set_add. destruct (set_mem p s) eqn:E.
  - apply set_mem_true in E. split; [now left|]. intros [H|H]; congruence.
  - rewrite map_app, in_app_iff. simpl. intuition.
Qed.

Lemma set_add_NoDup (p : Page) (s : PageSet) :
  NoDup (map getName s) -> NoDup (map getName (set_add p s)).
Proof.
  intro H. unfold set_add. destruct (set_mem p s) eqn:E; [assumption|].
  apply set_mem_false in E. rewrite map_app. simpl.
  apply NoDup_app; [assumption|repeat constructor; intros []|].
  intros a Ha [Hb|[]]. congruence.
Qed.

(** Adding pages one by one: the names that end up in the set. *)
Lemma fold_set_add_names (l : list Page) (acc : PageSet) (n : string) :
  In n (map getName (fold_left (fun a p => set_add p a) l acc))
  <-> In n (map getName acc) \/ In n (map getName l).
Proof.
  revert acc. induction l as [|p l IH]; intro acc; simpl.
  - intuition.
  - rewrite IH, set_add_names. intuition.
Qed.

Lemma fold_set_add_NoDup (l : list Page) (acc : PageSet) :
  NoDup (map getName acc) ->
  NoDup (map getName (fold_left (fun a p => set_add p a) l acc)).
Proof.
  revert acc. induction l as [|p l IH]; intros acc H; simpl; [assumption|].
  apply IH. now apply set_add_NoDup.
Qed.

Lemma set_union_all_names (ls : list PageSet) (n : string) :
  In n (map getName (set_union_all ls)) <-> In n (map getName (concat ls)).
Proof.
  unfold set_union_all.
  assert (G : forall acc,
    In n (map getName (fold_left
       (fun acc l => fold_left (fun acc' p => set_add p acc') l acc) ls acc))
    <-> In n (map getName acc) \/ In n (map getName (concat ls))).
  { induction ls as [|l ls IH]; intro acc; simpl.
    - intuition.
    - rewrite IH, fold_set_add_names, map_app, in_app_iff. intuition. }
  rewrite G. simpl. intuition.
Qed.

Lemma set_difference_In (a b : PageSet) (p : Page) :
  In p (set_difference a b) <-> In p a /\ ~ In (getName p) (map getName b).
Proof.
  unfold set_difference. rewrite filter_In, negb_true_iff, set_mem_false.
  reflexivity.
Qed.

Lemma set_difference_NoDup (a b : PageSet) :
  NoDup (map getName a) -> NoDup (map getName (set_difference a b)).
Proof.
  unfold set_difference. induction a as [|p a IH]; simpl; intro H; [constructor|].
  inversion H as [|? ? H1 H2]; subst.
  destruct (negb (set_mem p b)); simpl; [|now apply IH].
  constructor; [|now apply IH].
  intro H3. apply H1. apply in_map_iff in H3. destruct H3 as [q [H3 H4]].
  apply filter_In in H4. apply in_map_iff. exists q. tauto.
Qed.

Lemma set_intersection_In (a b : PageSet) (p : Page) :
  In p (set_intersection a b) ->
  In (getName p) (map getName a) /\ In (getName p) (map getName b).
Proof.
  unfold set_intersection. destruct (length a <? length b);
    rewrite filter_In, set_mem_true; intros [H1 H2]; split;
    try assumption; now apply in_map.
Qed.

Lemma find_eq_absent (mid : Page) (s : PageSet) (acc : option Page) :
  ~ In (getName mid) (map getName s) ->
  fold_left (fun acc e => if Page_eqb e mid then Some e else acc) s acc = acc.
Proof.
  revert acc. induction s as [|e s IH]; intros acc H; simpl; [reflexivity|].
  assert (E : Page_eqb e mid = false).
  { unfold Page_eqb. apply String.eqb_neq. intro E. apply H. now left. }
  rewrite E. apply IH. intro H'. apply H. now right.
Qed.

Lemma find_eq_unique (mid x : Page) (s : PageSet) :
  NoDup (map getName s) -> In x s -> getName x = getName mid ->
  find_eq mid s = Some x.
Proof.
  unfold find_eq. generalize (@None Page) as acc.
  induction s as [|e s IH]; intros acc ND Hin Hn; simpl; [destruct Hin|].
  inversion ND as [|? ? H1 H2]; subst. destruct Hin as [->|Hin].
  - assert (E : Page_eqb x mid = true).
    { unfold Page_eqb. now apply String.eqb_eq. }
    rewrite E. apply find_eq_absent. now rewrite <- Hn.
  - now apply IH.
Qed.

(** ** Basic facts: the steps of [explore] *)

Lemma set_pop_nonempty (s : PageSet) :
  s <> [] -> exists p, In p s /\ set_pop s = Some (p, set_discard p s).
Proof.
  intro H. unfold set_pop.
  assert (L : pick s mod length s < length s).
  { apply Nat.mod_upper_bound. destruct s; [congruence|simpl; lia]. }
  apply nth_error_Some in L.
  destruct (nth_error s (pick s mod length s)) as [p|] eqn:E; [|congruence].
  exists p. split; [eapply nth_error_In; eassumption|reflexivity].
Qed.

Lemma set_pop_empty : set_pop [] = None.
Proof. unfold set_pop. now rewrite nth_error_nil. Qed.

Lemma getChildren_In (t : Tree) (u c : Page) :
  In c (getChildren t u) ->
  getParent c = Some u /\ In (getName c) (nbrs t (getName u)).
Proof.
  unfold getChildren, nbrs.
  replace ((if isStarting t then links else linksHere) (getName u))
    with (if isStarting t then links (getName u) else linksHere (getName u))
    by now destruct (isStarting t).
  generalize (if isStarting t then links (getName u) else linksHere (getName u)).
  intro l.
  assert (G : forall acc, In c (fold_left
      (fun allPages n => set_add (MkPage n (Some u)) allPages) l acc) ->
      In c acc \/ (getParent c = Some u /\ In (getName c) l)).
  { induction l as [|n l IH]; intros acc H; simpl in *; [now left|].
    apply IH in H. destruct H as [H|[H1 H2]]; [|right; tauto].
    unfold set_add in H. destruct (set_mem _ acc); [now left|].
    apply in_app_or in H. destruct H as [H|[<-|[]]]; [now left|].
    right. simpl. tauto. }
  intro H. apply G in H. destruct H as [[]|H]. exact H.
Qed.

Lemma getChildren_names (t : Tree) (u : Page) (n : string) :
  In n (map getName (getChildren t u)) <-> In n (nbrs t (getName u)).
Proof.
  unfold getChildren, nbrs.
  replace ((if isStarting t then links else linksHere) (getName u))
    with (if isStarting t then links (getName u) else linksHere (getName u))
    by now destruct (isStarting t).
  generalize (if isStarting t then links (getName u) else linksHere (getName u)).
  intro l.
  assert (G : forall acc, In n (map getName (fold_left
      (fun allPages n => set_add (MkPage n (Some u)) allPages) l acc)) <->
      In n (map getName acc) \/ In n l).
  { induction l as [|m l IH]; intro acc; simpl; [intuition|].
    rewrite IH, set_add_names. simpl. intuition. }
  rewrite G. simpl. intuition.
Qed.

Lemma getChildren_NoDup (t : Tree) (u : Page) :
  NoDup (map getName (getChildren t u)).
Proof.
  unfold getChildren.
  generalize (if isStarting t then links (getName u) else linksHere (getName u)).
  intro l.
  assert (G : forall acc, NoDup (map getName acc) -> NoDup (map getName (fold_left
      (fun allPages n => set_add (MkPage n (Some u)) allPages) l acc))).
  { induction l as [|m l IH]; intros acc H; simpl; [assumption|].
    apply IH. now apply set_add_NoDup. }
  apply G. constructor.
Qed.

Lemma add_to_last_snoc (c : Page) (init : list PageSet) (l : PageSet) :
  add_to_last c (init ++ [l]) = Some (init ++ [set_add c l]).
Proof.
  unfold add_to_last. rewrite rev_app_distr. simpl. now rewrite rev_involutive.
Qed.

Lemma add_children_snoc (cs : list Page) (init : list PageSet) (l e : PageSet) :
  NoDup (map getName cs) ->
  (forall c, In c cs -> ~ In (getName c) (map getName l)) ->
  (forall c, In c cs -> ~ In (getName c) (map getName e)) ->
  add_children cs (init ++ [l]) e = Some (init ++ [l ++ cs], e ++ cs).
Proof.
  revert l e. induction cs as [|c cs IH]; intros l e ND Hl He; simpl.
  - now rewrite !app_nil_r.
  - rewrite add_to_last_snoc.
    rewrite (set_add_fresh c l), (set_add_fresh c e) by (auto using in_eq).
    inversion ND as [|? ? N1 N2]; subst.
    rewrite IH.
    + now rewrite <- !app_assoc.
    + assumption.
    + intros c' H. rewrite map_app, in_app_iff. simpl.
      intros [H1|[H1|[]]].
      * now apply (Hl c'); [right|].
      * apply N1. rewrite H1. now apply in_map.
    + intros c' H. rewrite map_app, in_app_iff. simpl.
      intros [H1|[H1|[]]].
      * now apply (He c'); [right|].
      * apply N1. rewrite H1. now apply in_map.
Qed.

Lemma NoDup_app_disjoint (A : Type) (a b : list A) (x : A) :
  NoDup (a ++ b) -> In x a -> In x b -> False.
Proof.
  induction a as [|y a IH]; simpl; intros H H1 H2; [destruct H1|].
  inversion H as [|? ? N1 N2]; subst. destruct H1 as [->|H1].
  - apply N1. apply in_or_app. now right.
  - now apply IH.
Qed.

Lemma live_opened (t : Tree) :
  live t -> exists init cur nxt, opened t init cur nxt.
Proof.
  intros [[init [H1 [H2 [H3 H4]]]]|[init [cur [nxt [H1 [H2 [H3 [H4 H5]]]]]]]].
  - exists init, (queue t), []. unfold opened. rewrite app_nil_r.
    repeat split; auto using incl_refl.
  - exists init, cur, nxt. unfold opened. repeat split; auto.
Qed.

(** The levels as [explore] sees them after its conditional append. *)
Lemma opened_levels (t : Tree) init cur nxt :
  opened t init cur nxt ->
  (if (Z.of_nat (queueLevel t) =? Z.of_nat (length (levels t)) - 1)%Z
   then levels t ++ [[]] else levels t) = init ++ [cur; nxt].
Proof.
  intros [H1 [_ [_ [_ [[H2 [H3 _]]|H2]]]]]; rewrite H1, H2, length_app; simpl.
  - subst nxt. destruct (Z.eqb_spec (Z.of_nat (length init))
                           (Z.of_nat (length init + 1) - 1)); [|lia].
    now rewrite <- app_assoc.
  - destruct (Z.eqb_spec (Z.of_nat (length init))
                (Z.of_nat (length init + 2) - 1)); [lia|reflexivity].
Qed.

Lemma opened_concat (t : Tree) init cur nxt :
  opened t init cur nxt ->
  concat (levels t) = concat (init ++ [cur; nxt]).
Proof.
  intros [_ [_ [_ [_ [[H2 [H3 _]]|H2]]]]]; rewrite H2; [|reflexivity].
  subst nxt. rewrite !concat_app. simpl. reflexivity.
Qed.

Lemma opened_nth (t : Tree) init cur nxt k l :
  opened t init cur nxt ->
  nth_error (levels t) k = Some l -> nth_error (init ++ [cur; nxt]) k = Some l.
Proof.
  intros [_ [_ [_ [_ [[H2 [H3 _]]|H2]]]]]; rewrite H2; [|trivial].
  intro H. assert (L : k < length (init ++ [cur])).
  { apply nth_error_Some. congruence. }
  replace (init ++ [cur; nxt]) with ((init ++ [cur]) ++ [nxt])
    by now rewrite <- app_assoc.
  now rewrite nth_error_app1.
Qed.

Lemma in_concat_names (ls : list PageSet) (l : PageSet) (k : nat) (n : string) :
  nth_error ls k = Some l -> In n (map getName l) -> In n (map getName (concat ls)).
Proof.
  intros H1 H2. apply in_map_iff in H2. destruct H2 as [p [H2 H3]].
  apply in_map_iff. exists p. split; [assumption|].
  apply in_concat. exists l. split; [|assumption].
  eapply nth_error_In. eassumption.
Qed.

(** What one [explore] call computes on a live tree. *)
Lemma explore_opened (t : Tree) init cur nxt :
  levels_ok t -> opened t init cur nxt ->
  exists u, In u (queue t) /\
    let unseen := set_difference (getChildren t u)
                                 (set_union_all (init ++ [cur; nxt])) in
    let q1 := set_discard u (queue t) in
    let lv2 := init ++ [cur; nxt ++ unseen] in
    let e2 := q1 ++ nxt ++ unseen in
    explore t =
      if length q1 =? 0 then
        if length (nxt ++ unseen) =? 0 then
          Done ((false, [], false),
                MkTree (root t) (isStarting t) e2 q1 (S (queueLevel t)) lv2)
        else
          Done ((true, unseen, true),
                MkTree (root t) (isStarting t) e2 (nxt ++ unseen)
                       (S (queueLevel t)) lv2)
      else
        Done ((true, unseen, false),
              MkTree (root t) (isStarting t) e2 q1 (queueLevel t) lv2).
Proof.
  intros OK OP.
  pose proof (opened_levels OP) as LV.
  pose proof (opened_concat OP) as CC.
  destruct OP as [H1 [H2 [H3 [H4 H5]]]].
  destruct (set_pop_nonempty H4) as [u [U1 U2]].
  exists u. split; [assumption|]. intros unseen q1 lv2 e2.
  assert (ND : NoDup (map getName (concat (init ++ [cur; nxt])))).
  { rewrite <- CC. apply OK. }
  assert (D1 : forall x, In x cur -> ~ In (getName x) (map getName nxt)).
  { intros x X1 X2. rewrite concat_app, map_app in ND.
    apply NoDup_app_remove_l in ND. simpl in ND.
    rewrite app_nil_r, map_app in ND.
    eapply NoDup_app_disjoint; [exact ND| |exact X2]. now apply in_map. }
  assert (D2 : forall c, In c unseen ->
               ~ In (getName c) (map getName (concat (init ++ [cur; nxt])))).
  { intros c C1. apply set_difference_In in C1. destruct C1 as [_ C1].
    now rewrite set_union_all_names in C1. }
  assert (D3 : forall c l, In c unseen -> In l [cur; nxt] ->
               ~ In (getName c) (map getName l)).
  { intros c l C1 C2 C3. apply (D2 c C1).
    apply in_map_iff in C3. destruct C3 as [x [C3 C4]].
    apply in_map_iff. exists x. split; [assumption|].
    apply in_concat. exists l. split; [|assumption].
    apply in_or_app. now right. }
  unfold explore. rewrite U2.
  unfold set_remove. rewrite H3.
  rewrite (set_mem_In u (queue t ++ nxt)) by (apply in_or_app; now left).
  rewrite LV. fold unseen.
  rewrite set_discard_app, (set_discard_absent u nxt) by (apply D1; auto).
  fold q1.
  replace (init ++ [cur; nxt]) with ((init ++ [cur]) ++ [nxt])
    by now rewrite <- app_assoc.
  rewrite add_children_snoc.
  - replace ((init ++ [cur]) ++ [nxt ++ unseen]) with lv2
      by (unfold lv2; now rewrite <- app_assoc).
    replace ((q1 ++ nxt) ++ unseen) with e2
      by (unfold e2; now rewrite <- app_assoc).
    destruct (length q1 =? 0); [|reflexivity].
    assert (N : nth_error lv2 (S (queueLevel t)) = Some (nxt ++ unseen)).
    { unfold lv2. rewrite H1, nth_error_app2 by lia.
      replace (S (length init) - length init) with 1 by lia. reflexivity. }
    rewrite N. reflexivity.
  - apply set_difference_NoDup, getChildren_NoDup.
  - intros c C. apply (D3 c nxt C). simpl. tauto.
  - intros c C. rewrite map_app, in_app_iff. intros [X|X].
    + apply (D3 c cur C); [simpl; tauto|].
      apply in_map_iff in X. destruct X as [x [X1 X2]].
      apply set_discard_In in X2. destruct X2 as [X2 _].
      rewrite <- X1. apply in_map. now apply H2.
    + apply (D3 c nxt C); [simpl; tauto|assumption].
Qed.

Lemma length_zero_iff (A : Type) (l : list A) : (length l =? 0) = true <-> l = [].
Proof.
  rewrite Nat.eqb_eq. destruct l; simpl; split; intro H; congruence || lia.
Qed.

Lemma explore_live (t : Tree) :
  levels_ok t -> live t ->
  exists t' init cur nxt u unseen,
    explore t = Done (step_result t t' u unseen, t')
    /\ stepped t t' init cur nxt u unseen.
Proof.
  intros OK LV. destruct (live_opened LV) as [init [cur [nxt OP]]].
  destruct (explore_opened OK OP) as [u [U E]]. cbv zeta in E.
  set (unseen := set_difference (getChildren t u)
                   (set_union_all (init ++ [cur; nxt]))) in *.
  set (q1 := set_discard u (queue t)) in *.
  assert (X : exists r t', explore t = Done (r, t')
            /\ r = step_result t t' u unseen
            /\ stepped t t' init cur nxt u unseen).
  { unfold step_result, stepped. fold q1. fold unseen.
    destruct (length q1 =? 0) eqn:Q.
    - apply length_zero_iff in Q.
      destruct (length (nxt ++ unseen) =? 0) eqn:N;
        (eexists; eexists; split; [exact E|]); simpl; rewrite ?Q; simpl;
        rewrite ?N; (split; [reflexivity|]); (split; [exact OP|]);
        repeat split; auto.
      right. apply length_zero_iff in N. rewrite N. auto.
    - (eexists; eexists; split; [exact E|]); simpl.
      (split; [reflexivity|]); (split; [exact OP|]); repeat split; auto.
      left. repeat split; auto. intro H. rewrite H in Q. discriminate. }
  destruct X as [r [t' [X1 [X2 X3]]]]. subst r.
  exists t', init, cur, nxt, u, unseen. auto.
Qed.

Lemma nth_error_grow (init : list PageSet) (cur nxt un l : PageSet) (k : nat) :
  nth_error (init ++ [cur; nxt]) k = Some l ->
  exists l', nth_error (init ++ [cur; nxt ++ un]) k = Some l' /\ incl l l'.
Proof.
  intro H. destruct (Nat.lt_ge_cases k (length init)) as [L|L].
  - rewrite nth_error_app1 in * by assumption. exists l. auto using incl_refl.
  - rewrite nth_error_app2 in * by assumption.
    destruct (k - length init) as [|[|j]]; simpl in *.
    + exists l. auto using incl_refl.
    + exists (nxt ++ un). split; [reflexivity|].
      injection H as <-. now apply incl_appl, incl_refl.
    + destruct j; discriminate.
Qed.

Lemma nth_error_low (init : list PageSet) (cur nxt un : PageSet) (k : nat) :
  k <= length init ->
  nth_error (init ++ [cur; nxt ++ un]) k = nth_error (init ++ [cur; nxt]) k.
Proof.
  intro L. destruct (Nat.lt_ge_cases k (length init)) as [L'|L'].
  - now rewrite !nth_error_app1.
  - rewrite !nth_error_app2 by assumption.
    replace (k - length init) with 0 by lia. reflexivity.
Qed.

Lemma opened_nth_inv (t : Tree) init cur nxt k l :
  opened t init cur nxt -> (k <= length init \/ nxt <> []) ->
  nth_error (init ++ [cur; nxt]) k = Some l -> nth_error (levels t) k = Some l.
Proof.
  intros [_ [_ [_ [_ [[H2 [H3 _]]|H2]]]]] K; rewrite H2; [|trivial].
  destruct K as [K|K]; [|congruence].
  destruct (Nat.lt_ge_cases k (length init)) as [L'|L'].
  - now rewrite !nth_error_app1.
  - rewrite !nth_error_app2 by assumption.
    replace (k - length init) with 0 by lia. trivial.
Qed.

(** Levels only grow: a page stays on its level. *)
Lemma stepped_mono (t t' : Tree) init cur nxt u unseen k l :
  stepped t t' init cur nxt u unseen ->
  nth_error (levels t) k = Some l ->
  exists l', nth_error (levels t') k = Some l' /\ incl l l'.
Proof.
  intros [OP [_ [_ [LV _]]]] H. rewrite LV.
  apply nth_error_grow. eapply opened_nth; eassumption.
Qed.

Lemma concat_names_nth (ls : list PageSet) (n : string) :
  In n (map getName (concat ls)) ->
  exists k l, nth_error ls k = Some l /\ In n (map getName l).
Proof.
  intro H. apply in_map_iff in H. destruct H as [p [H1 H2]].
  apply in_concat in H2. destruct H2 as [l [H2 H3]].
  apply In_nth_error in H2. destruct H2 as [k H2].
  exists k, l. split; [assumption|]. rewrite <- H1. now apply in_map.
Qed.

Lemma on_level_mono (t t' : Tree) (k : nat) (p : Page) :
  root t' = root t -> isStarting t' = isStarting t ->
  (forall j l, nth_error (levels t) j = Some l ->
     exists l', nth_error (levels t') j = Some l' /\ incl l l') ->
  on_level t k p -> on_level t' k p.
Proof.
  intros R SS M. destruct k as [|k]; simpl.
  - congruence.
  - intros [q [l [H1 [H2 [H3 H4]]]]].
    destruct (M _ _ H3) as [l' [M1 M2]].
    exists q, l'. unfold nbrs in *. rewrite SS. auto.
Qed.

Lemma concat_grow (init : list PageSet) (cur nxt un : PageSet) :
  concat (init ++ [cur; nxt ++ un]) = concat (init ++ [cur; nxt]) ++ un.
Proof.
  rewrite !concat_app. simpl. rewrite !app_nil_r. now rewrite !app_assoc.
Qed.

Lemma nth_error_cur (init : list PageSet) (cur nxt : PageSet) :
  nth_error (init ++ [cur; nxt]) (length init) = Some cur.
Proof. rewrite nth_error_app2 by lia. now rewrite Nat.sub_diag. Qed.

Lemma nth_error_nxt (init : list PageSet) (cur nxt : PageSet) :
  nth_error (init ++ [cur; nxt]) (S (length init)) = Some nxt.
Proof.
  rewrite nth_error_app2 by lia.
  replace (S (length init) - length init) with 1 by lia. reflexivity.
Qed.

Lemma nth_error_high (init : list PageSet) (cur nxt l : PageSet) (k : nat) :
  nth_error (init ++ [cur; nxt]) k = Some l -> length init < k ->
  k = S (length init) /\ l = nxt.
Proof.
  intros H L. rewrite nth_error_app2 in H by lia.
  destruct (k - length init) as [|[|[|j]]] eqn:E; simpl in H;
    try discriminate; try lia.
  injection H as <-. split; [lia|reflexivity].
Qed.

Lemma unseen_child (t : Tree) (u c : Page) (seen : PageSet) :
  In c (set_difference (getChildren t u) seen) ->
  getParent c = Some u /\ In (getName c) (nbrs t (getName u))
  /\ ~ In (getName c) (map getName seen).
Proof.
  intro H. apply set_difference_In in H. destruct H as [H1 H2].
  apply getChildren_In in H1. tauto.
Qed.

(** A neighbour of the popped page is on some level after the step. *)
Lemma stepped_child_placed (t t' : Tree) init cur nxt u unseen (c : string) :
  stepped t t' init cur nxt u unseen ->
  In c (nbrs t (getName u)) ->
  exists k' l', k' <= S (queueLevel t) /\ nth_error (levels t') k' = Some l'
                /\ In c (map getName l').
Proof.
  intros [OP [U [UN [LV [EP [R [SS PH]]]]]]] C.
  destruct OP as [Q _]. rewrite LV, Q.
  destruct (in_dec string_dec c
              (map getName (concat (init ++ [cur; nxt])))) as [I|I].
  - apply concat_names_nth in I. destruct I as [k [l [I1 I2]]].
    destruct (nth_error_grow _ _ _ unseen _ I1) as [l' [G1 G2]].
    exists k, l'. split; [|split; [assumption|]].
    + assert (L : k < length (init ++ [cur; nxt])).
      { apply nth_error_Some. congruence. }
      rewrite length_app in L. simpl in L. lia.
    + apply in_map_iff in I2. destruct I2 as [x [X1 X2]].
      apply in_map_iff. exists x. auto.
  - exists (S (length init)), (nxt ++ unseen). split; [lia|].
    split; [apply nth_error_nxt|].
    rewrite map_app. apply in_or_app. right. subst unseen.
    apply getChildren_names in C. apply in_map_iff in C.
    destruct C as [x [X1 X2]]. apply in_map_iff. exists x.
    split; [assumption|]. apply set_difference_In. split; [assumption|].
    rewrite set_union_all_names, X1. assumption.
Qed.

Lemma stepped_explored (t t' : Tree) init cur nxt u unseen k l x :
  stepped t t' init cur nxt u unseen ->
  nth_error (levels t') k = Some l -> In x l -> was_explored t' k x ->
  (k <= queueLevel t /\ was_explored t k x)
  \/ (k = queueLevel t /\ getName x = getName u).
Proof.
  intros [OP [U [UN [LV [EP [R [SS PH]]]]]]] N I W.
  destruct OP as [Q _]. unfold was_explored in *.
  destruct PH as [[P1 [P2 P3]]|[P1 [P2 P3]]]; rewrite P2, P3 in W.
  - destruct W as [W|[W1 W2]]; [left; split; [lia|now left]|].
    apply set_discard_mem in W2. destruct W2; [left|right]; auto.
    split; [lia|]. right. auto.
  - destruct W as [W|[W1 W2]].
    + assert (K : k < queueLevel t \/ k = queueLevel t) by lia.
      destruct K as [K|K]; [left; split; [lia|now left]|].
      destruct (set_mem x (queue t)) eqn:M; [|left; split; [lia|right; auto]].
      right. split; [assumption|].
      apply set_mem_true, in_map_iff in M. destruct M as [y [M1 M2]].
      destruct (String.eqb_spec (getName x) (getName u)) as [e|e]; [assumption|].
      assert (Y : In y (set_discard u (queue t))).
      { apply set_discard_In. split; [assumption|congruence]. }
      rewrite P1 in Y. destruct Y.
    + exfalso. rewrite LV, W1, Q, nth_error_nxt in N. injection N as <-.
      apply set_mem_In in I. congruence.
Qed.

Lemma stepped_levels_ok (t t' : Tree) init cur nxt u unseen :
  levels_ok t -> stepped t t' init cur nxt u unseen -> levels_ok t'.
Proof.
  intros OK ST.
  pose proof (fun k l => @stepped_mono _ _ _ _ _ _ _ k l ST) as MONO.
  pose proof ST as [OP [U [UN [LV [EP [R [SS PH]]]]]]].
  assert (Q : queueLevel t = length init) by apply OP.
  assert (Ucur : In u cur).
  { destruct OP as [_ [I _]]. now apply I. }
  constructor.
  - rewrite LV, R, nth_error_low by lia.
    eapply opened_nth; [eassumption|apply OK].
  - rewrite LV, concat_grow, map_app. apply NoDup_app.
    + rewrite <- (opened_concat OP). apply OK.
    + subst unseen. apply set_difference_NoDup, getChildren_NoDup.
    + intros n N1 N2. subst unseen. apply in_map_iff in N2.
      destruct N2 as [c [C1 C2]]. apply unseen_child in C2.
      destruct C2 as [_ [_ C2]]. apply C2.
      rewrite set_union_all_names. congruence.
  - intros k l p N I. rewrite LV in N.
    destruct (Nat.le_gt_cases k (length init)) as [L|L].
    + rewrite nth_error_low in N by assumption.
      eapply on_level_mono; eauto.
      eapply lo_level; [eassumption| |eassumption].
      eapply opened_nth_inv; eauto.
    + apply nth_error_high in N; [|assumption]. destruct N as [-> ->].
      apply in_app_or in I. destruct I as [I|I].
      * eapply on_level_mono; eauto.
        eapply lo_level; [eassumption| |eassumption].
        eapply opened_nth_inv; [eassumption| |apply nth_error_nxt].
        right. intro E. rewrite E in I. destruct I.
      * subst unseen. apply unseen_child in I. destruct I as [I1 [I2 _]].
        simpl. exists u, cur. unfold nbrs in *. rewrite SS, LV.
        repeat split; auto. rewrite nth_error_low by lia. apply nth_error_cur.
  - intros k l x N I W c C.
    destruct (stepped_explored ST N I W) as [[K W']|[K E]].
    + rewrite LV in N.
      assert (N' : nth_error (levels t) k = Some l).
      { rewrite nth_error_low in N by lia.
        eapply opened_nth_inv; eauto. left. lia. }
      unfold nbrs in C. rewrite SS in C.
      destruct (lo_closed OK N' I W' c C) as [k' [l' [C1 [C2 C3]]]].
      destruct (MONO _ _ C2) as [l'' [M1 M2]].
      exists k', l''. repeat split; auto.
      apply in_map_iff in C3. destruct C3 as [y [Y1 Y2]].
      apply in_map_iff. exists y. auto.
    + unfold nbrs in C. rewrite SS, E in C. subst k.
      eapply stepped_child_placed; eassumption.
Qed.

Lemma stepped_phase (t t' : Tree) init cur nxt u unseen :
  stepped t t' init cur nxt u unseen ->
  (set_discard u (queue t) <> [] /\ midlevel t')
  \/ (set_discard u (queue t) = [] /\ queue t' <> [] /\ boundary t')
  \/ (set_discard u (queue t) = [] /\ queue t' = [] /\ dead t').
Proof.
  intros [OP [U [UN [LV [EP [R [SS PH]]]]]]].
  destruct OP as [Q [I _]].
  destruct PH as [[P1 [P2 P3]]|[P1 [P2 P3]]].
  - left. split; [assumption|]. exists init, cur, (nxt ++ unseen).
    rewrite P2, P3, EP. repeat split; auto.
    intros x X. apply set_discard_In in X. apply I, X.
  - right. rewrite P1 in EP. simpl in EP.
    assert (LV' : levels t' = (init ++ [cur]) ++ [nxt ++ unseen])
      by now rewrite <- app_assoc.
    assert (QL : queueLevel t' = length (init ++ [cur]))
      by (rewrite length_app; simpl; lia).
    destruct (nxt ++ unseen) as [|y ys] eqn:E.
    + right. repeat split; auto. exists (init ++ [cur]). auto.
    + left. repeat split; auto; try congruence.
      exists (init ++ [cur]). rewrite P2. repeat split; auto. congruence.
Qed.

Lemma Tree_init_ok (r : Page) (starting : bool) :
  levels_ok (Tree_init r starting) /\ boundary (Tree_init r starting).
Proof.
  split.
  - constructor; simpl.
    + reflexivity.
    + repeat constructor. intros [].
    + intros [|k] l p N I; simpl in *.
      * injection N as <-. destruct I as [<-|[]]. reflexivity.
      * destruct k; discriminate.
    + intros k l u N I [W|[W1 W2]]; unfold Tree_init in *; simpl queueLevel in *;
        simpl queue in *; simpl levels in *; [lia|]. subst k.
      simpl in N. injection N as <-. apply set_mem_In in I. congruence.
  - exists []. simpl. repeat split; auto. discriminate.
Qed.

(** Every state that successful [explore] calls reach is live. *)
Lemma tree_reachable_ok (r : Page) (starting : bool) (t : Tree) :
  tree_reachable r starting t ->
  levels_ok t /\ live t /\ root t = r /\ isStarting t = starting.
Proof.
  induction 1 as [|t new last t' RT [OK [LV [R SS]]] E].
  - destruct (Tree_init_ok r starting) as [H1 H2].
    split; [exact H1|]. split; [now left|]. split; reflexivity.
  - destruct (explore_live OK LV) as [t2 [init [cur [nxt [u [unseen [E2 ST]]]]]]].
    rewrite E in E2. injection E2 as E3 E4. subst t2.
    split; [eapply stepped_levels_ok; eassumption|].
    pose proof ST as [_ [_ [_ [_ [_ [R' [SS' _]]]]]]].
    split; [|split; congruence].
    destruct (stepped_phase ST) as [[P1 P2]|[[P1 [P2 P3]]|[P1 [P2 P3]]]].
    + now right.
    + now left.
    + exfalso. unfold step_result in E3. rewrite P1, P2 in E3. discriminate.
Qed.

(** The same name on two levels is the same level. *)
Lemma level_unique (ls : list PageSet) (k k' : nat) (l l' : PageSet) (n : string) :
  NoDup (map getName (concat ls)) ->
  nth_error ls k = Some l -> nth_error ls k' = Some l' ->
  In n (map getName l) -> In n (map getName l') -> k = k'.
Proof.
  revert k k'. induction ls as [|x ls IH]; intros k k' ND N N' I I'.
  - destruct k; discriminate.
  - simpl in ND. rewrite map_app in ND.
    destruct k as [|k], k' as [|k']; simpl in N, N'.
    + reflexivity.
    + exfalso. injection N as ->.
      eapply NoDup_app_disjoint; [exact ND|exact I|].
      eapply in_concat_names; eassumption.
    + exfalso. injection N' as ->.
      eapply NoDup_app_disjoint; [exact ND|exact I'|].
      eapply in_concat_names; eassumption.
    + f_equal. apply NoDup_app_remove_l in ND. eapply IH; eassumption.
Qed.

(** A page of level [k] is [k] edges away from the root. *)
Lemma level_walk (t : Tree) :
  levels_ok t -> forall k l p,
  nth_error (levels t) k = Some l -> In p l ->
  walk (nbrs t) k (getName (root t)) (getName p).
Proof.
  intros OK k. induction k as [|k IH]; intros l p N I.
  - pose proof (lo_level OK 0 p N I) as H. simpl in H. now subst p.
  - pose proof (lo_level OK (S k) p N I) as [q [l' [H1 [H2 [H3 H4]]]]].
    simpl. exists (getName q). split; [|assumption]. eapply IH; eassumption.
Qed.

(** Whatever is within [queueLevel] edges of the root has been placed, at
    a level no deeper than its distance. *)
Lemma walk_placed (t : Tree) :
  levels_ok t -> forall j y,
  walk (nbrs t) j (getName (root t)) y -> j <= queueLevel t ->
  exists k l, k <= j /\ nth_error (levels t) k = Some l /\ In y (map getName l).
Proof.
  intros OK j. induction j as [|j IH]; intros y W L.
  - simpl in W. subst y. exists 0, [root t]. split; [lia|].
    split; [apply OK|]. simpl. now left.
  - simpl in W. destruct W as [z [W1 W2]].
    destruct (IH z W1) as [k [l [K1 [K2 K3]]]]; [lia|].
    apply in_map_iff in K3. destruct K3 as [x [X1 X2]]. subst z.
    assert (WE : was_explored t k x) by (left; lia).
    destruct (lo_closed OK K2 X2 WE y W2) as [k' [l' [C1 [C2 C3]]]].
    exists k', l'. repeat split; auto. lia.
Qed.

Lemma phase_depth (t : Tree) :
  live t \/ dead t -> length (levels t) <= queueLevel t + 2.
Proof.
  intros [[[init [H1 [H2 _]]]|[init [cur [nxt [H1 [H2 _]]]]]]|[init [H1 [H2 _]]]];
    rewrite H1, H2, length_app; simpl; lia.
Qed.

(** No page sits deeper than its distance from the root. *)
Lemma level_minimal (t : Tree) :
  levels_ok t -> live t \/ dead t -> forall k l p j,
  nth_error (levels t) k = Some l -> In p l -> j < k ->
  ~ walk (nbrs t) j (getName (root t)) (getName p).
Proof.
  intros OK PH k l p j N I L W.
  assert (K : k < length (levels t)) by (apply nth_error_Some; congruence).
  pose proof (phase_depth PH) as D.
  destruct (@walk_placed t OK j _ W) as [k' [l' [K1 [K2 K3]]]]; [lia|].
  assert (E : k = k').
  { eapply level_unique; try eassumption; [apply OK|]. now apply in_map. }
  lia.
Qed.

(** ** Basic facts: paths *)

Lemma find_eq_acc (mid : Page) (s : PageSet) (acc : option Page) :
  In (getName mid) (map getName s)
  \/ (exists a, acc = Some a /\ getName a = getName mid) ->
  exists x, fold_left (fun acc e => if Page_eqb e mid then Some e else acc) s acc
            = Some x
            /\ getName x = getName mid /\ (In x s \/ acc = Some x).
Proof.
  revert acc. induction s as [|e s IH]; intros acc H; simpl.
  - destruct H as [[]|[a [H1 H2]]]. exists a. auto.
  - destruct (Page_eqb_spec e mid) as [E|E].
    + destruct (IH (Some e)) as [x [X1 [X2 X3]]]; [right; eauto|].
      exists x. repeat split; auto. destruct X3 as [X3|X3]; [auto|].
      injection X3 as ->. auto.
    + destruct (IH acc) as [x [X1 [X2 X3]]].
      * destruct H as [[H|H]|H]; [congruence|now left|now right].
      * exists x. repeat split; auto. destruct X3; auto.
Qed.

Lemma find_eq_some (mid : Page) (s : PageSet) :
  In (getName mid) (map getName s) ->
  exists x, find_eq mid s = Some x /\ In x s /\ getName x = getName mid.
Proof.
  intro H. destruct (@find_eq_acc mid s None) as [x [X1 [X2 X3]]]; [now left|].
  exists x. repeat split; auto. destruct X3 as [X3|X3]; [assumption|discriminate].
Qed.

Lemma find_eq_In (mid x : Page) (s : PageSet) :
  find_eq mid s = Some x -> In x s /\ getName x = getName mid.
Proof.
  unfold find_eq.
  assert (G : forall acc, fold_left
      (fun acc e => if Page_eqb e mid then Some e else acc) s acc = Some x ->
      (In x s /\ getName x = getName mid) \/ acc = Some x).
  { induction s as [|e s IH]; intros acc H; simpl in *; [now right|].
    apply IH in H. destruct H as [[H1 H2]|H]; [left; auto|].
    destruct (Page_eqb_spec e mid) as [E|E]; [|now right].
    injection H as <-. left. auto. }
  intro H. apply G in H. destruct H as [H|H]; [assumption|discriminate].
Qed.

(** A page of level [k] of a tree whose root has no parent has [k] ancestors. *)
Lemma level_depth (t : Tree) :
  levels_ok t -> getParent (root t) = None -> forall k l p,
  nth_error (levels t) k = Some l -> In p l -> length (ancestors p) = k.
Proof.
  intros OK RP k. induction k as [|k IH]; intros l p N I.
  - pose proof (lo_level OK 0 p N I) as H. simpl in H. subst p.
    destruct (root t) as [n [q|]]; [discriminate|reflexivity].
  - pose proof (lo_level OK (S k) p N I) as [q [l' [H1 [H2 [H3 H4]]]]].
    destruct p as [n [q'|]]; simpl in H1; [|discriminate].
    injection H1 as ->. simpl. f_equal. eapply IH; eassumption.
Qed.

Lemma last_cons (A : Type) (a : list A) (x d : A) : last (x :: a) d = last a x.
Proof.
  revert x d. induction a as [|y a IH]; intros x d; [reflexivity|].
  change (last (x :: y :: a) d) with (last (y :: a) d).
  rewrite IH. symmetry. apply IH.
Qed.

(** The chain of a page of a tree whose root has no parent ends at the root. *)
Lemma level_chain_root (t : Tree) :
  levels_ok t -> getParent (root t) = None -> forall k l p,
  nth_error (levels t) k = Some l -> In p l ->
  last (ancestors p) p = root t.
Proof.
  intros OK RP k. induction k as [|k IH]; intros l p N I.
  - pose proof (lo_level OK 0 p N I) as H. simpl in H. subst p.
    destruct (root t) as [n [q|]]; [discriminate|reflexivity].
  - pose proof (lo_level OK (S k) p N I) as [q [l' [H1 [H2 [H3 H4]]]]].
    destruct p as [n [q'|]]; simpl in H1; [|discriminate].
    injection H1 as ->.
    change (ancestors (MkPage n (Some q))) with (q :: ancestors q).
    rewrite last_cons. eapply IH; eassumption.
Qed.

(** The ancestors of a page of level [k] sit on the levels below [k]. *)
Lemma ancestors_below (t : Tree) :
  levels_ok t -> getParent (root t) = None -> forall k l p,
  nth_error (levels t) k = Some l -> In p l ->
  forall x, In x (ancestors p) ->
  exists k' l', k' < k /\ nth_error (levels t) k' = Some l' /\ In x l'.
Proof.
  intros OK RP k. induction k as [|k IH]; intros l p N I x X.
  - pose proof (lo_level OK 0 p N I) as H. simpl in H. subst p.
    destruct (root t) as [n [q|]]; [discriminate|destruct X].
  - pose proof (lo_level OK (S k) p N I) as [q [l' [H1 [H2 [H3 H4]]]]].
    destruct p as [n [q'|]]; simpl in H1; [|discriminate].
    injection H1 as ->. simpl in X. destruct X as [<-|X].
    + exists k, l'. auto.
    + destruct (IH _ _ H3 H4 x X) as [k' [l'' [K1 [K2 K3]]]].
      exists k', l''. auto.
Qed.

(** The chain of a page visits no name twice. *)
Lemma chain_NoDup (t : Tree) :
  levels_ok t -> getParent (root t) = None -> forall k l p,
  nth_error (levels t) k = Some l -> In p l ->
  NoDup (map getName (p :: ancestors p)).
Proof.
  intros OK RP k. induction k as [|k IH]; intros l p N I.
  - pose proof (lo_level OK 0 p N I) as H. simpl in H. subst p.
    destruct (root t) as [n [q|]]; [discriminate|]. simpl.
    repeat constructor. intros [].
  - simpl. constructor.
    + intro X. apply in_map_iff in X. destruct X as [x [X1 X2]].
      destruct (ancestors_below OK RP _ _ N I x X2) as [k' [l' [K1 [K2 K3]]]].
      assert (E : k' = S k); [|lia].
      eapply (@level_unique (levels t) k' (S k) l' l (getName p));
        try eassumption; [apply OK| |].
      * rewrite <- X1. now apply in_map.
      * now apply in_map.
    + pose proof (lo_level OK (S k) p N I) as [q [l' [H1 [H2 [H3 H4]]]]].
      destruct p as [n [q'|]]; simpl in H1; [|discriminate].
      injection H1 as ->. eapply IH; eassumption.
Qed.

(** ** Basic facts: growth *)

Lemma tree_grows_refl (t : Tree) : tree_grows t t.
Proof.
  repeat split; auto. intros k l H. exists l. auto using incl_refl.
Qed.

Lemma tree_grows_trans (a b c : Tree) :
  tree_grows a b -> tree_grows b c -> tree_grows a c.
Proof.
  intros [A1 [A2 [A3 A4]]] [B1 [B2 [B3 B4]]].
  repeat split; try congruence; try lia.
  intros k l H. destruct (A4 _ _ H) as [l' [H1 H2]].
  destruct (B4 _ _ H1) as [l'' [H3 H4]]. exists l''.
  split; [assumption|]. eapply incl_tran; eassumption.
Qed.

Lemma stepped_grows (t t' : Tree) init cur nxt u unseen :
  stepped t t' init cur nxt u unseen -> tree_grows t t'.
Proof.
  intro ST. pose proof ST as [_ [_ [_ [_ [_ [R [SS PH]]]]]]].
  repeat split; auto.
  - destruct PH as [[_ [_ P]]|[_ [_ P]]]; lia.
  - intros k l. apply (stepped_mono k ST).
Qed.

Lemma joins_grows (s e s' e' : Tree) (i j : nat) (p : list Page) :
  tree_grows s s' -> tree_grows e e' -> joins s e i j p -> joins s' e' i j p.
Proof.
  intros [_ [_ [_ GS]]] [_ [_ [_ GE]]]
         [mid [sm [em [ls [le [H1 [H2 [H3 [H4 [H5 [H6 H7]]]]]]]]]]].
  destruct (GS _ _ H1) as [ls' [S1 S2]].
  destruct (GE _ _ H3) as [le' [E1 E2]].
  exists mid, sm, em, ls', le'. repeat split; auto.
Qed.

Lemma joins_length (s e : Tree) (i j : nat) (p : list Page) :
  levels_ok s -> getParent (root s) = None ->
  levels_ok e -> getParent (root e) = None ->
  joins s e i j p -> length p = i + j + 1.
Proof.
  intros OS RS OE RE [mid [sm [em [ls [le [H1 [H2 [H3 [H4 [H5 [H6 H7]]]]]]]]]]].
  subst p. rewrite length_app, length_rev. simpl.
  rewrite (level_depth OS RS _ _ H1 H2), (level_depth OE RE _ _ H3 H4). lia.
Qed.

Lemma meets_joins (s e : Tree) (i j : nat) (mids : list Page) :
  (forall mid, In mid mids -> meets s e i j mid) ->
  forall p, In p (found_paths s e mids) -> joins s e i j p.
Proof.
  intros M p P. unfold found_paths in P. apply in_map_iff in P.
  destruct P as [mid [P1 P2]].
  destruct (M mid P2) as [sm [em [ls [le [H1 [H2 [H3 [H4 [H5 [H6 [H7 H8]]]]]]]]]]].
  rewrite H1, H2 in P1. exists mid, sm, em, ls, le. repeat split; auto.
Qed.

(** The loop over the meeting pages: the paths it appends, and how far it
    moves [searchIndex]. *)
Lemma record_mids_spec (target : Z) (mids : list Page) :
  forall g i j,
  (forall mid, In mid mids -> meets (startTree g) (endTree g) i j mid) ->
  record_mids target g mids =
  Done {| startTree := startTree g; endTree := endTree g;
          searchIndex := Z.max (searchIndex g)
                           (Z.min target (searchIndex g + Z.of_nat (length mids)));
          paths := paths g ++ found_paths (startTree g) (endTree g) mids |}.
Proof.
  induction mids as [|mid mids IH]; intros g i j M.
  - simpl. rewrite app_nil_r.
    replace (Z.max (searchIndex g) (Z.min target (searchIndex g + 0)))
      with (searchIndex g) by lia.
    now destruct g.
  - destruct (M mid (in_eq _ _))
      as [sm [em [ls [le [H1 [H2 [H3 [H4 [H5 [H6 [H7 H8]]]]]]]]]]].
    change (record_mids target g (mid :: mids))
      with (g' <- record_mid target g mid ;; record_mids target g' mids).
    unfold record_mid, getPath. simpl startTree. simpl endTree.
    rewrite H1, H2. simpl bind.
    rewrite (IH _ i j); simpl startTree; simpl endTree;
      [|intros m Hm; apply M; now right].
    simpl searchIndex. simpl paths. f_equal. f_equal.
    + change (length (mid :: mids)) with (S (length mids)).
      destruct (Z.ltb_spec (searchIndex g) target); lia.
    + rewrite <- app_assoc. simpl. rewrite H1, H2. reflexivity.
Qed.

Lemma setTree_same (sd : Side) (t : Tree) (g : Game) :
  treeOf sd (setTree sd t g) = t.
Proof. now destruct sd. Qed.

Lemma setTree_other (sd : Side) (t : Tree) (g : Game) :
  treeOf (otherSide sd) (setTree sd t g) = treeOf (otherSide sd) g.
Proof. now destruct sd. Qed.

Lemma setTree_index (sd : Side) (t : Tree) (g : Game) :
  searchIndex (setTree sd t g) = searchIndex g.
Proof. now destruct sd. Qed.

Lemma setTree_paths (sd : Side) (t : Tree) (g : Game) :
  paths (setTree sd t g) = paths g.
Proof. now destruct sd. Qed.

Lemma StronglySorted_app (A : Type) (R : A -> A -> Prop) (a b : list A) :
  StronglySorted R a -> StronglySorted R b ->
  (forall x y, In x a -> In y b -> R x y) ->
  StronglySorted R (a ++ b).
Proof.
  intros SA SB H. induction a as [|x a IH]; simpl; [assumption|].
  apply StronglySorted_inv in SA. destruct SA as [SA FA].
  constructor.
  - apply IH; [assumption|]. intros; apply H; simpl; auto.
  - apply Forall_app. split; [assumption|].
    apply Forall_forall. intros y Y. apply H; simpl; auto.
Qed.

Lemma same_length_sorted (ps : list (list Page)) (n : nat) :
  (forall p, In p ps -> length p = n) -> StronglySorted by_length ps.
Proof.
  induction ps as [|p ps IH]; intro H; constructor.
  - apply IH. intros; apply H; simpl; auto.
  - apply Forall_forall. intros q Q. unfold by_length.
    rewrite (H p), (H q); simpl; auto.
Qed.

Lemma skipn_In (A : Type) (l : list A) (n : nat) (x : A) :
  In x (skipn n l) -> In x l.
Proof.
  intro H. rewrite <- (firstn_skipn n l). apply in_or_app. now right.
Qed.

Lemma firstn_In (A : Type) (l : list A) (n : nat) (x : A) :
  In x (firstn n l) -> In x l.
Proof.
  intro H. rewrite <- (firstn_skipn n l). apply in_or_app. now left.
Qed.

Lemma skipn_app_In (A : Type) (a b : list A) (n : nat) (x : A) :
  length a <= n -> In x (skipn n (a ++ b)) -> In x b.
Proof.
  intros L H. rewrite skipn_app in H.
  rewrite (skipn_all2 a L) in H. simpl in H.
  eapply skipn_In; eassumption.
Qed.

(** ** One step of the inner loop *)

Lemma explored_meets (t t' : Tree) init cur nxt u unseen (mid : Page) :
  levels_ok t' -> stepped t t' init cur nxt u unseen ->
  In (getName mid) (map getName unseen) ->
  exists x l, find_eq mid (endpoints t') = Some x
              /\ nth_error (levels t') (S (queueLevel t)) = Some l
              /\ In x l /\ getName x = getName mid.
Proof.
  intros OK [OP [U [UN [LV [EP [R [SS PH]]]]]]] M.
  destruct OP as [Q [I _]].
  destruct (@find_eq_some mid (endpoints t')) as [x [X1 [X2 X3]]].
  { rewrite EP, !map_app, !in_app_iff. auto. }
  exists x, (nxt ++ unseen). split; [assumption|].
  assert (N : nth_error (levels t') (S (queueLevel t)) = Some (nxt ++ unseen))
    by (rewrite LV, Q; apply nth_error_nxt).
  split; [assumption|]. split; [|assumption].
  rewrite EP in X2. apply in_app_or in X2. destruct X2 as [X2|X2]; [|assumption].
  exfalso. apply set_discard_In in X2. destruct X2 as [X2 _]. apply I in X2.
  assert (E : length init = S (queueLevel t)); [|lia].
  eapply (@level_unique (levels t') _ _ cur (nxt ++ unseen) (getName mid));
    try eassumption; [apply OK| | |].
  - rewrite LV, nth_error_low by lia. apply nth_error_cur.
  - rewrite <- X3. now apply in_map.
  - rewrite map_app, in_app_iff. auto.
Qed.

Lemma boundary_meets (t : Tree) (mid : Page) :
  boundary t -> In (getName mid) (map getName (endpoints t)) ->
  exists x l, find_eq mid (endpoints t) = Some x
              /\ nth_error (levels t) (queueLevel t) = Some l
              /\ In x l /\ getName x = getName mid.
Proof.
  intros [init [H1 [H2 [H3 H4]]]] M.
  destruct (find_eq_some mid _ M) as [x [X1 [X2 X3]]].
  exists x, (queue t). repeat split; auto; [|congruence].
  rewrite H1, H2, nth_error_app2 by lia. now rewrite Nat.sub_diag.
Qed.

Lemma path_len_setTree (sd : Side) (t' : Tree) (g : Game) :
  queueLevel (treeOf sd g) <= queueLevel t' ->
  path_len_now g <= path_len_now (setTree sd t' g).
Proof. unfold path_len_now. destruct sd; simpl; lia. Qed.

Lemma game_core_setTree (sd : Side) (g : Game) (t' : Tree) init cur nxt u unseen :
  game_core g -> stepped (treeOf sd g) t' init cur nxt u unseen ->
  game_core (setTree sd t' g).
Proof.
  intros GC ST.
  pose proof (stepped_grows ST) as GR.
  pose proof GR as [R [SS [QL _]]].
  pose proof (@path_len_setTree sd t' g QL) as PL.
  assert (OK' : levels_ok t').
  { eapply stepped_levels_ok; [|eassumption]. destruct sd; apply GC. }
  destruct sd; simpl in *; constructor; simpl; try apply GC; auto;
    try (rewrite SS; apply GC); try (rewrite R; apply GC).
  - intros p P. destruct (gc_paths GC p P) as [i [j [J1 J2]]].
    exists i, j. split; [|unfold path_len_now in *; simpl in *; lia].
    eapply joins_grows; [exact GR|apply tree_grows_refl|exact J1].
  - intros p P. destruct (gc_paths GC p P) as [i [j [J1 J2]]].
    exists i, j. split; [|unfold path_len_now in *; simpl in *; lia].
    eapply joins_grows; [apply tree_grows_refl|exact GR|exact J1].
Qed.

Lemma game_grows_setTree (sd : Side) (g : Game) (t' : Tree) :
  tree_grows (treeOf sd g) t' -> game_grows g (setTree sd t' g).
Proof.
  intro GR. unfold game_grows.
  destruct sd; simpl in *; repeat split; try apply GR;
    try apply tree_grows_refl; try lia; auto;
    exists []; rewrite app_nil_r; split; auto; intros q [].
Qed.

(** The pages met after a step sit one level below the queue level of the
    explored tree and on the queue level of the other. *)
Lemma step_meets (sd : Side) (g : Game) (t' : Tree) init cur nxt u unseen :
  game_core g -> boundary (treeOf (otherSide sd) g) ->
  stepped (treeOf sd g) t' init cur nxt u unseen ->
  exists i j, i + j + 1 = path_len_now g
    /\ forall mid,
       In mid (set_intersection (endpoints (treeOf (otherSide sd) g)) unseen) ->
       meets (startTree (setTree sd t' g)) (endTree (setTree sd t' g)) i j mid.
Proof.
  intros GC B ST.
  assert (OK' : levels_ok t').
  { eapply stepped_levels_ok; [|eassumption]. destruct sd; apply GC. }
  destruct sd; simpl in *.
  - exists (S (queueLevel (startTree g))), (queueLevel (endTree g)).
    split; [unfold path_len_now; lia|]. intros mid M.
    apply set_intersection_In in M. destruct M as [M1 M2].
    destruct (explored_meets mid OK' ST M2) as [x [l [X1 [X2 [X3 X4]]]]].
    destruct (boundary_meets mid B M1) as [y [l' [Y1 [Y2 [Y3 Y4]]]]].
    exists x, y, l, l'. repeat split; auto.
  - exists (queueLevel (startTree g)), (S (queueLevel (endTree g))).
    split; [unfold path_len_now; lia|]. intros mid M.
    apply set_intersection_In in M. destruct M as [M1 M2].
    destruct (explored_meets mid OK' ST M2) as [x [l [X1 [X2 [X3 X4]]]]].
    destruct (boundary_meets mid B M1) as [y [l' [Y1 [Y2 [Y3 Y4]]]]].
    exists y, x, l', l. repeat split; auto.
Qed.

(** The game after the paths [found], all of [len] pages, have been
    appended to a game without backlog. *)
Lemma game_core_found (g : Game) (found : list (list Page)) (i j : nat) (si : Z) :
  game_core g ->
  searchIndex g = Z.of_nat (length (paths g)) ->
  (forall p, In p (paths g) -> length p <= i + j + 1) ->
  1 <= i + j -> i + j + 1 <= path_len_now g ->
  (forall p, In p found -> joins (startTree g) (endTree g) i j p) ->
  (searchIndex g <= si <= searchIndex g + Z.of_nat (length found))%Z ->
  game_core {| startTree := startTree g; endTree := endTree g;
               searchIndex := si; paths := paths g ++ found |}.
Proof.
  intros GC SI OLD LO LE J B.
  assert (LEN : forall p, In p found -> length p = i + j + 1).
  { intros p P.
    apply (@joins_length (startTree g) (endTree g) i j p); try apply GC.
    now apply J. }
  constructor; simpl; try apply GC.
  - rewrite length_app. pose proof (gc_index GC). lia.
  - intros p P. apply in_app_or in P. destruct P as [P|P].
    + exact (gc_paths GC p P).
    + exists i, j. split; [now apply J|split; [exact LO|exact LE]].
  - apply StronglySorted_app.
    + apply GC.
    + now apply same_length_sorted with (n := i + j + 1).
    + intros x y X Y. unfold by_length. rewrite (LEN y Y). now apply OLD.
  - unfold overflow. simpl. intros p q P Q.
    apply skipn_app_In in P; [|lia]. apply skipn_app_In in Q; [|lia].
    now rewrite (LEN p), (LEN q).
Qed.

Lemma game_grows_refl (g : Game) : game_grows g g.
Proof.
  repeat split; try apply tree_grows_refl; try lia.
  exists []. rewrite app_nil_r. split; auto. intros q [].
Qed.

Lemma game_grows_len (g g' : Game) :
  game_grows g g' -> path_len_now g <= path_len_now g'.
Proof.
  intros [[_ [_ [A _]]] [[_ [_ [B _]]] _]]. unfold path_len_now. lia.
Qed.

Lemma game_grows_trans (a b c : Game) :
  game_grows a b -> game_grows b c -> game_grows a c.
Proof.
  intros AB BC. pose proof (game_grows_len AB) as L.
  destruct AB as [A1 [A2 [A3 [f1 [A4 A5]]]]].
  destruct BC as [B1 [B2 [B3 [f2 [B4 B5]]]]].
  split; [eapply tree_grows_trans; eassumption|].
  split; [eapply tree_grows_trans; eassumption|].
  split; [lia|]. exists (f1 ++ f2). split.
  - now rewrite B4, A4, app_assoc.
  - intros q Q. apply in_app_or in Q. destruct Q as [Q|Q]; [auto|].
    specialize (B5 q Q). lia.
Qed.

(** One pass of the inner loop on a live tree of a game without backlog,
    the other tree being at a boundary: [explore] raises nothing, and for
    every target the loop over the meeting pages raises nothing and leaves
    the game [after_step]. *)
Lemma drain_step (sd : Side) (g : Game) :
  game_core g -> live (treeOf sd g) -> boundary (treeOf (otherSide sd) g) ->
  searchIndex g = Z.of_nat (length (paths g)) ->
  exists t' init cur nxt u unseen,
    explore (treeOf sd g) = Done (step_result (treeOf sd g) t' u unseen, t')
    /\ stepped (treeOf sd g) t' init cur nxt u unseen
    /\ game_core (setTree sd t' g)
    /\ game_grows g (setTree sd t' g)
    /\ forall target,
       record_mids target (setTree sd t' g)
         (set_intersection (endpoints (treeOf (otherSide sd) (setTree sd t' g)))
                           unseen)
       = Done (after_step sd target g t' unseen)
       /\ game_core (after_step sd target g t' unseen)
       /\ game_grows g (after_step sd target g t' unseen)
       /\ no_backlog target (after_step sd target g t' unseen).
Proof.
  intros GC LV B SI.
  assert (OK : levels_ok (treeOf sd g)) by (destruct sd; apply GC).
  destruct (explore_live OK LV) as [t' [init [cur [nxt [u [unseen [E ST]]]]]]].
  exists t', init, cur, nxt, u, unseen.
  pose proof (game_core_setTree sd GC ST) as GC1.
  pose proof (game_grows_setTree sd g (stepped_grows ST)) as GG1.
  refine (conj E (conj ST (conj GC1 (conj GG1 _)))). intro target.
  destruct (step_meets sd GC B ST) as [i [j [IJ M]]].
  rewrite <- (setTree_other sd t' g) in M.
  pose proof (record_mids_spec target _ (setTree sd t' g) M) as RM.
  rewrite setTree_index, setTree_paths in RM.
  set (mids := set_intersection
                 (endpoints (treeOf (otherSide sd) (setTree sd t' g))) unseen) in *.
  assert (FL : length (found_paths (startTree (setTree sd t' g))
                          (endTree (setTree sd t' g)) mids) = length mids)
    by (unfold found_paths; apply length_map).
  assert (GC2 : game_core (after_step sd target g t' unseen)).
  { unfold after_step. fold mids.
    rewrite <- (setTree_paths sd t' g).
    apply game_core_found with (i := i) (j := j); auto.
    - now rewrite setTree_index, setTree_paths.
    - rewrite setTree_paths. intros p P.
      destruct (gc_paths GC p P) as [i' [j' [J1 J2]]].
      rewrite (@joins_length (startTree g) (endTree g) i' j' p);
        try apply GC; auto. lia.
    - unfold path_len_now in IJ. lia.
    - pose proof (game_grows_len GG1). lia.
    - now apply meets_joins.
    - rewrite setTree_index, FL. lia. }
  assert (GG2 : game_grows g (after_step sd target g t' unseen)).
  { unfold after_step. fold mids.
    destruct GG1 as [G1 [G2 _]]. split; [exact G1|]. split; [exact G2|].
    simpl. split; [lia|]. eexists. split; [reflexivity|].
    intros q Q.
    rewrite (@joins_length (startTree (setTree sd t' g))
               (endTree (setTree sd t' g)) i j q); try apply GC1; [lia|].
    eapply meets_joins; eassumption. }
  refine (conj RM (conj GC2 (conj GG2 _))).
  unfold no_backlog, after_step. fold mids. simpl.
  rewrite length_app, FL. lia.
Qed.

(** ** The loops of [search] *)

Lemma drain_unfold (fuel : nat) (sd : Side) (target : Z) (queueEmpty : bool)
      (g : Game) (tr : list Side) :
  drain fuel sd target queueEmpty g tr =
  if negb queueEmpty && (searchIndex g <? target)%Z then
    match fuel with
    | O => OutOfFuel
    | S fuel' =>
        r <- explore (treeOf sd g) ;;
        let '((ok, newPages, lastInQueue), t') := r in
        let g1 := setTree sd t' g in
        let tr1 := tr ++ [sd] in
        if negb ok then Done (TreeExhausted, g1, tr1)
        else
          g2 <- record_mids target g1
                  (set_intersection (endpoints (treeOf (otherSide sd) g1)) newPages) ;;
          drain fuel' sd target lastInQueue g2 tr1
    end
  else Done (LoopEnded, g, tr).
Proof. destruct fuel; reflexivity. Qed.

Lemma outer_unfold (fuel : nat) (target : Z) (g : Game) (tr : list Side) :
  outer fuel target g tr =
  if (searchIndex g <? target)%Z then
    match fuel with
    | O => OutOfFuel
    | S fuel' =>
        bind (drain fuel' (next_side g) target false g tr)
             (fun r : DrainExit * Game * list Side =>
                let '(x, g', tr') := r in
                match x with
                | TreeExhausted => Done (exhausted (next_side g), g', tr')
                | LoopEnded => outer fuel' target g' tr'
                end)
    end
  else Done (Completed, g, tr).
Proof. destruct fuel; reflexivity. Qed.

Lemma after_step_tree (sd : Side) (target : Z) (g : Game) (t' : Tree) new :
  treeOf sd (after_step sd target g t' new) = t'
  /\ treeOf (otherSide sd) (after_step sd target g t' new)
     = treeOf (otherSide sd) g.
Proof. destruct sd; split; reflexivity. Qed.

Lemma both_live_of (sd : Side) (g : Game) :
  live (treeOf sd g) -> boundary (treeOf (otherSide sd) g) -> both_live g.
Proof.
  intros L B. unfold both_live.
  destruct sd; simpl in *; repeat split; auto; now left.
Qed.

Lemma one_dead_of (sd : Side) (g : Game) :
  dead (treeOf sd g) -> boundary (treeOf (otherSide sd) g) ->
  searchIndex g = Z.of_nat (length (paths g)) -> one_dead g.
Proof.
  intros D B SI. unfold one_dead. destruct sd; simpl in *; auto.
Qed.

(** The three shapes of the triple [explore] returns. *)
Lemma step_result_cases (t t' : Tree) init cur nxt u unseen :
  stepped t t' init cur nxt u unseen ->
  (step_result t t' u unseen = (true, unseen, false) /\ midlevel t')
  \/ (step_result t t' u unseen = (true, unseen, true) /\ boundary t')
  \/ (step_result t t' u unseen = (false, [], false) /\ dead t').
Proof.
  intro ST. unfold step_result.
  destruct (stepped_phase ST) as [[P1 P2]|[[P1 [P2 P3]]|[P1 [P2 P3]]]].
  - left. split; [|assumption].
    destruct (length (set_discard u (queue t)) =? 0) eqn:E; [|reflexivity].
    apply length_zero_iff in E. contradiction.
  - right. left. split; [|assumption]. rewrite P1. simpl.
    destruct (length (queue t') =? 0) eqn:E; [|reflexivity].
    apply length_zero_iff in E. contradiction.
  - right. right. split; [|assumption]. rewrite P1, P2. reflexivity.
Qed.

Lemma drain_safe (fuel : nat) :
  forall (sd : Side) (target : Z) (queueEmpty : bool) (g : Game) (tr : list Side),
  game_core g -> boundary (treeOf (otherSide sd) g) ->
  (if queueEmpty then boundary (treeOf sd g) else live (treeOf sd g)) ->
  no_backlog target g ->
  safely (drain fuel sd target queueEmpty g tr)
         (drain_post sd target queueEmpty g tr).
Proof.
  assert (STOP : forall (sd : Side) (target : Z) (qe : bool) (g : Game)
                          (tr : list Side),
    game_core g -> boundary (treeOf (otherSide sd) g) ->
    (if qe then boundary (treeOf sd g) else live (treeOf sd g)) ->
    no_backlog target g ->
    negb qe && (searchIndex g <? target)%Z = false ->
    drain_post sd target qe g tr (LoopEnded, g, tr)).
  { intros sd target qe g tr GC B PH NB C.
    split; [assumption|]. split; [apply game_grows_refl|].
    split; [assumption|]. split; [lia|]. split.
    - exists 0. simpl. rewrite app_nil_r. split; [reflexivity|].
      intros -> L. simpl in C. apply Z.ltb_ge in C. lia.
    - apply (both_live_of sd); [|assumption].
      destruct qe; [now left|assumption]. }
  induction fuel as [|fuel IH]; intros sd target qe g tr GC B PH NB;
    rewrite drain_unfold.
  - destruct (negb qe && (searchIndex g <? target)%Z) eqn:C; simpl; [trivial|].
    now apply STOP.
  - destruct (negb qe && (searchIndex g <? target)%Z) eqn:C; simpl;
      [|now apply STOP].
    apply andb_true_iff in C. destruct C as [C1 C2].
    apply negb_true_iff in C1. subst qe. apply Z.ltb_lt in C2.
    destruct (drain_step sd GC PH B (NB C2))
      as [t' [init [cur [nxt [u [unseen [E [ST [GC1 [GG1 AT]]]]]]]]]].
    destruct (AT target) as [RM [GC2 [GG2 NB2]]].
    rewrite E. simpl bind.
    destruct (after_step_tree sd target g t' unseen) as [T1 T2].
    assert (SI2 : (searchIndex (after_step sd target g t' unseen)
                   <= Z.max (searchIndex g) target)%Z).
    { unfold after_step. simpl. lia. }
    assert (NEXT : forall last : bool,
      (if last then boundary t' else live t') ->
      safely (drain fuel sd target last
                (after_step sd target g t' unseen) (tr ++ [sd]))
             (drain_post sd target false g tr)).
    { intros last P.
      assert (S2 : safely (drain fuel sd target last
                             (after_step sd target g t' unseen) (tr ++ [sd]))
                     (drain_post sd target last
                             (after_step sd target g t' unseen) (tr ++ [sd]))).
      { apply IH; auto; [now rewrite T2|now rewrite T1]. }
      destruct (drain fuel sd target last _ (tr ++ [sd]))
        as [[[x g'] tr']| |]; simpl in *; auto.
      destruct S2 as [A1 [A2 [A3 [A7 [[n [A4 A5]] A6]]]]].
      split; [assumption|]. split; [eapply game_grows_trans; eassumption|].
      split; [assumption|]. split; [lia|]. split; [|assumption].
      exists (S n). rewrite A4, <- app_assoc. simpl. split; [reflexivity|lia]. }
    destruct (step_result_cases ST) as [[R P]|[[R P]|[R P]]]; rewrite R; simpl.
    + rewrite RM. simpl bind. apply NEXT. now right.
    + rewrite RM. simpl bind. apply NEXT. assumption.
    + split; [assumption|]. split; [assumption|].
      split; [unfold no_backlog; rewrite setTree_index, setTree_paths; apply NB|].
      rewrite setTree_index. split; [lia|].
      split; [exists 1; split; [reflexivity|lia]|].
      split; [|assumption].
      apply (one_dead_of sd).
      * now rewrite setTree_same.
      * now rewrite setTree_other.
      * rewrite setTree_index, setTree_paths. now apply NB.
Qed.

Lemma live_shape (t : Tree) :
  live t ->
  (boundary t /\ S (queueLevel t) = length (levels t))
  \/ (midlevel t /\ S (S (queueLevel t)) = length (levels t)).
Proof.
  intros [B|M].
  - left. split; [assumption|]. destruct B as [init [H1 [H2 _]]].
    rewrite H1, H2, length_app. simpl. lia.
  - right. split; [assumption|]. destruct M as [init [cur [nxt [H1 [H2 _]]]]].
    rewrite H1, H2, length_app. simpl. lia.
Qed.

Lemma boundary_shape (t : Tree) :
  boundary t -> S (queueLevel t) = length (levels t).
Proof.
  intros [init [H1 [H2 _]]]. rewrite H1, H2, length_app. simpl. lia.
Qed.

Lemma midlevel_shape (t : Tree) :
  midlevel t -> S (S (queueLevel t)) = length (levels t).
Proof.
  intros [init [cur [nxt [H1 [H2 _]]]]]. rewrite H1, H2, length_app. simpl. lia.
Qed.

(** The test of line 283 selects a live tree, and leaves the other at a
    boundary. *)
Lemma next_side_ok (g : Game) :
  both_live g ->
  live (treeOf (next_side g) g)
  /\ boundary (treeOf (otherSide (next_side g)) g).
Proof.
  intros [LS [LE BD]]. unfold next_side, chooseStart.
  destruct (Z.eqb_spec (Z.of_nat (queueLevel (startTree g)))
              (Z.of_nat (length (levels (startTree g))) - 2)) as [E1|E1]; simpl.
  - split; [assumption|]. destruct BD as [BD|BD]; [|assumption].
    apply boundary_shape in BD. lia.
  - destruct (Z.eqb_spec (Z.of_nat (queueLevel (endTree g)))
                (Z.of_nat (length (levels (endTree g))) - 1)) as [E2|E2]; simpl.
    + assert (BE : boundary (endTree g)).
      { destruct (live_shape LE) as [[B _]|[_ M]]; [assumption|lia]. }
      assert (BS : boundary (startTree g)).
      { destruct (live_shape LS) as [[B _]|[_ M]]; [assumption|lia]. }
      destruct (_ <=? _)%Z; simpl; auto.
    + split; [assumption|].
      destruct (live_shape LS) as [[B _]|[_ M]]; [assumption|lia].
Qed.

(** A tree inside a level is the one the test of line 283 selects. *)
Lemma next_side_mid (sd : Side) (g : Game) :
  midlevel (treeOf sd g) -> boundary (treeOf (otherSide sd) g) ->
  next_side g = sd.
Proof.
  intros M B. apply midlevel_shape in M. apply boundary_shape in B.
  unfold next_side, chooseStart. destruct sd; simpl in *.
  - destruct (Z.eqb_spec (Z.of_nat (queueLevel (startTree g)))
                (Z.of_nat (length (levels (startTree g))) - 2)); [reflexivity|lia].
  - destruct (Z.eqb_spec (Z.of_nat (queueLevel (startTree g)))
                (Z.of_nat (length (levels (startTree g))) - 2)); [lia|].
    destruct (Z.eqb_spec (Z.of_nat (queueLevel (endTree g)))
                (Z.of_nat (length (levels (endTree g))) - 1)); [lia|reflexivity].
Qed.

Lemma outer_safe (fuel : nat) :
  forall (target : Z) (g : Game) (tr : list Side),
  game_core g -> both_live g -> no_backlog target g ->
  safely (outer fuel target g tr) (outer_post target g tr).
Proof.
  assert (STOP : forall target g tr,
    game_core g -> both_live g -> no_backlog target g ->
    (searchIndex g <? target)%Z = false ->
    outer_post target g tr (Completed, g, tr)).
  { intros target g tr GC BL NB C. apply Z.ltb_ge in C.
    split; [assumption|]. split; [apply game_grows_refl|].
    split; [assumption|]. split; [lia|]. split.
    - exists []. rewrite app_nil_r. split; [reflexivity|]. lia.
    - split; assumption. }
  induction fuel as [|fuel IH]; intros target g tr GC BL NB;
    rewrite outer_unfold.
  - destruct (searchIndex g <? target)%Z eqn:C; simpl; [trivial|].
    now apply STOP.
  - destruct (searchIndex g <? target)%Z eqn:C; simpl; [|now apply STOP].
    apply Z.ltb_lt in C.
    destruct (next_side_ok BL) as [LV B].
    pose proof (@drain_safe fuel (next_side g) target false g tr GC B LV NB) as DS.
    destruct (drain fuel (next_side g) target false g tr)
      as [[[x g'] tr']| |]; simpl in *; auto.
    destruct DS as [A1 [A2 [A3 [A7 [[n [A4 A5]] A6]]]]].
    specialize (A5 eq_refl C).
    assert (TR : exists rest, repeat (next_side g) n = next_side g :: rest).
    { destruct n as [|n]; [lia|]. simpl. eauto. }
    destruct TR as [rest TR].
    destruct x.
    + simpl. split; [assumption|]. split; [assumption|].
      split; [assumption|]. split; [lia|]. split.
      * exists (repeat (next_side g) n). split; [assumption|]. eauto.
      * destruct (next_side g); simpl; assumption.
    + pose proof (IH target g' tr' A1 A6 A3) as OS.
      destruct (outer fuel target g' tr') as [[[x g''] tr'']| |]; simpl in *; auto.
      destruct OS as [B1 [B2 [B3 [B7 [[tr2 [B4 B5]] B6]]]]].
      split; [assumption|]. split; [eapply game_grows_trans; eassumption|].
      split; [assumption|]. split; [lia|]. split; [|assumption].
      exists (repeat (next_side g) n ++ tr2).
      rewrite B4, A4, <- app_assoc. split; [reflexivity|].
      intros _. rewrite TR. simpl. eauto.
Qed.

(** ** The whole of [search] *)

Lemma py_slice_In (A : Type) (l : list A) (a b : Z) (x : A) :
  In x (py_slice l a b) -> In x l.
Proof. unfold py_slice. intro H. eapply skipn_In, firstn_In, H. Qed.

Lemma py_slice_same (A : Type) (l : list A) (a : Z) : py_slice l a a = [].
Proof. unfold py_slice. now rewrite Z.sub_diag. Qed.

Lemma py_slice_nil (A : Type) (a b : Z) : py_slice (@nil A) a b = [].
Proof. unfold py_slice. rewrite skipn_nil. apply firstn_nil. Qed.

(** A slice that starts at an index of the list. *)
Lemma py_slice_from (A : Type) (l : list A) (a b : Z) :
  (0 <= a <= Z.of_nat (length l))%Z ->
  py_slice l a b =
  firstn (Z.to_nat (slice_bound (Z.of_nat (length l)) b - a))
         (skipn (Z.to_nat a) l).
Proof.
  intro H. unfold py_slice.
  replace (slice_bound (Z.of_nat (length l)) a) with a; [reflexivity|].
  unfold slice_bound. destruct (Z.ltb_spec a 0); lia.
Qed.

Lemma iter_index (n : nat) (g : Game) :
  Nat.iter n (fun g' => {| startTree := startTree g'; endTree := endTree g';
                           searchIndex := searchIndex g' + 1;
                           paths := paths g' |}) g
  = {| startTree := startTree g; endTree := endTree g;
       searchIndex := searchIndex g + Z.of_nat n; paths := paths g |}.
Proof.
  induction n as [|n IH].
  - simpl. rewrite Z.add_0_r. now destruct g.
  - rewrite Nat.iter_succ, IH. simpl. f_equal. lia.
Qed.

Lemma serve_buffered_spec (target : Z) (g : Game) :
  serve_buffered target g
  = {| startTree := startTree g; endTree := endTree g;
       searchIndex := Z.max (searchIndex g)
                        (Z.min target (Z.of_nat (length (paths g))));
       paths := paths g |}.
Proof. unfold serve_buffered. rewrite iter_index. f_equal. lia. Qed.

Lemma serve_buffered_idle (target : Z) (g : Game) :
  (target <= searchIndex g)%Z -> serve_buffered target g = g.
Proof.
  intro H. unfold serve_buffered.
  replace (Z.to_nat (Z.min target (Z.of_nat (length (paths g))) - searchIndex g))
    with 0 by lia.
  reflexivity.
Qed.

Lemma skipn_more_In (A : Type) (l : list A) (m n : nat) (x : A) :
  m <= n -> In x (skipn n l) -> In x (skipn m l).
Proof.
  intros L H. replace n with ((n - m) + m) in H by lia.
  rewrite <- skipn_skipn in H. eapply skipn_In; eassumption.
Qed.

Lemma serve_buffered_ok (target : Z) (g : Game) :
  game_core g ->
  game_core (serve_buffered target g)
  /\ no_backlog target (serve_buffered target g)
  /\ game_grows g (serve_buffered target g).
Proof.
  intro GC. rewrite serve_buffered_spec. pose proof (gc_index GC) as IX.
  split; [|split].
  - constructor; simpl; try apply GC; [lia|].
    unfold overflow. simpl. intros p q P Q.
    apply (gc_overflow GC); unfold overflow;
      eapply skipn_more_In; try eassumption; lia.
  - unfold no_backlog. simpl. lia.
  - repeat split; simpl; try apply tree_grows_refl; try lia.
    exists []. rewrite app_nil_r. split; auto. intros q [].
Qed.

Lemma live_endpoints (t : Tree) : live t -> endpoints t <> [].
Proof.
  intros [[init [_ [_ [H1 H2]]]]|[init [cur [nxt [_ [_ [_ [H1 H2]]]]]]]];
    rewrite H1; [assumption|].
  destruct (queue t); [congruence|discriminate].
Qed.

Lemma dead_endpoints (t : Tree) : dead t -> endpoints t = [].
Proof. intros [init [_ [_ [_ H]]]]. exact H. Qed.

Lemma boundary_live (t : Tree) : boundary t -> live t.
Proof. intro. now left. Qed.

Lemma game_ok_phase (g : Game) :
  game_ok g ->
  (both_live g /\ endpoints (startTree g) <> [] /\ endpoints (endTree g) <> [])
  \/ (one_dead g
      /\ (endpoints (startTree g) = [] \/ endpoints (endTree g) = [])).
Proof.
  intros [_ [BL|OD]].
  - left. split; [assumption|]. destruct BL as [L1 [L2 _]].
    split; now apply live_endpoints.
  - right. split; [assumption|].
    destruct OD as [[[D _]|[_ D]] _]; [left|right]; now apply dead_endpoints.
Qed.

Lemma search_safe (fuel : nat) (count : Z) (g : Game) :
  game_ok g -> safely (search fuel count g) (search_post fuel count g).
Proof.
  intro OK. pose proof OK as [GC _]. unfold search.
  destruct (game_ok_phase OK) as [[BL [E1 E2]]|[OD E]].
  - destruct (length (endpoints (startTree g)) =? 0) eqn:L1;
      [apply length_zero_iff in L1; contradiction|].
    destruct (length (endpoints (endTree g)) =? 0) eqn:L2;
      [apply length_zero_iff in L2; contradiction|].
    destruct (serve_buffered_ok (searchIndex g + count) GC) as [GC1 [NB1 GG1]].
    assert (BL1 : both_live (serve_buffered (searchIndex g + count) g)).
    { rewrite serve_buffered_spec. exact BL. }
    pose proof (@outer_safe fuel (searchIndex g + count) _ [] GC1 BL1 NB1) as OS.
    destruct (outer fuel (searchIndex g + count)
                (serve_buffered (searchIndex g + count) g) [])
      as [[[x g'] tr]| |] eqn:O; simpl in *; auto.
    pose proof OS as [A1 [A2 [A3 [A4 [A5 A6]]]]].
    split; [|split].
    + split; [assumption|]. destruct x; try contradiction; tauto.
    + eapply game_grows_trans; eassumption.
    + right. split; [exact BL|]. split; [exact O|]. split; [exact OS|].
      reflexivity.
  - assert (R : py_slice (paths g) (searchIndex g - 0) (searchIndex g) = []).
    { rewrite Z.sub_0_r. apply py_slice_same. }
    destruct (length (endpoints (startTree g)) =? 0) eqn:L1; simpl.
    + split; [assumption|]. split; [apply game_grows_refl|].
      left. split; [exact OD|]. auto.
    + destruct (length (endpoints (endTree g)) =? 0) eqn:L2; simpl.
      * split; [assumption|]. split; [apply game_grows_refl|].
        left. split; [exact OD|]. auto.
      * exfalso. destruct E as [E|E]; apply length_zero_iff in E; congruence.
Qed.

Lemma Game_init_ok (startPage endPage : string) :
  game_ok (Game_init startPage endPage).
Proof.
  split.
  - constructor; simpl; try reflexivity; try apply Tree_init_ok.
    + lia.
    + intros p [].
    + constructor.
    + unfold overflow. simpl. intros p q [].
  - left. repeat split; try (left; apply Tree_init_ok).
Qed.

Lemma game_run_ok (startPage endPage : string) (g : Game) delivered :
  game_run startPage endPage g delivered ->
  game_ok g /\ game_grows (Game_init startPage endPage) g.
Proof.
  induction 1 as [|g d fuel count r g' RUN [OK GG] S].
  - split; [apply Game_init_ok|apply game_grows_refl].
  - pose proof (search_safe fuel count OK) as SS. rewrite S in SS.
    destruct SS as [A1 [A2 _]]. split; [assumption|].
    eapply game_grows_trans; eassumption.
Qed.

(** ** Basic facts: chains of names *)

Lemma chain_app_mid (R : string -> string -> Prop) (a b : list string) (x : string) :
  chain R (a ++ [x]) -> chain R (x :: b) -> chain R (a ++ x :: b).
Proof.
  induction a as [|y a IH]; simpl; intros H1 H2; [assumption|].
  destruct a as [|z a]; simpl in *.
  - destruct b; tauto.
  - split; [tauto|]. apply IH; tauto.
Qed.

Lemma chain_snoc (R : string -> string -> Prop) (l : list string) (x y : string) :
  chain R (l ++ [x]) -> R x y -> chain R ((l ++ [x]) ++ [y]).
Proof.
  induction l as [|z l IH]; simpl; intros H1 H2; [tauto|].
  destruct l as [|w l]; simpl in *; [tauto|].
  split; [tauto|]. apply IH; tauto.
Qed.

Lemma chain_rev (R : string -> string -> Prop) (l : list string) :
  chain R l -> chain (fun a b => R b a) (rev l).
Proof.
  induction l as [|x l IH]; simpl; intro H; [trivial|].
  destruct l as [|y l]; [simpl; trivial|].
  destruct H as [H1 H2]. specialize (IH H2). simpl in *.
  apply chain_snoc; assumption.
Qed.

Lemma chain_impl (R R' : string -> string -> Prop) (l : list string) :
  (forall a b, R a b -> R' a b) -> chain R l -> chain R' l.
Proof.
  intro H. induction l as [|x l IH]; simpl; [trivial|].
  destruct l as [|y l]; [trivial|]. intros [H1 H2]. split; auto.
Qed.

(** From a page up to the root, each name is a neighbour of the next. *)
Lemma chain_up (t : Tree) :
  levels_ok t -> getParent (root t) = None -> forall k l p,
  nth_error (levels t) k = Some l -> In p l ->
  chain (fun c q => In c (nbrs t q)) (map getName (p :: ancestors p)).
Proof.
  intros OK RP k. induction k as [|k IH]; intros l p N I.
  - pose proof (lo_level OK 0 p N I) as H. simpl in H. subst p.
    destruct (root t) as [n [q|]]; [discriminate|]. simpl. trivial.
  - pose proof (lo_level OK (S k) p N I) as [q [l' [H1 [H2 [H3 H4]]]]].
    destruct p as [n [q'|]]; simpl in H1; [|discriminate].
    injection H1 as ->. specialize (IH _ _ H3 H4).
    change (map getName (MkPage n (Some q) :: ancestors (MkPage n (Some q))))
      with (n :: map getName (q :: ancestors q)).
    simpl in *. split; assumption.
Qed.

(** A path that joins the two trees can be walked forwards, when every
    page that [linksHere] gives does link to the page looked up. *)
Lemma joins_linked (g : Game) (i j : nat) (p : list Page) :
  (forall x y, In y (linksHere x) -> In x (links y)) ->
  game_core g -> joins (startTree g) (endTree g) i j p ->
  linked links (map getName p).
Proof.
  intros H GC [mid [sm [em [ls [le [H1 [H2 [H3 [H4 [H5 [H6 H7]]]]]]]]]]].
  subst p. rewrite map_app. simpl. unfold linked. apply chain_app_mid.
  - pose proof (chain_up (gc_start GC) (gc_start_root GC) _ _ H1 H2) as C.
    apply chain_rev in C. simpl in C.
    rewrite map_rev, <- H5.
    eapply chain_impl; [|exact C]. simpl. intros a b.
    unfold nbrs. now rewrite (gc_start_flag GC).
  - pose proof (chain_up (gc_end GC) (gc_end_root GC) _ _ H3 H4) as C.
    simpl in C. rewrite <- H6.
    eapply chain_impl; [|exact C]. simpl. intros a b.
    unfold nbrs. rewrite (gc_end_flag GC). apply H.
Qed.

(** Whatever [search] has returned is among the paths found. *)
Lemma game_run_delivered (startPage endPage : string) (g : Game) delivered :
  game_run startPage endPage g delivered ->
  forall p, In p delivered -> In p (paths g).
Proof.
  induction 1 as [|g d fuel count r g' RUN IH S]; intros p P; [destruct P|].
  destruct (game_run_ok RUN) as [OK _].
  pose proof (search_safe fuel count OK) as SS. rewrite S in SS.
  destruct SS as [A1 [A2 A3]].
  destruct A2 as [_ [_ [_ [found [F1 _]]]]].
  apply in_app_or in P. destruct P as [P|P].
  - rewrite F1. apply in_or_app. left. now apply IH.
  - destruct A3 as [[_ [_ [R _]]]|[_ [_ [_ R]]]]; rewrite R in P; [destruct P|].
    eapply py_slice_In; eassumption.
Qed.

(** ** Facts for the game-level properties *)

Lemma game_run_roots (startPage endPage : string) (g : Game) delivered :
  game_run startPage endPage g delivered ->
  root (startTree g) = MkPage startPage None
  /\ root (endTree g) = MkPage endPage None.
Proof.
  intro RUN. destruct (game_run_ok RUN) as [_ [[R1 _] [[R2 _] _]]].
  split; assumption.
Qed.

(** When both roots carry the same name, a path joins two pages that are
    both below their root. *)
Lemma joins_same_root (g : Game) (i j : nat) (p : list Page) :
  game_core g ->
  getName (root (startTree g)) = getName (root (endTree g)) ->
  joins (startTree g) (endTree g) i j p -> 1 <= i + j -> 1 <= i /\ 1 <= j.
Proof.
  intros GC RN [mid [sm [em [ls [le [H1 [H2 [H3 [H4 [H5 [H6 H7]]]]]]]]]]] L.
  pose proof (lo_first (gc_start GC)) as FS.
  pose proof (lo_first (gc_end GC)) as FE.
  destruct i as [|i].
  - exfalso. rewrite FS in H1. injection H1 as <-. destruct H2 as [<-|[]].
    assert (E : j = 0); [|lia].
    eapply (@level_unique (levels (endTree g)) j 0 le [root (endTree g)]
              (getName em)); try eassumption; [apply GC|now apply in_map|].
    simpl. left. congruence.
  - destruct j as [|j]; [|lia].
    exfalso. rewrite FE in H3. injection H3 as <-. destruct H4 as [<-|[]].
    assert (E : S i = 0); [|lia].
    eapply (@level_unique (levels (startTree g)) (S i) 0 ls [root (startTree g)]
              (getName sm)); try eassumption; [apply GC|now apply in_map|].
    simpl. left. congruence.
Qed.

Lemma hd_error_app (A : Type) (a b : list A) (x : A) :
  hd_error a = Some x -> hd_error (a ++ b) = Some x.
Proof. destruct a; simpl; [discriminate|trivial]. Qed.

Lemma hd_error_rev (A : Type) (l : list A) (d : A) :
  l <> [] -> hd_error (rev l) = Some (last l d).
Proof.
  induction l as [|x l IH]; intro H; [congruence|].
  destruct l as [|y l]; [reflexivity|].
  change (rev (x :: y :: l)) with (rev (y :: l) ++ [x]).
  change (last (x :: y :: l) d) with (last (y :: l) d).
  apply hd_error_app. apply IH. discriminate.
Qed.

Lemma last_app_cons (A : Type) (a b : list A) (x d : A) :
  last (a ++ x :: b) d = last (x :: b) d.
Proof.
  induction a as [|y a IH]; [reflexivity|].
  rewrite <- IH. simpl.
  destruct (a ++ x :: b) eqn:E; [destruct a; discriminate|reflexivity].
Qed.

Lemma last_map (A B : Type) (f : A -> B) (l : list A) (d : A) :
  last (map f l) (f d) = f (last l d).
Proof.
  induction l as [|x l IH]; [reflexivity|].
  destruct l as [|y l]; [reflexivity|]. exact IH.
Qed.

(** The first and last names of a joining path are those of the roots. *)
Lemma joins_ends (g : Game) (i j : nat) (p : list Page) :
  game_core g -> joins (startTree g) (endTree g) i j p ->
  hd_error (map getName p) = Some (getName (root (startTree g)))
  /\ last (map getName p) EmptyString = getName (root (endTree g)).
Proof.
  intros GC [mid [sm [em [ls [le [H1 [H2 [H3 [H4 [H5 [H6 H7]]]]]]]]]]].
  pose proof (level_chain_root (gc_start GC) (gc_start_root GC) _ _ H1 H2) as CS.
  pose proof (level_chain_root (gc_end GC) (gc_end_root GC) _ _ H3 H4) as CE.
  subst p. rewrite map_app, map_rev. simpl. split.
  - destruct (ancestors sm) as [|a anc] eqn:A.
    + simpl in *. congruence.
    + apply hd_error_app.
      rewrite (@hd_error_rev _ (map getName (a :: anc)) (getName sm))
        by discriminate.
      now rewrite last_map, CS.
  - rewrite last_app_cons, last_cons, <- H6, last_map. congruence.
Qed.

(** ** A graph without links *)

Lemma Page_eqb_refl (p : Page) : Page_eqb p p = true.
Proof. unfold Page_eqb. apply String.eqb_refl. Qed.

Lemma explore_root_no_links (r : Page) (starting : bool) :
  nbrs (Tree_init r starting) (getName r) = [] ->
  explore (Tree_init r starting)
  = Done ((false, [], false), exhausted_root r starting).
Proof.
  intro H.
  assert (P : set_pop (queue (Tree_init r starting)) = Some (r, [])).
  { unfold set_pop. change (queue (Tree_init r starting)) with [r].
    change (length [r]) with 1. rewrite Nat.mod_1_r. simpl.
    unfold set_discard. simpl. now rewrite Page_eqb_refl. }
  assert (RM : set_remove r (endpoints (Tree_init r starting)) = Some []).
  { unfold set_remove, set_discard. simpl. now rewrite Page_eqb_refl. }
  assert (CH : getChildren (Tree_init r starting) r = []).
  { unfold getChildren. unfold nbrs in H.
    destruct (isStarting (Tree_init r starting)); now rewrite H. }
  unfold explore. rewrite P, RM, CH. reflexivity.
Qed.

Lemma next_side_init (startPage endPage : string) :
  next_side (Game_init startPage endPage) = Start.
Proof. reflexivity. Qed.

(** On a fresh game whose starting page has no links, a [search] for at
    least one path explores the starting root and returns nothing. *)
Lemma search_init_no_links (startPage endPage : string) (fuel : nat) (count : Z) :
  links startPage = [] -> (0 < count)%Z ->
  search (S (S fuel)) count (Game_init startPage endPage)
  = Done ({| ret := []; exit := ExhaustedStart; explored := [Start] |},
          setTree Start (exhausted_root (MkPage startPage None) true)
                  (Game_init startPage endPage)).
Proof.
  intros H C. unfold search.
  change (length (endpoints (startTree (Game_init startPage endPage))) =? 0)
    with false.
  change (length (endpoints (endTree (Game_init startPage endPage))) =? 0)
    with false.
  cbv iota.
  replace (serve_buffered (searchIndex (Game_init startPage endPage) + count)
             (Game_init startPage endPage))
    with (Game_init startPage endPage)
    by (rewrite serve_buffered_spec; unfold Game_init; simpl; f_equal; lia).
  rewrite outer_unfold.
  replace (searchIndex (Game_init startPage endPage)
           <? searchIndex (Game_init startPage endPage) + count)%Z with true
    by (symmetry; apply Z.ltb_lt; simpl; lia).
  rewrite drain_unfold, next_side_init.
  replace (searchIndex (Game_init startPage endPage)
           <? searchIndex (Game_init startPage endPage) + count)%Z with true
    by (symmetry; apply Z.ltb_lt; simpl; lia).
  change (treeOf Start (Game_init startPage endPage))
    with (Tree_init (MkPage startPage None) true).
  rewrite explore_root_no_links by exact H.
  simpl. now rewrite py_slice_nil.
Qed.

Lemma search_init_short (startPage endPage : string) (fuel : nat) (count : Z)
      (r : SearchResult) (g' : Game) :
  (0 < count)%Z -> fuel < 2 ->
  search fuel count (Game_init startPage endPage) <> Done (r, g').
Proof.
  intros C F. unfold search.
  change (length (endpoints (startTree (Game_init startPage endPage))) =? 0)
    with false.
  change (length (endpoints (endTree (Game_init startPage endPage))) =? 0)
    with false.
  cbv iota.
  replace (serve_buffered (searchIndex (Game_init startPage endPage) + count)
             (Game_init startPage endPage))
    with (Game_init startPage endPage)
    by (rewrite serve_buffered_spec; unfold Game_init; simpl; f_equal; lia).
  rewrite outer_unfold.
  replace (searchIndex (Game_init startPage endPage)
           <? searchIndex (Game_init startPage endPage) + count)%Z with true
    by (symmetry; apply Z.ltb_lt; simpl; lia).
  destruct fuel as [|[|fuel]]; [discriminate| |lia].
  rewrite drain_unfold.
  replace (searchIndex (Game_init startPage endPage)
           <? searchIndex (Game_init startPage endPage) + count)%Z with true
    by (symmetry; apply Z.ltb_lt; simpl; lia).
  discriminate.
Qed.

Lemma search_idle (fuel : nat) (count : Z) (g : Game) (r : SearchResult) (g' : Game) :
  (count <= 0)%Z -> search fuel count g = Done (r, g') -> g' = g.
Proof.
  intros C. unfold search.
  destruct (length (endpoints (startTree g)) =? 0); [congruence|].
  destruct (length (endpoints (endTree g)) =? 0); [congruence|].
  rewrite serve_buffered_idle by lia. rewrite outer_unfold.
  replace (searchIndex g <? searchIndex g + count)%Z with false
    by (symmetry; apply Z.ltb_ge; lia).
  simpl. congruence.
Qed.

Lemma search_no_endpoints (fuel : nat) (count : Z) (g : Game) :
  endpoints (startTree g) = [] ->
  search fuel count g
  = Done ({| ret := []; exit := NoEndpointsStart; explored := [] |}, g).
Proof.
  intro E. unfold search. rewrite E. simpl.
  now rewrite Z.sub_0_r, py_slice_same.
Qed.

(** The games of a graph whose starting page has no links. *)
Lemma game_run_no_links (startPage endPage : string) (g : Game) delivered :
  links startPage = [] ->
  game_run startPage endPage g delivered ->
  g = Game_init startPage endPage \/ endpoints (startTree g) = [].
Proof.
  intro H. induction 1 as [|g d fuel count r g' RUN IH S]; [now left|].
  destruct IH as [IH|IH].
  - subst g. destruct (Z.le_gt_cases count 0) as [C|C].
    + left. eapply search_idle; eassumption.
    + right. destruct (Nat.lt_ge_cases fuel 2) as [F|F].
      * exfalso. eapply search_init_short; eassumption.
      * destruct fuel as [|[|fuel]]; try lia.
        rewrite search_init_no_links in S by (auto; lia).
        injection S as _ <-. reflexivity.
  - rewrite search_no_endpoints in S by assumption.
    injection S as _ <-. now right.
Qed.

(** ** The order of the paths returned *)







Lemma old_path_length (g : Game) (p : list Page) :
  game_core g -> In p (paths g) -> length p <= path_len_now g.
Proof.
  intros GC P. destruct (gc_paths GC p P) as [i [j [J [_ L]]]].
  rewrite (@joins_length _ _ i j p (gc_start GC) (gc_start_root GC)
             (gc_end GC) (gc_end_root GC) J). lia.
Qed.




(** ** Fuel and traces *)

Lemma drain_more_fuel (f : nat) :
  forall f' sd target qe g tr r,
  f <= f' -> drain f sd target qe g tr = Done r ->
  drain f' sd target qe g tr = Done r.
Proof.
  induction f as [|f IH]; intros f' sd target qe g tr r L;
    rewrite (drain_unfold f'), drain_unfold;
    destruct (negb qe && (searchIndex g <? target)%Z); try discriminate; auto.
  destruct f' as [|f']; [lia|].
  destruct (explore (treeOf sd g)) as [[[[ok new] last] t']| |];
    cbn [bind]; try discriminate.
  destruct ok; cbn [bind negb]; [|auto].
  destruct (record_mids target (setTree sd t' g) _) as [g2| |];
    cbn [bind]; try discriminate.
  apply IH. lia.
Qed.

Lemma outer_more_fuel (f : nat) :
  forall f' target g tr r,
  f <= f' -> outer f target g tr = Done r -> outer f' target g tr = Done r.
Proof.
  induction f as [|f IH]; intros f' target g tr r L;
    rewrite (outer_unfold f'), outer_unfold;
    destruct (searchIndex g <? target)%Z; try discriminate; auto.
  destruct f' as [|f']; [lia|].
  destruct (drain f (next_side g) target false g tr) as [[[x g1] tr1]| |] eqn:D;
    cbn [bind]; try discriminate.
  rewrite (@drain_more_fuel f f' _ _ _ _ _ _ (le_S_n _ _ L) D). cbn [bind].
  destruct x; [auto|]. apply IH. lia.
Qed.

(** The trace a loop is started with is only extended. *)
Lemma drain_trace (f : nat) :
  forall sd target qe g tr x g' tr',
  drain f sd target qe g tr = Done (x, g', tr') ->
  exists more, tr' = tr ++ more
    /\ forall tr0, drain f sd target qe g tr0 = Done (x, g', tr0 ++ more).
Proof.
  induction f as [|f IH]; intros sd target qe g tr x g' tr';
    rewrite drain_unfold;
    destruct (negb qe && (searchIndex g <? target)%Z) eqn:C; try discriminate.
  - intro H. injection H as <- <- <-. exists []. rewrite app_nil_r.
    split; [reflexivity|]. intro tr0. rewrite drain_unfold, C, app_nil_r.
    reflexivity.
  - destruct (explore (treeOf sd g)) as [[[[ok new] last] t']| |] eqn:E;
      cbn [bind]; try discriminate.
    destruct ok; cbn [bind negb].
    + destruct (record_mids target (setTree sd t' g) _) as [g2| |] eqn:RM;
        cbn [bind]; try discriminate.
      intro H. destruct (IH _ _ _ _ _ _ _ _ H) as [more [M1 M2]].
      exists (sd :: more). rewrite M1, <- app_assoc. split; [reflexivity|].
      intro tr0. rewrite drain_unfold, C, E. cbn [bind negb]. rewrite RM. cbn [bind].
      rewrite M2, <- app_assoc. reflexivity.
    + intro H. injection H as <- <- <-. exists [sd]. split; [reflexivity|].
      intro tr0. rewrite drain_unfold, C, E. reflexivity.
  - intro H. injection H as <- <- <-. exists []. rewrite app_nil_r.
    split; [reflexivity|]. intro tr0. rewrite drain_unfold, C, app_nil_r.
    reflexivity.
Qed.

Lemma outer_trace (f : nat) :
  forall target g tr x g' tr',
  outer f target g tr = Done (x, g', tr') ->
  exists more, tr' = tr ++ more
    /\ forall tr0, outer f target g tr0 = Done (x, g', tr0 ++ more).
Proof.
  induction f as [|f IH]; intros target g tr x g' tr';
    rewrite outer_unfold;
    destruct (searchIndex g <? target)%Z eqn:C; try discriminate.
  - intro H. injection H as <- <- <-. exists []. rewrite app_nil_r.
    split; [reflexivity|]. intro tr0. rewrite outer_unfold, C, app_nil_r.
    reflexivity.
  - destruct (drain f (next_side g) target false g tr)
      as [[[xd gd] trd]| |] eqn:D; cbn [bind]; try discriminate.
    destruct (drain_trace _ _ _ _ _ _ D) as [m1 [M1 M2]].
    destruct xd.
    + intro H. injection H as <- <- <-. exists m1. split; [assumption|].
      intro tr0. rewrite outer_unfold, C, M2. reflexivity.
    + intro H. destruct (IH _ _ _ _ _ _ H) as [m2 [N1 N2]].
      exists (m1 ++ m2). rewrite N1, M1, <- app_assoc.
      split; [reflexivity|].
      intro tr0. rewrite outer_unfold, C, M2. cbn [bind].
      rewrite N2, <- app_assoc. reflexivity.
  - intro H. injection H as <- <- <-. exists []. rewrite app_nil_r.
    split; [reflexivity|]. intro tr0. rewrite outer_unfold, C, app_nil_r.
    reflexivity.
Qed.

(** ** Two targets *)

Lemma reindex_tree (sd : Side) (target : Z) (g : Game) :
  treeOf sd (reindex target g) = treeOf sd g.
Proof. now destruct sd. Qed.

Lemma reindex_twice (t1 t2 : Z) (g : Game) :
  reindex t2 (reindex t1 g) = reindex t2 g.
Proof. reflexivity. Qed.

Lemma reindex_next_side (target : Z) (g : Game) :
  next_side (reindex target g) = next_side g.
Proof. reflexivity. Qed.

Lemma reindex_setTree (sd : Side) (t : Tree) (target : Z) (g : Game) :
  setTree sd t (reindex target g) = reindex target (setTree sd t g).
Proof. now destruct sd. Qed.

Lemma reindex_same (t1 t2 : Z) (g : Game) :
  (Z.of_nat (length (paths g)) <= t1)%Z -> (Z.of_nat (length (paths g)) <= t2)%Z ->
  reindex t1 g = reindex t2 g.
Proof. intros H1 H2. unfold reindex. f_equal. lia. Qed.

Lemma reindex_no_backlog (target : Z) (g : Game) :
  no_backlog target (reindex target g).
Proof. unfold no_backlog, reindex. simpl. lia. Qed.

(** After a step, the game towards a nearer target is the game towards the
    farther one, reindexed. *)
Lemma after_step_reindex (sd : Side) (t1 t2 : Z) (g : Game) (t' : Tree) new :
  (Z.of_nat (length (paths g)) < t1)%Z -> (t1 <= t2)%Z ->
  after_step sd t1 (reindex t2 g) t' new
  = reindex t1 (after_step sd t2 (reindex t2 g) t' new).
Proof.
  intros H1 H2. unfold after_step, reindex.
  destruct sd; simpl; f_equal;
    rewrite length_app; unfold found_paths; rewrite length_map; lia.
Qed.

Lemma after_step_reindex_same (sd : Side) (target : Z) (g : Game) (t' : Tree) new :
  (Z.of_nat (length (paths g)) < target)%Z ->
  after_step sd target (reindex target g) t' new
  = reindex target (after_step sd target (reindex target g) t' new).
Proof.
  intros H. unfold after_step, reindex.
  destruct sd; simpl; f_equal;
    rewrite length_app; unfold found_paths; rewrite length_map; lia.
Qed.

Lemma setTree_reindex_fixed (sd : Side) (t1 t2 : Z) (g : Game) (t' : Tree) :
  (Z.of_nat (length (paths g)) < t1)%Z -> (t1 <= t2)%Z ->
  setTree sd t' (reindex t2 g) = reindex t1 (setTree sd t' (reindex t2 g)).
Proof.
  intros H1 H2. unfold reindex. destruct sd; simpl; f_equal; lia.
Qed.

(** The inner loop towards the farther of two targets goes through the
    state in which the loop towards the nearer one ends. *)
Lemma drain_split (t1 t2 : Z) (f : nat) :
  (t1 <= t2)%Z ->
  forall (sd : Side) (qe : bool) (g : Game) (tr : list Side)
         (x : DrainExit) (g2 : Game) (tr2 : list Side),
  game_core (reindex t2 g) ->
  boundary (treeOf (otherSide sd) g) ->
  (if qe then boundary (treeOf sd g) else live (treeOf sd g)) ->
  (qe = false -> next_side g = sd) ->
  drain f sd t2 qe (reindex t2 g) tr = Done (x, g2, tr2) ->
  exists x1 g1 tr1,
    drain f sd t1 qe (reindex t1 g) tr = Done (x1, reindex t1 g1, tr1)
    /\ ((x1 = TreeExhausted /\ x = TreeExhausted
         /\ reindex t1 g1 = g2 /\ tr1 = tr2)
        \/ (x1 = LoopEnded /\ game_core (reindex t2 g1) /\ both_live g1
            /\ exists qe1 : bool,
                 (qe1 = false ->
                  next_side g1 = sd
                  /\ (t1 <= Z.of_nat (length (paths g1)))%Z)
                 /\ drain f sd t2 qe1 (reindex t2 g1) tr1 = Done (x, g2, tr2))).
Proof.
  intro LE.
  assert (STOP : forall (f : nat) (sd : Side) (qe : bool) (g : Game)
                        (tr : list Side) x g2 tr2,
    game_core (reindex t2 g) ->
    boundary (treeOf (otherSide sd) g) ->
    (if qe then boundary (treeOf sd g) else live (treeOf sd g)) ->
    (qe = false -> next_side g = sd) ->
    drain f sd t2 qe (reindex t2 g) tr = Done (x, g2, tr2) ->
    qe = true \/ (t1 <= Z.of_nat (length (paths g)))%Z ->
    exists x1 g1 tr1,
      drain f sd t1 qe (reindex t1 g) tr = Done (x1, reindex t1 g1, tr1)
      /\ ((x1 = TreeExhausted /\ x = TreeExhausted
           /\ reindex t1 g1 = g2 /\ tr1 = tr2)
          \/ (x1 = LoopEnded /\ game_core (reindex t2 g1) /\ both_live g1
              /\ exists qe1 : bool,
                   (qe1 = false ->
                    next_side g1 = sd
                    /\ (t1 <= Z.of_nat (length (paths g1)))%Z)
                   /\ drain f sd t2 qe1 (reindex t2 g1) tr1 = Done (x, g2, tr2)))).
  { intros f0 sd qe g tr x g2 tr2 GC B PH NS H C.
    exists LoopEnded, g, tr. split.
    - rewrite drain_unfold.
      replace (negb qe && (searchIndex (reindex t1 g) <? t1)%Z) with false;
        [reflexivity|].
      symmetry. destruct C as [->|C]; [reflexivity|].
      apply andb_false_iff. right. apply Z.ltb_ge. simpl. lia.
    - right. split; [reflexivity|]. split; [assumption|]. split.
      + apply (both_live_of sd); [|assumption].
        destruct qe; [now left|assumption].
      + exists qe. split; [|assumption]. intro Q. split; [auto|].
        destruct C as [C|C]; [congruence|assumption]. }
  induction f as [|f IH]; intros sd qe g tr x g2 tr2 GC B PH NS H.
  - destruct qe; [eapply STOP; eauto|].
    destruct (Z.le_gt_cases t1 (Z.of_nat (length (paths g)))) as [C|C];
      [eapply STOP; eauto|].
    exfalso. rewrite drain_unfold in H.
    replace (negb false && (searchIndex (reindex t2 g) <? t2)%Z) with true in H
      by (symmetry; apply Z.ltb_lt; simpl; lia).
    discriminate.
  - destruct qe; [eapply STOP; eauto|].
    destruct (Z.le_gt_cases t1 (Z.of_nat (length (paths g)))) as [C|C];
      [eapply STOP; eauto|].
    assert (SI : searchIndex (reindex t2 g)
                 = Z.of_nat (length (paths (reindex t2 g)))) by (simpl; lia).
    assert (LV : live (treeOf sd (reindex t2 g))) by now rewrite reindex_tree.
    assert (B' : boundary (treeOf (otherSide sd) (reindex t2 g)))
      by now rewrite reindex_tree.
    destruct (drain_step sd GC LV B' SI)
      as [t' [init [cur [nxt [u [unseen [E [ST [GC1 [GG1 AT]]]]]]]]]].
    destruct (AT t1) as [RM1 _]. destruct (AT t2) as [RM2 [GC2 _]].
    rewrite (@reindex_same t1 t2 g) by lia.
    rewrite drain_unfold in H. rewrite (drain_unfold (S f) sd t1).
    replace (negb false && (searchIndex (reindex t2 g) <? t2)%Z) with true in H
      by (symmetry; apply Z.ltb_lt; simpl; lia).
    replace (negb false && (searchIndex (reindex t2 g) <? t1)%Z) with true
      by (symmetry; apply Z.ltb_lt; simpl; lia).
    rewrite E in H. rewrite E. cbn [bind] in H. cbn [bind].
    destruct (after_step_tree sd t2 (reindex t2 g) t' unseen) as [T1 T2].
    rewrite reindex_tree in T2.
    assert (NEXT : forall last : bool,
      (if last then boundary t' else midlevel t') ->
      drain f sd t2 last (after_step sd t2 (reindex t2 g) t' unseen) (tr ++ [sd])
      = Done (x, g2, tr2) ->
      exists x1 g1 tr1,
        drain f sd t1 last (after_step sd t1 (reindex t2 g) t' unseen) (tr ++ [sd])
        = Done (x1, reindex t1 g1, tr1)
        /\ ((x1 = TreeExhausted /\ x = TreeExhausted
             /\ reindex t1 g1 = g2 /\ tr1 = tr2)
            \/ (x1 = LoopEnded /\ game_core (reindex t2 g1) /\ both_live g1
                /\ exists qe1 : bool,
                     (qe1 = false ->
                      next_side g1 = sd
                      /\ (t1 <= Z.of_nat (length (paths g1)))%Z)
                     /\ drain (S f) sd t2 qe1 (reindex t2 g1) tr1
                        = Done (x, g2, tr2)))).
    { intros last P D.
      rewrite (@after_step_reindex sd t1 t2 g t' unseen) by lia.
      rewrite (@after_step_reindex_same sd t2 g t' unseen) in D by lia.
      rewrite (@after_step_reindex_same sd t2 g t' unseen) in GC2 by lia.
      assert (HB : boundary (treeOf (otherSide sd)
                     (after_step sd t2 (reindex t2 g) t' unseen)))
        by now rewrite T2.
      assert (HP : if last
                   then boundary (treeOf sd
                          (after_step sd t2 (reindex t2 g) t' unseen))
                   else live (treeOf sd
                          (after_step sd t2 (reindex t2 g) t' unseen))).
      { rewrite T1. destruct last; [assumption|now right]. }
      assert (HN : last = false ->
                   next_side (after_step sd t2 (reindex t2 g) t' unseen) = sd).
      { intros ->. apply next_side_mid; [now rewrite T1|assumption]. }
      destruct (IH sd last _ _ _ _ _ GC2 HB HP HN D)
        as [x1 [g1 [tr1 [D1 CS]]]].
      exists x1, g1, tr1. split; [assumption|].
      destruct CS as [CS|[X1 [G1 [BL1 [qe1 [Q1 Q2]]]]]]; [now left|right].
      split; [assumption|]. split; [assumption|]. split; [assumption|].
      exists qe1. split; [assumption|].
      eapply drain_more_fuel; [|eassumption]. lia. }
    destruct (step_result_cases ST) as [[R P]|[[R P]|[R P]]];
      rewrite R in H; rewrite R; cbn [negb] in H; cbn [negb].
    + rewrite RM2 in H. rewrite RM1. cbn [bind] in H. cbn [bind].
      now apply NEXT.
    + rewrite RM2 in H. rewrite RM1. cbn [bind] in H. cbn [bind].
      now apply NEXT.
    + injection H as <- <- <-.
      exists TreeExhausted, (setTree sd t' (reindex t2 g)), (tr ++ [sd]).
      rewrite <- (@setTree_reindex_fixed sd t1 t2 g t') by lia.
      split; [reflexivity|]. left. auto.
Qed.

(** The outer loop towards the farther of two targets goes through the
    state in which the loop towards the nearer one ends, unless a tree is
    exhausted before. *)
Lemma outer_split (t1 t2 : Z) (f : nat) :
  (t1 <= t2)%Z ->
  forall (g : Game) (tr : list Side) (x : Exit) (g2 : Game) (tr2 : list Side),
  game_core (reindex t2 g) -> both_live g ->
  outer f t2 (reindex t2 g) tr = Done (x, g2, tr2) ->
  exists x1 g1 tr1,
    outer f t1 (reindex t1 g) tr = Done (x1, reindex t1 g1, tr1)
    /\ ((x1 = Completed /\ game_core (reindex t2 g1) /\ both_live g1
         /\ (t1 <= Z.of_nat (length (paths g1)))%Z
         /\ outer f t2 (reindex t2 g1) tr1 = Done (x, g2, tr2))
        \/ (x1 <> Completed /\ x = x1 /\ reindex t1 g1 = g2 /\ tr1 = tr2)).
Proof.
  intro LE.
  assert (STOP : forall (f : nat) (g : Game) (tr : list Side) x g2 tr2,
    game_core (reindex t2 g) -> both_live g ->
    outer f t2 (reindex t2 g) tr = Done (x, g2, tr2) ->
    (t1 <= Z.of_nat (length (paths g)))%Z ->
    exists x1 g1 tr1,
      outer f t1 (reindex t1 g) tr = Done (x1, reindex t1 g1, tr1)
      /\ ((x1 = Completed /\ game_core (reindex t2 g1) /\ both_live g1
           /\ (t1 <= Z.of_nat (length (paths g1)))%Z
           /\ outer f t2 (reindex t2 g1) tr1 = Done (x, g2, tr2))
          \/ (x1 <> Completed /\ x = x1 /\ reindex t1 g1 = g2 /\ tr1 = tr2))).
  { intros f0 g tr x g2 tr2 GC BL H C.
    exists Completed, g, tr. split.
    - rewrite outer_unfold.
      replace (searchIndex (reindex t1 g) <? t1)%Z with false; [reflexivity|].
      symmetry. apply Z.ltb_ge. simpl. lia.
    - left. auto. }
  induction f as [|f IH]; intros g tr x g2 tr2 GC BL H;
    (destruct (Z.le_gt_cases t1 (Z.of_nat (length (paths g)))) as [C|C];
     [eapply STOP; eauto|]).
  - exfalso. rewrite outer_unfold in H.
    replace (searchIndex (reindex t2 g) <? t2)%Z with true in H
      by (symmetry; apply Z.ltb_lt; simpl; lia).
    discriminate.
  - rewrite outer_unfold in H. rewrite (outer_unfold (S f) t1).
    replace (searchIndex (reindex t2 g) <? t2)%Z with true in H
      by (symmetry; apply Z.ltb_lt; simpl; lia).
    replace (searchIndex (reindex t1 g) <? t1)%Z with true
      by (symmetry; apply Z.ltb_lt; simpl; lia).
    rewrite reindex_next_side in *.
    destruct (next_side_ok BL) as [LV B].
    destruct (drain f (next_side g) t2 false (reindex t2 g) tr)
      as [[[xd gd] trd]| |] eqn:D; cbn [bind] in H; try discriminate.
    destruct (@drain_split t1 t2 f LE (next_side g) false g tr xd gd trd
                GC B LV (fun _ => eq_refl) D)
      as [x1 [g1 [tr1 [D1 CS]]]].
    rewrite D1. cbn [bind].
    destruct CS as [[-> [-> [G T]]]|[-> [GC1 [BL1 [qe1 [Q1 Q2]]]]]].
    + injection H as <- <- <-.
      exists (exhausted (next_side g)), g1, tr1. split; [reflexivity|].
      right. repeat split; auto. destruct (next_side g); discriminate.
    + destruct qe1.
      * rewrite drain_unfold in Q2. cbn [negb andb] in Q2.
        injection Q2 as <- <- <-.
        destruct (IH g1 tr1 x g2 tr2 GC1 BL1 H) as [x1 [g1' [tr1' [O1 CS]]]].
        exists x1, g1', tr1'. split; [assumption|].
        destruct CS as [[X1 [G1 [B1 [L1 O2]]]]|CS]; [left|now right].
        repeat (split; [assumption|]).
        eapply outer_more_fuel; [|eassumption]. lia.
      * destruct (Q1 eq_refl) as [NS L1].
        exists Completed, g1, tr1. split.
        -- rewrite outer_unfold.
           replace (searchIndex (reindex t1 g1) <? t1)%Z with false;
             [reflexivity|].
           symmetry. apply Z.ltb_ge. simpl. lia.
        -- left. split; [reflexivity|]. repeat (split; [assumption|]).
           rewrite outer_unfold, reindex_next_side, NS.
           destruct (searchIndex (reindex t2 g1) <? t2)%Z eqn:C2.
           ++ rewrite Q2. cbn [bind]. exact H.
           ++ rewrite drain_unfold, C2 in Q2. cbn [negb andb] in Q2.
              injection Q2 as <- <- <-.
              rewrite outer_unfold, C2 in H. exact H.
Qed.

Lemma drain_pass (f : nat) (sd : Side) (target : Z) (g g' : Game)
      (tr : list Side) (t' : Tree) (new : PageSet) (last : bool) :
  (searchIndex g < target)%Z ->
  explore (treeOf sd g) = Done ((true, new, last), t') ->
  record_mids target (setTree sd t' g)
    (set_intersection (endpoints (treeOf (otherSide sd) (setTree sd t' g))) new)
  = Done g' ->
  drain (S f) sd target false g tr = drain f sd target last g' (tr ++ [sd]).
Proof.
  intros L E RM. rewrite drain_unfold.
  replace (negb false && (searchIndex g <? target)%Z) with true
    by (symmetry; apply Z.ltb_lt; lia).
  rewrite E. cbn [bind negb]. rewrite RM. reflexivity.
Qed.

Lemma drain_fail (f : nat) (sd : Side) (target : Z) (g : Game)
      (tr : list Side) (t' : Tree) :
  (searchIndex g < target)%Z ->
  explore (treeOf sd g) = Done ((false, [], false), t') ->
  drain (S f) sd target false g tr
  = Done (TreeExhausted, setTree sd t' g, tr ++ [sd]).
Proof.
  intros L E. rewrite drain_unfold.
  replace (negb false && (searchIndex g <? target)%Z) with true
    by (symmetry; apply Z.ltb_lt; lia).
  rewrite E. reflexivity.
Qed.

Lemma after_step_reindex_up (sd : Side) (t1 t2 : Z) (g : Game) (t' : Tree) new :
  (Z.of_nat (length (paths g)) < t1)%Z -> (t1 <= t2)%Z ->
  after_step sd t2 (reindex t1 g) t' new
  = reindex t2 (after_step sd t1 (reindex t1 g) t' new).
Proof.
  intros H1 H2. unfold after_step, reindex.
  destruct sd; simpl; f_equal;
    rewrite length_app; unfold found_paths; rewrite length_map; lia.
Qed.

(** The inner loop towards the nearer of two targets, continued towards
    the farther one, is the inner loop towards the farther one. *)
Lemma drain_join (t1 t2 : Z) (f : nat) :
  (t1 <= t2)%Z ->
  forall (sd : Side) (qe : bool) (g : Game) (tr : list Side)
         (x1 : DrainExit) (g1 : Game) (tr1 : list Side),
  game_core (reindex t1 g) ->
  boundary (treeOf (otherSide sd) g) ->
  (if qe then boundary (treeOf sd g) else live (treeOf sd g)) ->
  (qe = false -> next_side g = sd) ->
  drain f sd t1 qe (reindex t1 g) tr = Done (x1, g1, tr1) ->
  (x1 = TreeExhausted ->
   drain f sd t2 qe (reindex t2 g) tr = Done (TreeExhausted, g1, tr1))
  /\ (x1 = LoopEnded ->
      exists (g1' : Game) (qe1 : bool),
        g1 = reindex t1 g1' /\ game_core (reindex t1 g1') /\ both_live g1'
        /\ (qe1 = false ->
            next_side g1' = sd
            /\ (t1 <= Z.of_nat (length (paths g1')))%Z)
        /\ forall fB r,
             drain fB sd t2 qe1 (reindex t2 g1') tr1 = Done r ->
             drain (f + fB) sd t2 qe (reindex t2 g) tr = Done r).
Proof.
  intro LE.
  assert (STOP : forall (f : nat) (sd : Side) (qe : bool) (g : Game)
                        (tr : list Side) x1 g1 tr1,
    game_core (reindex t1 g) ->
    boundary (treeOf (otherSide sd) g) ->
    (if qe then boundary (treeOf sd g) else live (treeOf sd g)) ->
    (qe = false -> next_side g = sd) ->
    drain f sd t1 qe (reindex t1 g) tr = Done (x1, g1, tr1) ->
    qe = true \/ (t1 <= Z.of_nat (length (paths g)))%Z ->
    (x1 = TreeExhausted ->
     drain f sd t2 qe (reindex t2 g) tr = Done (TreeExhausted, g1, tr1))
    /\ (x1 = LoopEnded ->
        exists (g1' : Game) (qe1 : bool),
          g1 = reindex t1 g1' /\ game_core (reindex t1 g1') /\ both_live g1'
          /\ (qe1 = false ->
              next_side g1' = sd
              /\ (t1 <= Z.of_nat (length (paths g1')))%Z)
          /\ forall fB r,
               drain fB sd t2 qe1 (reindex t2 g1') tr1 = Done r ->
               drain (f + fB) sd t2 qe (reindex t2 g) tr = Done r)).
  { intros f0 sd qe g tr x1 g1 tr1 GC B PH NS H C.
    rewrite drain_unfold in H.
    replace (negb qe && (searchIndex (reindex t1 g) <? t1)%Z) with false in H.
    2:{ symmetry. destruct C as [->|C]; [reflexivity|].
        apply andb_false_iff. right. apply Z.ltb_ge. simpl. lia. }
    injection H as <- <- <-. split; [discriminate|]. intros _.
    exists g, qe. split; [reflexivity|]. split; [assumption|]. split.
    - apply (both_live_of sd); [|assumption].
      destruct qe; [now left|assumption].
    - split.
      + intro Q. split; [auto|]. destruct C as [C|C]; [congruence|assumption].
      + intros fB r D. eapply drain_more_fuel; [|eassumption]. lia. }
  induction f as [|f IH]; intros sd qe g tr x1 g1 tr1 GC B PH NS H.
  - destruct qe; [eapply STOP; eauto|].
    destruct (Z.le_gt_cases t1 (Z.of_nat (length (paths g)))) as [C|C];
      [eapply STOP; eauto|].
    exfalso. rewrite drain_unfold in H.
    replace (negb false && (searchIndex (reindex t1 g) <? t1)%Z) with true in H
      by (symmetry; apply Z.ltb_lt; simpl; lia).
    discriminate.
  - destruct qe; [eapply STOP; eauto|].
    destruct (Z.le_gt_cases t1 (Z.of_nat (length (paths g)))) as [C|C];
      [eapply STOP; eauto|].
    assert (SI : searchIndex (reindex t1 g)
                 = Z.of_nat (length (paths (reindex t1 g)))) by (simpl; lia).
    assert (L1 : (searchIndex (reindex t1 g) < t1)%Z) by (simpl; lia).
    assert (L2 : (searchIndex (reindex t1 g) < t2)%Z) by (simpl; lia).
    assert (LV : live (treeOf sd (reindex t1 g))) by now rewrite reindex_tree.
    assert (B' : boundary (treeOf (otherSide sd) (reindex t1 g)))
      by now rewrite reindex_tree.
    destruct (drain_step sd GC LV B' SI)
      as [t' [init [cur [nxt [u [unseen [E [ST [GC1 [GG1 AT]]]]]]]]]].
    destruct (AT t1) as [RM1 [GC2 _]]. destruct (AT t2) as [RM2 _].
    rewrite <- (@reindex_same t1 t2 g) by lia.
    destruct (after_step_tree sd t1 (reindex t1 g) t' unseen) as [T1 T2].
    rewrite reindex_tree in T2.
    rewrite (@after_step_reindex_up sd t1 t2 g t' unseen) in RM2 by lia.
    rewrite (@after_step_reindex_same sd t1 g t' unseen) in RM1 by lia.
    rewrite (@after_step_reindex_same sd t1 g t' unseen) in GC2 by lia.
    assert (HB : boundary (treeOf (otherSide sd)
                   (after_step sd t1 (reindex t1 g) t' unseen)))
      by now rewrite T2.
    destruct (step_result_cases ST) as [[R P]|[[R P]|[R P]]]; rewrite R in E.
    + rewrite (@drain_pass f sd t1 _ _ tr _ _ _ L1 E RM1) in H.
      assert (HP : live (treeOf sd (after_step sd t1 (reindex t1 g) t' unseen)))
        by (rewrite T1; now right).
      assert (HN : false = false ->
                   next_side (after_step sd t1 (reindex t1 g) t' unseen) = sd).
      { intros _. apply next_side_mid; [now rewrite T1|assumption]. }
      destruct (IH sd false _ _ _ _ _ GC2 HB HP HN H) as [I1 I2].
      split.
      * intro X. rewrite (@drain_pass f sd t2 _ _ tr _ _ _ L2 E RM2). auto.
      * intro X. destruct (I2 X) as [g1' [qe1 [J1 [J2 [J3 [J4 J5]]]]]].
        exists g1', qe1. repeat (split; [assumption|]).
        intros fB r D. change (S f + fB) with (S (f + fB)).
        rewrite (@drain_pass (f + fB) sd t2 _ _ tr _ _ _ L2 E RM2). auto.
    + rewrite (@drain_pass f sd t1 _ _ tr _ _ _ L1 E RM1) in H.
      assert (HP : boundary (treeOf sd (after_step sd t1 (reindex t1 g) t' unseen)))
        by now rewrite T1.
      assert (HN : true = false ->
                   next_side (after_step sd t1 (reindex t1 g) t' unseen) = sd)
        by discriminate.
      destruct (IH sd true _ _ _ _ _ GC2 HB HP HN H) as [I1 I2].
      split.
      * intro X. rewrite (@drain_pass f sd t2 _ _ tr _ _ _ L2 E RM2). auto.
      * intro X. destruct (I2 X) as [g1' [qe1 [J1 [J2 [J3 [J4 J5]]]]]].
        exists g1', qe1. repeat (split; [assumption|]).
        intros fB r D. change (S f + fB) with (S (f + fB)).
        rewrite (@drain_pass (f + fB) sd t2 _ _ tr _ _ _ L2 E RM2). auto.
    + rewrite (@drain_fail f sd t1 _ tr _ L1 E) in H. injection H as <- <- <-.
      split; [|discriminate]. intros _. apply (@drain_fail f sd t2 _ tr _ L2 E).
Qed.

Lemma outer_step (f : nat) (target : Z) (g : Game) (tr : list Side) :
  (searchIndex g < target)%Z ->
  outer (S f) target g tr =
  bind (drain f (next_side g) target false g tr)
       (fun r : DrainExit * Game * list Side =>
          let '(x, g', tr') := r in
          match x with
          | TreeExhausted => Done (exhausted (next_side g), g', tr')
          | LoopEnded => outer f target g' tr'
          end).
Proof.
  intro L. rewrite outer_unfold.
  replace (searchIndex g <? target)%Z with true
    by (symmetry; apply Z.ltb_lt; lia).
  reflexivity.
Qed.

Lemma outer_stop (f : nat) (target : Z) (g : Game) (tr : list Side) :
  (target <= searchIndex g)%Z ->
  outer f target g tr = Done (Completed, g, tr).
Proof.
  intro L. rewrite outer_unfold.
  replace (searchIndex g <? target)%Z with false
    by (symmetry; apply Z.ltb_ge; lia).
  reflexivity.
Qed.

Lemma drain_stop (f : nat) (sd : Side) (target : Z) (qe : bool) (g : Game)
      (tr : list Side) :
  qe = true \/ (target <= searchIndex g)%Z ->
  drain f sd target qe g tr = Done (LoopEnded, g, tr).
Proof.
  intro C. rewrite drain_unfold.
  replace (negb qe && (searchIndex g <? target)%Z) with false; [reflexivity|].
  symmetry. destruct C as [->|C]; [reflexivity|].
  apply andb_false_iff. right. apply Z.ltb_ge. lia.
Qed.

(** The outer loop towards the nearer of two targets, continued towards
    the farther one, is the outer loop towards the farther one. *)
Lemma outer_join (t1 t2 : Z) (f : nat) :
  (t1 <= t2)%Z ->
  forall (g : Game) (tr : list Side) (x1 : Exit) (g1 : Game) (tr1 : list Side),
  game_core (reindex t1 g) -> both_live g ->
  outer f t1 (reindex t1 g) tr = Done (x1, g1, tr1) ->
  (x1 <> Completed -> outer f t2 (reindex t2 g) tr = Done (x1, g1, tr1))
  /\ (x1 = Completed ->
      exists g1' : Game,
        g1 = reindex t1 g1' /\ both_live g1'
        /\ (t1 <= Z.of_nat (length (paths g1')))%Z
        /\ forall f2 r,
             outer f2 t2 (reindex t2 g1') tr1 = Done r ->
             outer (f + f2) t2 (reindex t2 g) tr = Done r).
Proof.
  intro LE.
  assert (STOP : forall (f : nat) (g : Game) (tr : list Side) x1 g1 tr1,
    game_core (reindex t1 g) -> both_live g ->
    outer f t1 (reindex t1 g) tr = Done (x1, g1, tr1) ->
    (t1 <= Z.of_nat (length (paths g)))%Z ->
    (x1 <> Completed -> outer f t2 (reindex t2 g) tr = Done (x1, g1, tr1))
    /\ (x1 = Completed ->
        exists g1' : Game,
          g1 = reindex t1 g1' /\ both_live g1'
          /\ (t1 <= Z.of_nat (length (paths g1')))%Z
          /\ forall f2 r,
               outer f2 t2 (reindex t2 g1') tr1 = Done r ->
               outer (f + f2) t2 (reindex t2 g) tr = Done r)).
  { intros f0 g tr x1 g1 tr1 GC BL H C.
    rewrite outer_stop in H by (simpl; lia). injection H as <- <- <-.
    split; [congruence|]. intros _. exists g.
    repeat (split; [auto|]). intros f2 r O.
    eapply outer_more_fuel; [|eassumption]. lia. }
  induction f as [|f IH]; intros g tr x1 g1 tr1 GC BL H;
    (destruct (Z.le_gt_cases t1 (Z.of_nat (length (paths g)))) as [C|C];
     [eapply STOP; eauto|]).
  - exfalso. rewrite outer_unfold in H.
    replace (searchIndex (reindex t1 g) <? t1)%Z with true in H
      by (symmetry; apply Z.ltb_lt; simpl; lia).
    discriminate.
  - assert (L1 : (searchIndex (reindex t1 g) < t1)%Z) by (simpl; lia).
    assert (L2 : (searchIndex (reindex t2 g) < t2)%Z) by (simpl; lia).
    rewrite outer_step in H by assumption.
    rewrite reindex_next_side in H.
    destruct (next_side_ok BL) as [LV B].
    destruct (drain f (next_side g) t1 false (reindex t1 g) tr)
      as [[[xd gd] trd]| |] eqn:D; cbn [bind] in H; try discriminate.
    destruct (@drain_join t1 t2 f LE (next_side g) false g tr xd gd trd
                GC B LV (fun _ => eq_refl) D) as [I1 I2].
    destruct xd.
    + injection H as <- <- <-. specialize (I1 eq_refl). split.
      * intros _. rewrite outer_step by assumption.
        rewrite reindex_next_side, I1. reflexivity.
      * destruct (next_side g); discriminate.
    + destruct (I2 eq_refl) as [g1' [qe1 [J1 [J2 [J3 [J4 J5]]]]]]. subst gd.
      destruct qe1.
      * pose proof (J5 0 _ (@drain_stop 0 (next_side g) t2 true
                             (reindex t2 g1') trd (or_introl eq_refl))) as DJ.
        rewrite Nat.add_0_r in DJ.
        destruct (IH g1' trd x1 g1 tr1 J2 J3 H) as [K1 K2]. split.
        -- intro X. rewrite outer_step by assumption.
           rewrite reindex_next_side, DJ. cbn [bind]. auto.
        -- intro X. destruct (K2 X) as [g1'' [M1 [M2 [M3 M4]]]].
           exists g1''. repeat (split; [assumption|]). intros f2 r O.
           change (S f + f2) with (S (f + f2)).
           rewrite outer_step by assumption. rewrite reindex_next_side.
           rewrite (@drain_more_fuel f (f + f2) _ _ _ _ _ _ ltac:(lia) DJ).
           cbn [bind]. auto.
      * destruct (J4 eq_refl) as [NS L]. clear J4.
        rewrite outer_stop in H by (simpl; lia). injection H as <- <- <-.
        split; [congruence|]. intros _. exists g1'.
        repeat (split; [auto|]). intros f2 r O.
        change (S f + f2) with (S (f + f2)).
        rewrite outer_step by assumption. rewrite reindex_next_side.
        destruct (Z.le_gt_cases t2 (searchIndex (reindex t2 g1'))) as [C2|C2].
        -- rewrite outer_stop in O by assumption.
           pose proof (J5 0 _ (@drain_stop 0 (next_side g) t2 false
                                 (reindex t2 g1') trd (or_intror C2))) as DJ.
           rewrite (@drain_more_fuel (f + 0) (f + f2) _ _ _ _ _ _
                      ltac:(lia) DJ).
           cbn [bind]. rewrite outer_stop by assumption. exact O.
        -- destruct f2 as [|f2].
           { rewrite outer_unfold in O.
             replace (searchIndex (reindex t2 g1') <? t2)%Z with true in O
               by (symmetry; apply Z.ltb_lt; lia).
             discriminate. }
           rewrite outer_step in O by assumption.
           rewrite reindex_next_side, NS in O.
           destruct (drain f2 (next_side g) t2 false (reindex t2 g1') trd)
             as [[[xd2 gd2] trd2]| |] eqn:D2; cbn [bind] in O; try discriminate.
           pose proof (J5 _ _ D2) as DJ.
           rewrite (@drain_more_fuel (f + f2) (f + S f2) _ _ _ _ _ _
                      ltac:(lia) DJ).
           cbn [bind]. destruct xd2; [exact O|].
           eapply outer_more_fuel; [|eassumption]. lia.
Qed.

(** ** Two calls and one *)

Lemma serve_buffered_reindex (count : Z) (g : Game) :
  game_core g -> (0 <= count)%Z ->
  serve_buffered (searchIndex g + count) g = reindex (searchIndex g + count) g.
Proof.
  intros GC C. rewrite serve_buffered_spec. unfold reindex. f_equal.
  pose proof (gc_index GC). lia.
Qed.

Lemma search_live (f : nat) (count : Z) (g : Game) :
  both_live g ->
  search f count g =
  bind (outer f (searchIndex g + count)
              (serve_buffered (searchIndex g + count) g) [])
       (fun r : Exit * Game * list Side =>
          let '(x, g2, tr) := r in
          Done ({| ret := py_slice (paths g2) (searchIndex g)
                                   (searchIndex g + count);
                   exit := x; explored := tr |}, g2)).
Proof.
  intros [L1 [L2 _]]. unfold search.
  apply live_endpoints in L1. apply live_endpoints in L2.
  destruct (length (endpoints (startTree g)) =? 0) eqn:E1;
    [apply length_zero_iff in E1; contradiction|].
  destruct (length (endpoints (endTree g)) =? 0) eqn:E2;
    [apply length_zero_iff in E2; contradiction|].
  reflexivity.
Qed.

Lemma search_dead (f : nat) (count : Z) (g : Game) :
  one_dead g ->
  exists x, search f count g
            = Done ({| ret := []; exit := x; explored := [] |}, g).
Proof.
  intros [[[D _]|[_ D]] _]; apply dead_endpoints in D; unfold search;
    rewrite Z.sub_0_r, py_slice_same.
  - rewrite D. simpl. eauto.
  - rewrite D. destruct (length (endpoints (startTree g)) =? 0); simpl; eauto.
Qed.

Lemma firstn_plus (A : Type) (p q : nat) (l : list A) :
  firstn (p + q) l = firstn p l ++ firstn q (skipn p l).
Proof.
  revert l. induction p as [|p IH]; intro l; [reflexivity|].
  destruct l as [|x l]; simpl.
  - now rewrite firstn_nil.
  - f_equal. apply IH.
Qed.

Lemma firstn_skipn_app (A : Type) (s n : nat) (l1 l2 : list A) :
  s + n <= length l1 ->
  firstn n (skipn s (l1 ++ l2)) = firstn n (skipn s l1).
Proof.
  intro H. rewrite skipn_app.
  replace (s - length l1) with 0 by lia. simpl.
  rewrite firstn_app.
  replace (n - length (skipn s l1)) with 0 by (rewrite length_skipn; lia).
  simpl. now rewrite app_nil_r.
Qed.

(** A slice of the paths cut at a delivered index. *)
Lemma py_slice_split (A : Type) (l1 l2 : list A) (s m e : Z) :
  (0 <= s <= m)%Z -> (m <= Z.of_nat (length l1))%Z -> (m <= e)%Z ->
  py_slice l1 s m ++ py_slice (l1 ++ l2) m e = py_slice (l1 ++ l2) s e.
Proof.
  intros H1 H2 H3.
  assert (L : (Z.of_nat (length l1) <= Z.of_nat (length (l1 ++ l2)))%Z)
    by (rewrite length_app; lia).
  rewrite !py_slice_from by lia.
  set (len := Z.of_nat (length (l1 ++ l2))).
  assert (B1 : slice_bound (Z.of_nat (length l1)) m = m).
  { unfold slice_bound. destruct (Z.ltb_spec m 0); lia. }
  assert (B2 : (m <= slice_bound len e)%Z).
  { unfold slice_bound. destruct (Z.ltb_spec e 0); lia. }
  rewrite B1.
  replace (Z.to_nat (slice_bound len e - s))
    with (Z.to_nat (m - s) + Z.to_nat (slice_bound len e - m)) by lia.
  rewrite firstn_plus, skipn_skipn.
  replace (Z.to_nat (m - s) + Z.to_nat s) with (Z.to_nat m) by lia.
  f_equal. symmetry. apply firstn_skipn_app. lia.
Qed.

(** Beyond the end of the paths, the upper bound of a slice does not
    matter. *)
Lemma py_slice_beyond (A : Type) (l : list A) (s e1 e2 : Z) :
  (Z.of_nat (length l) <= e1)%Z -> (Z.of_nat (length l) <= e2)%Z ->
  py_slice l s e1 = py_slice l s e2.
Proof.
  intros H1 H2. unfold py_slice.
  replace (slice_bound (Z.of_nat (length l)) e1)
    with (slice_bound (Z.of_nat (length l)) e2); [reflexivity|].
  unfold slice_bound.
  destruct (Z.ltb_spec e1 0), (Z.ltb_spec e2 0); lia.
Qed.

Lemma reindex_serve (t1 b : Z) (g1 : Game) :
  (0 <= b)%Z -> (t1 <= Z.of_nat (length (paths g1)))%Z ->
  serve_buffered (searchIndex (reindex t1 g1) + b) (reindex t1 g1)
  = reindex (t1 + b) g1.
Proof.
  intros B L. rewrite serve_buffered_spec. unfold reindex. simpl.
  f_equal. lia.
Qed.

(** One call for [a + b] paths does what a call for [a] paths and then a
    call for [b] paths do. *)
Lemma search_split (f : nat) (a b : Z) (g : Game) (r5 : SearchResult) (g5 : Game) :
  game_ok g -> (0 <= a)%Z -> (0 <= b)%Z ->
  search f (a + b) g = Done (r5, g5) ->
  exists r3 g3 r2,
    search f a g = Done (r3, g3)
    /\ search f b g3 = Done (r2, g5)
    /\ ret r3 ++ ret r2 = ret r5
    /\ explored r3 ++ explored r2 = explored r5.
Proof.
  intros OK A B S5. pose proof OK as [GC [BL|OD]].
  2:{ destruct (search_dead f (a + b) OD) as [x5 E5].
      destruct (search_dead f a OD) as [x3 E3].
      destruct (search_dead f b OD) as [x2 E2].
      rewrite E5 in S5. injection S5 as <- <-.
      eexists. exists g. eexists. split; [exact E3|]. split; [exact E2|].
      split; reflexivity. }
  pose proof (gc_index GC) as IX.
  rewrite search_live in S5 by assumption.
  rewrite serve_buffered_reindex in S5 by (auto; lia).
  destruct (serve_buffered_ok (searchIndex g + (a + b)) GC) as [GC2 _].
  rewrite serve_buffered_reindex in GC2 by (auto; lia).
  destruct (outer f (searchIndex g + (a + b))
              (reindex (searchIndex g + (a + b)) g) [])
    as [[[x g2] tr2]| |] eqn:O5; cbn [bind] in S5; try discriminate.
  injection S5 as <- <-.
  destruct (@outer_split (searchIndex g + a) (searchIndex g + (a + b)) f
              ltac:(lia) g [] x g2 tr2 GC2 BL O5)
    as [x1 [g1 [tr1 [O1 CS]]]].
  assert (S3 : search f a g
               = Done ({| ret := py_slice (paths g1) (searchIndex g)
                                          (searchIndex g + a);
                          exit := x1; explored := tr1 |},
                       reindex (searchIndex g + a) g1)).
  { rewrite search_live by assumption.
    rewrite serve_buffered_reindex by (auto; lia). rewrite O1. reflexivity. }
  destruct CS as [[-> [GC1 [BL1 [L1 O2]]]]|[NC [-> [G T]]]].
  - assert (BL3 : both_live (reindex (searchIndex g + a) g1)) by exact BL1.
    destruct (outer_trace _ _ _ _ O2) as [more [M1 M2]].
    pose proof (@outer_safe f (searchIndex g + (a + b))
                  (reindex (searchIndex g + (a + b)) g1) tr1 GC1 BL1
                  (@reindex_no_backlog _ _)) as OS.
    rewrite O2 in OS. destruct OS as [_ [[_ [_ [_ [found [F1 _]]]]] _]].
    simpl in F1.
    eexists. eexists. eexists. split; [exact S3|].
    rewrite search_live by assumption.
    rewrite reindex_serve by lia.
    replace (searchIndex (reindex (searchIndex g + a) g1))
      with (searchIndex g + a)%Z by (simpl; lia).
    replace (searchIndex g + a + b)%Z with (searchIndex g + (a + b))%Z by lia.
    rewrite (M2 []). cbn [bind app]. split; [reflexivity|].
    cbn [ret explored]. split; [|now rewrite M1].
    rewrite F1. apply py_slice_split; lia.
  - subst g2 tr2.
    pose proof (search_safe f a OK) as SS. rewrite S3 in SS.
    destruct SS as [_ [_ [[OD _]|[_ [_ [OP _]]]]]].
    + exfalso. destruct BL as [L1 [L2 _]].
      destruct OD as [[[D _]|[_ D]] _]; apply dead_endpoints in D;
        [apply live_endpoints in L1|apply live_endpoints in L2]; contradiction.
    + cbn [exit explored] in OP.
      destruct OP as [_ [_ [_ [_ [_ X6]]]]].
      assert (OD : one_dead (reindex (searchIndex g + a) g1)
                   /\ (searchIndex (reindex (searchIndex g + a) g1)
                       < searchIndex g + a)%Z).
      { destruct x1; try contradiction; try exact X6; congruence. }
      destruct OD as [OD LT].
      destruct (search_dead f b OD) as [x2 E2].
      eexists. eexists. eexists. split; [exact S3|]. rewrite E2.
      split; [reflexivity|]. cbn [ret explored].
      rewrite !app_nil_r. split; [|reflexivity].
      simpl in LT. apply py_slice_beyond; simpl; lia.
Qed.

(** A call for [a] paths and then a call for [b] paths do what one call
    for [a + b] paths does. *)
Lemma search_join (f1 f2 : nat) (a b : Z) (g : Game)
      (r3 r2 : SearchResult) (g3 g2 : Game) :
  game_ok g -> (0 <= a)%Z -> (0 <= b)%Z ->
  search f1 a g = Done (r3, g3) ->
  search f2 b g3 = Done (r2, g2) ->
  exists r5,
    search (f1 + f2) (a + b) g = Done (r5, g2)
    /\ ret r5 = ret r3 ++ ret r2
    /\ explored r5 = explored r3 ++ explored r2.
Proof.
  intros OK A B S3 S2. pose proof OK as [GC [BL|OD]].
  2:{ destruct (search_dead (f1 + f2) (a + b) OD) as [x5 E5].
      destruct (search_dead f1 a OD) as [x3 E3].
      rewrite E3 in S3. injection S3 as <- <-.
      destruct (search_dead f2 b OD) as [x2 E2].
      rewrite E2 in S2. injection S2 as <- <-.
      eexists. split; [exact E5|]. split; reflexivity. }
  pose proof (gc_index GC) as IX.
  pose proof (search_safe f1 a OK) as SS. rewrite S3 in SS.
  destruct SS as [_ [_ [[OD _]|[_ [_ [OP _]]]]]].
  { exfalso. destruct BL as [L1 [L2 _]].
    destruct OD as [[[D _]|[_ D]] _]; apply dead_endpoints in D;
      [apply live_endpoints in L1|apply live_endpoints in L2]; contradiction. }
  rewrite search_live in S3 by assumption.
  rewrite serve_buffered_reindex in S3, OP by (auto; lia).
  destruct (serve_buffered_ok (searchIndex g + a) GC) as [GC1 _].
  rewrite serve_buffered_reindex in GC1 by (auto; lia).
  destruct (outer f1 (searchIndex g + a) (reindex (searchIndex g + a) g) [])
    as [[[x1 g1] tr1]| |] eqn:O1; cbn [bind] in S3; try discriminate.
  injection S3 as <- <-. cbn [exit explored ret] in *.
  destruct (@outer_join (searchIndex g + a) (searchIndex g + (a + b)) f1
              ltac:(lia) g [] x1 g1 tr1 GC1 BL O1) as [J1 J2].
  rewrite search_live by assumption.
  rewrite serve_buffered_reindex by (auto; lia).
  destruct OP as [_ [[_ [_ [_ [found1 [F1 _]]]]] [_ [_ [_ X6]]]]].
  simpl in F1.
  assert (XC : x1 = Completed \/ (x1 <> Completed /\ one_dead g1
               /\ (searchIndex g1 < searchIndex g + a)%Z)).
  { destruct x1; try contradiction; [right|right|left; reflexivity];
      (split; [discriminate|exact X6]). }
  destruct XC as [->|[NC [OD LT]]].
  - destruct (J2 eq_refl) as [g1' [E1 [BL1 [L1 JN]]]]. subst g1.
    assert (BL3 : both_live (reindex (searchIndex g + a) g1')) by exact BL1.
    rewrite search_live in S2 by assumption.
    rewrite reindex_serve in S2 by lia.
    replace (searchIndex (reindex (searchIndex g + a) g1'))
      with (searchIndex g + a)%Z in S2 by (simpl; lia).
    replace (searchIndex g + a + b)%Z with (searchIndex g + (a + b))%Z in S2
      by lia.
    destruct (outer f2 (searchIndex g + (a + b))
                (reindex (searchIndex g + (a + b)) g1') [])
      as [[[x2 g2'] tr2]| |] eqn:O2; cbn [bind] in S2; try discriminate.
    injection S2 as <- <-. cbn [ret explored].
    destruct (outer_trace _ _ _ _ O2) as [more [M1 M2]]. simpl in M1. subst tr2.
    rewrite (JN _ _ (M2 tr1)). cbn [bind].
    eexists. split; [reflexivity|]. cbn [ret explored].
    split; [|reflexivity].
    assert (GC3 : game_core (reindex (searchIndex g + (a + b)) g1')).
    { pose proof (search_safe f1 a OK) as SS.
      rewrite search_live in SS by assumption.
      rewrite serve_buffered_reindex in SS by (auto; lia).
      rewrite O1 in SS. cbn [bind] in SS. destruct SS as [[GCx _] _].
      pose proof (gc_index GCx) as IXx.
      destruct (serve_buffered_ok (searchIndex g + (a + b)) GCx) as [GCy _].
      rewrite serve_buffered_spec in GCy.
      replace (reindex (searchIndex g + (a + b)) g1')
        with {| startTree := startTree (reindex (searchIndex g + a) g1');
                endTree := endTree (reindex (searchIndex g + a) g1');
                searchIndex :=
                  Z.max (searchIndex (reindex (searchIndex g + a) g1'))
                    (Z.min (searchIndex g + (a + b))
                       (Z.of_nat (length (paths (reindex (searchIndex g + a) g1')))));
                paths := paths (reindex (searchIndex g + a) g1') |};
        [exact GCy|].
      unfold reindex. simpl. f_equal. lia. }
    pose proof (@outer_safe f2 (searchIndex g + (a + b)) _ [] GC3 BL1
                  (@reindex_no_backlog _ _)) as OS.
    rewrite O2 in OS. destruct OS as [_ [[_ [_ [_ [found [F2 _]]]]] _]].
    simpl in F2. simpl paths. simpl searchIndex. rewrite F2.
    replace (Z.min (searchIndex g + a) (Z.of_nat (length (paths g1'))))
      with (searchIndex g + a)%Z by lia.
    replace (searchIndex g + a + b)%Z with (searchIndex g + (a + b))%Z by lia.
    symmetry. apply py_slice_split; lia.
  - rewrite (@outer_more_fuel f1 (f1 + f2) _ _ _ _ ltac:(lia) (J1 NC)).
    cbn [bind].
    destruct (search_dead f2 b OD) as [x2 E2]. rewrite E2 in S2.
    injection S2 as <- <-. eexists. split; [reflexivity|].
    cbn [ret explored]. rewrite !app_nil_r. split; [|reflexivity].
    destruct OD as [_ OD]. apply py_slice_beyond; lia.
Qed.

(** Paths that are already found are returned without any [explore]. *)
Lemma search_buffered (f : nat) (count : Z) (g : Game) :
  game_ok g -> (0 <= count)%Z ->
  (searchIndex g + count <= Z.of_nat (length (paths g)))%Z ->
  exists x,
    search f count g
    = Done ({| ret := py_slice (paths g) (searchIndex g) (searchIndex g + count);
               exit := x; explored := [] |},
            {| startTree := startTree g; endTree := endTree g;
               searchIndex := searchIndex g + count; paths := paths g |}).
Proof.
  intros [GC [BL|OD]] C L.
  - rewrite search_live by assumption.
    rewrite serve_buffered_reindex by assumption.
    rewrite outer_stop by (simpl; lia). cbn [bind].
    exists Completed. unfold reindex. simpl.
    replace (Z.min (searchIndex g + count) (Z.of_nat (length (paths g))))
      with (searchIndex g + count)%Z by lia.
    reflexivity.
  - destruct (search_dead f count OD) as [x E]. exists x. rewrite E.
    destruct OD as [_ OD].
    assert (Z : count = 0%Z) by lia. subst count.
    rewrite Z.add_0_r, py_slice_same. f_equal. f_equal. now destruct g.
Qed.

(** * The properties the specification states *)

(** ** The tree *)

(** C5 (first-discovery wins).  In every state of a tree reached by
    successful [explore] calls, no page name is on two levels, and a page on
    level [k] is at distance exactly [k] from the root: a walk of [k] edges
    of the tree's lookup leads to it, and no shorter one.  Every [explore]
    call keeps the names unique: the pages it reports as new carry names that
    were on no level, and the names on the levels afterwards are those that
    were there and the neighbours of the popped page [u]. *)
Theorem C5_first_discovery_wins (r : Page) (starting : bool) (t : Tree) :
  tree_reachable r starting t ->
  NoDup (map getName (concat (levels t)))
  /\ (forall k l p, nth_error (levels t) k = Some l -> In p l ->
        walk (nbrs t) k (getName r) (getName p)
        /\ forall j, j < k -> ~ walk (nbrs t) j (getName r) (getName p))
  /\ exists res t' u,
       explore t = Done (res, t') /\ In u (queue t)
       /\ NoDup (map getName (concat (levels t')))
       /\ (forall c, In c (snd (fst res)) ->
             In (getName c) (nbrs t (getName u))
             /\ ~ In (getName c) (map getName (concat (levels t))))
       /\ (forall n, In n (map getName (concat (levels t'))) <->
             In n (map getName (concat (levels t)))
             \/ In n (nbrs t (getName u))).
Proof.
  intro RT. destruct (tree_reachable_ok RT) as [OK [LV [R SS]]].
  split; [apply OK|]. split.
  - intros k l p N I. rewrite <- R. split.
    + eapply level_walk; eassumption.
    + intros j L. eapply level_minimal; eauto.
  - destruct (explore_live OK LV) as [t' [init [cur [nxt [u [unseen [E ST]]]]]]].
    exists (step_result t t' u unseen), t', u.
    pose proof (stepped_levels_ok OK ST) as OK'.
    pose proof ST as [OP [U [UN [LV' _]]]].
    split; [assumption|]. split; [assumption|]. split; [apply OK'|]. split.
    + intros c C.
      assert (C' : In c unseen).
      { unfold step_result in C.
        destruct (length (set_discard u (queue t)) =? 0);
          [destruct (length (queue t') =? 0)|]; simpl in C; tauto. }
      rewrite UN in C'. apply unseen_child in C'.
      destruct C' as [_ [C1 C2]]. split; [assumption|].
      now rewrite set_union_all_names, <- (opened_concat OP) in C2.
    + intro n. rewrite LV', concat_grow, map_app, in_app_iff.
      rewrite <- (opened_concat OP). split.
      * intros [H|H]; [now left|right]. subst unseen.
        apply in_map_iff in H. destruct H as [c [H1 H2]].
        apply unseen_child in H2. rewrite <- H1. tauto.
      * intros [H|H]; [now left|].
        destruct (in_dec string_dec n (map getName (concat (levels t))));
          [now left|right].
        apply getChildren_names in H. apply in_map_iff in H.
        destruct H as [c [H1 H2]]. apply in_map_iff. exists c.
        split; [assumption|]. subst unseen. apply set_difference_In.
        split; [assumption|].
        now rewrite set_union_all_names, <- (opened_concat OP), H1.
Qed.

(** C6 ([explore] never throws).  In every state of a tree reached by
    successful [explore] calls, one more call returns a triple and raises
    nothing; when the triple reports failure it is [(False, set(), False)].
    The page it pops is in the queue and in the endpoints, and the index
    [queueLevel + 1] it may read [levels] at is in bounds. *)
Theorem C6_explore_never_raises (r : Page) (starting : bool) (t : Tree) :
  tree_reachable r starting t ->
  exists res t',
    explore t = Done (res, t')
    /\ (fst (fst res) = false -> res = (false, [], false))
    /\ (exists u q1, set_pop (queue t) = Some (u, q1)
                     /\ In u (queue t) /\ In u (endpoints t))
    /\ S (queueLevel t) < length (levels t').
Proof.
  intro RT. destruct (tree_reachable_ok RT) as [OK [LV [R SS]]].
  destruct (explore_live OK LV) as [t' [init [cur [nxt [u [unseen [E ST]]]]]]].
  exists (step_result t t' u unseen), t'.
  pose proof ST as [OP [U [UN [LV' _]]]].
  destruct OP as [Q [I [EP [NE _]]]].
  split; [assumption|]. split; [|split].
  - unfold step_result.
    destruct (length (set_discard u (queue t)) =? 0);
      [destruct (length (queue t') =? 0)|]; simpl; congruence.
  - destruct (set_pop (queue t)) as [[u0 q1]|] eqn:P.
    + exists u0, q1. split; [reflexivity|].
      unfold set_pop in P.
      destruct (nth_error (queue t) (pick (queue t) mod length (queue t)))
        as [x|] eqn:X; [|discriminate].
      injection P as <- _. apply nth_error_In in X.
      split; [assumption|]. rewrite EP. apply in_or_app. now left.
    + exfalso. unfold explore in E. rewrite P in E. discriminate.
  - rewrite LV', Q, length_app. simpl. lia.
Qed.

(** What [endpoints] holds.  In every state of a tree reached by successful
    [explore] calls, an endpoint is a page still queued, which sits on level
    [queueLevel], or a page of the deepest level; the queue level is the
    deepest level or the one above it, and in the first case the endpoints
    are the deepest level. *)
Lemma endpoints_queue_or_deepest (r : Page) (starting : bool) (t : Tree) :
  tree_reachable r starting t ->
  (forall p, In p (endpoints t) <-> In p (queue t) \/ In p (last (levels t) []))
  /\ (exists l, nth_error (levels t) (queueLevel t) = Some l /\ incl (queue t) l)
  /\ (S (queueLevel t) = length (levels t)
      \/ S (S (queueLevel t)) = length (levels t))
  /\ (S (queueLevel t) = length (levels t) ->
      endpoints t = last (levels t) []).
Proof.
  intro RT. destruct (tree_reachable_ok RT) as [_ [LV _]].
  destruct LV as [[init [H1 [H2 [H3 H4]]]]|[init [cur [nxt [H1 [H2 [H3 [H4 H5]]]]]]]].
  - rewrite H1, H2, H3, last_last, length_app. simpl.
    split; [tauto|]. split; [|split; [left; lia|reflexivity]].
    exists (queue t). split; [|apply incl_refl].
    rewrite nth_error_app2 by lia. now rewrite Nat.sub_diag.
  - rewrite H1, H2, H4, length_app. simpl.
    replace (init ++ [cur; nxt]) with ((init ++ [cur]) ++ [nxt])
      by now rewrite <- app_assoc.
    rewrite last_last. split; [intro p; apply in_app_iff|].
    split; [|split; [right; lia|lia]].
    exists cur. split; [|assumption].
    rewrite <- app_assoc. apply nth_error_cur.
Qed.

(** ** The game *)

(** C4 (validity).  When [linksHere] gives exactly the pages that link to
    the page looked up, every path that the [search] calls of a game have
    returned can be walked forwards: each of its pages but the first is
    among the links of the page before it. *)
Theorem C4_validity (startPage endPage : string) (g : Game)
        (delivered : list (list Page)) :
  (forall x y, In y (linksHere x) <-> In x (links y)) ->
  game_run startPage endPage g delivered ->
  forall p, In p delivered -> linked links (map getName p).
Proof.
  intros H RUN p P.
  destruct (game_run_ok RUN) as [[GC _] _].
  pose proof (game_run_delivered RUN p P) as I.
  destruct (gc_paths GC p I) as [i [j [J _]]].
  eapply joins_linked; try eassumption. intros x y. apply H.
Qed.

(** C9 (path reconstruction), as the code has it.  [Game.__getPath] walks
    the parent links of the two endpoints that carry the name of [mid].
    Every path found in a game joins a page of some level [i] of the
    starting tree to a page of some level [j] of the ending tree: it runs
    from the starting root to the ending root, has [i + j + 1] pages, and
    neither of its halves visits a name twice. *)
Theorem C9_path_reconstruction (startPage endPage : string) (g : Game)
        (delivered : list (list Page)) :
  game_run startPage endPage g delivered ->
  (forall mid p, getPath g mid = Done p ->
     exists startMid endMid,
       In startMid (endpoints (startTree g))
       /\ In endMid (endpoints (endTree g))
       /\ getName startMid = getName mid /\ getName endMid = getName mid
       /\ p = rev (ancestors startMid) ++ mid :: ancestors endMid)
  /\ (forall p, In p (paths g) ->
     exists mid startMid endMid i j ls le,
       nth_error (levels (startTree g)) i = Some ls /\ In startMid ls
       /\ nth_error (levels (endTree g)) j = Some le /\ In endMid le
       /\ getName startMid = getName mid /\ getName endMid = getName mid
       /\ p = rev (ancestors startMid) ++ mid :: ancestors endMid
       /\ hd_error (map getName p) = Some startPage
       /\ last (map getName p) EmptyString = endPage
       /\ length p = i + j + 1
       /\ NoDup (map getName (rev (ancestors startMid) ++ [mid]))
       /\ NoDup (map getName (mid :: ancestors endMid))).
Proof.
  intro RUN. destruct (game_run_ok RUN) as [[GC _] _].
  destruct (game_run_roots RUN) as [RS RE]. split.
  - intros mid p. unfold getPath.
    destruct (find_eq mid (endpoints (startTree g))) as [sm|] eqn:F1;
      [|discriminate].
    destruct (find_eq mid (endpoints (endTree g))) as [em|] eqn:F2;
      [|discriminate].
    intro H. injection H as <-.
    apply find_eq_In in F1. apply find_eq_In in F2.
    exists sm, em. tauto.
  - intros p P. destruct (gc_paths GC p P) as [i [j [J _]]].
    pose proof (joins_ends GC J) as [E1 E2].
    pose proof (@joins_length _ _ i j p (gc_start GC) (gc_start_root GC)
                  (gc_end GC) (gc_end_root GC) J) as LEN.
    destruct J as [mid [sm [em [ls [le [H1 [H2 [H3 [H4 [H5 [H6 H7]]]]]]]]]]].
    exists mid, sm, em, i, j, ls, le.
    rewrite RS in E1. rewrite RE in E2. simpl in E1, E2.
    repeat (split; [assumption|]). split.
    + pose proof (chain_NoDup (gc_start GC) (gc_start_root GC) _ _ H1 H2) as N.
      apply NoDup_rev in N. simpl in N.
      rewrite map_app, map_rev. simpl. now rewrite <- H5.
    + pose proof (chain_NoDup (gc_end GC) (gc_end_root GC) _ _ H3 H4) as N.
      simpl in *. now rewrite <- H6.
Qed.

(** C10 ([search(0)]).  On every game, [search(0)] returns the empty list,
    makes no [explore] call, and leaves the game as it was. *)
Theorem C10_search_zero (fuel : nat) (g : Game) :
  exists x, search fuel 0 g
            = Done ({| ret := []; exit := x; explored := [] |}, g).
Proof.
  unfold search. rewrite Z.sub_0_r, py_slice_same.
  destruct (length (endpoints (startTree g)) =? 0); [eauto|].
  destruct (length (endpoints (endTree g)) =? 0); [eauto|].
  rewrite serve_buffered_idle by lia. rewrite outer_unfold.
  replace (searchIndex g <? searchIndex g + 0)%Z with false
    by (symmetry; apply Z.ltb_ge; lia).
  simpl. rewrite Z.add_0_r, py_slice_same. eauto.
Qed.

(** C1 (equal start and goal), as the code has it.  [search] does not
    compare the two roots: on a fresh game whose two pages carry the same
    name, a [search] for at least one path starts by exploring the starting
    tree, and every path it returns has at least three pages. *)
Theorem C1_equal_pages (page : string) (fuel : nat) (count : Z)
        (r : SearchResult) (g' : Game) :
  (0 < count)%Z ->
  search fuel count (Game_init page page) = Done (r, g') ->
  (exists rest, explored r = Start :: rest)
  /\ (forall p, In p (ret r) -> 3 <= length p).
Proof.
  intros C S.
  pose proof (search_safe fuel count (Game_init_ok page page)) as SS.
  rewrite S in SS. destruct SS as [[GC _] [GG [[OD _]|[BL [O [OP R]]]]]].
  - exfalso. destruct OD as [[[D _]|[_ D]] _];
      apply dead_endpoints in D; discriminate.
  - split.
    + destruct OP as [_ [_ [_ [_ [[tr2 [T1 T2]] _]]]]]. simpl in T1. subst tr2.
      rewrite serve_buffered_spec in T2.
      destruct T2 as [rest T2]; [simpl; lia|]. exists rest. exact T2.
    + intros p P. rewrite R in P. apply py_slice_In in P.
      destruct (gc_paths GC p P) as [i [j [J [L _]]]].
      destruct GG as [[RS _] [[RE _] _]].
      assert (RN : getName (root (startTree g')) = getName (root (endTree g')))
        by (rewrite RS, RE; reflexivity).
      destruct (joins_same_root GC RN J L) as [L1 L2].
      rewrite (@joins_length _ _ i j p (gc_start GC) (gc_start_root GC)
                 (gc_end GC) (gc_end_root GC) J). lia.
Qed.

(** C8 (exhaustion).  When both lookups always return the empty set, every
    [search] for at least one path returns, given fuel for two loop
    iterations: it returns the empty list through one of the two
    "No paths possible (starting tree ...)" exits, after at most one
    [explore] call, and raises nothing. *)
Theorem C8_exhaustion (startPage endPage : string) (g : Game)
        (delivered : list (list Page)) (fuel : nat) (count : Z) :
  (forall n, links n = []) -> (forall n, linksHere n = []) ->
  game_run startPage endPage g delivered ->
  (0 < count)%Z -> 2 <= fuel ->
  exists r g',
    search fuel count g = Done (r, g')
    /\ ret r = []
    /\ (exit r = ExhaustedStart \/ exit r = NoEndpointsStart)
    /\ length (explored r) <= 1.
Proof.
  intros H1 H2 RUN C F.
  destruct (game_run_no_links (H1 startPage) RUN) as [E|E].
  - subst g. destruct fuel as [|[|fuel]]; try lia.
    rewrite search_init_no_links by auto.
    eexists. eexists. split; [reflexivity|]. simpl. auto.
  - rewrite search_no_endpoints by assumption.
    eexists. eexists. split; [reflexivity|]. simpl. auto.
Qed.


(** C3 (pagination consistency).  In every state of a game, [search(3)]
    followed by [search(2)] and a single [search(5)] do the same: if the
    single call returns, so do the two calls, on the same fuel, and if the
    two calls return, so does the single one, on the sum of their fuels;
    the paths returned by the two calls, put end to end, are the paths
    returned by the single call, the [explore] calls made are the same, and
    the game is left in the same state.  Paths already found beyond
    [searchIndex] are returned without any [explore] call. *)
Theorem C3_pagination (startPage endPage : string) (g : Game)
        (delivered : list (list Page)) :
  game_run startPage endPage g delivered ->
  (forall fuel r5 g5,
     search fuel 5 g = Done (r5, g5) ->
     exists r3 g3 r2,
       search fuel 3 g = Done (r3, g3)
       /\ search fuel 2 g3 = Done (r2, g5)
       /\ ret r3 ++ ret r2 = ret r5
       /\ explored r3 ++ explored r2 = explored r5)
  /\ (forall f1 f2 r3 g3 r2 g2,
        search f1 3 g = Done (r3, g3) ->
        search f2 2 g3 = Done (r2, g2) ->
        exists r5,
          search (f1 + f2) 5 g = Done (r5, g2)
          /\ ret r5 = ret r3 ++ ret r2
          /\ explored r5 = explored r3 ++ explored r2)
  /\ (forall fuel count,
        (0 <= count)%Z ->
        (searchIndex g + count <= Z.of_nat (length (paths g)))%Z ->
        exists x,
          search fuel count g
          = Done ({| ret := py_slice (paths g) (searchIndex g)
                                     (searchIndex g + count);
                     exit := x; explored := [] |},
                  {| startTree := startTree g; endTree := endTree g;
                     searchIndex := searchIndex g + count;
                     paths := paths g |})).
Proof.
  intro RUN. destruct (game_run_ok RUN) as [OK _]. split; [|split].
  - intros fuel r5 g5 S5. change 5%Z with (3 + 2)%Z in S5.
    apply (search_split fuel OK); [lia|lia|exact S5].
  - intros f1 f2 r3 g3 r2 g2 S3 S2. change 5%Z with (3 + 2)%Z.
    apply (@search_join f1 f2 3 2 g r3 r2 g3 g2 OK); [lia|lia|exact S3|exact S2].
  - intros fuel count C L. now apply search_buffered.
Qed.

(** * Further properties of the code *)

(** ** The path check of the tests *)

Lemma validate_loop_cons (t : Tree) (x : Page) (path : list Page)
      (ds : list nat) :
  validate_loop t (x :: path) (map S ds) = validate_loop t path ds.
Proof.
  induction ds as [|d ds IH]; simpl; [reflexivity|]. now rewrite IH.
Qed.

Lemma validate_loop_seq (t : Tree) (path : list Page) :
  validate_loop t path (seq 0 (length path - 1))
  = Done (children_chain t path).
Proof.
  induction path as [|a path IH]; [reflexivity|].
  destruct path as [|b rest]; [reflexivity|].
  change (length (a :: b :: rest) - 1) with (S (length rest)).
  change (seq 0 (S (length rest))) with (0 :: seq 1 (length rest)).
  rewrite <- seq_shift.
  change (validate_loop t (a :: b :: rest) (0 :: map S (seq 0 (length rest))))
    with (if negb (set_mem b (getChildren t a)) then Done false
          else validate_loop t (a :: b :: rest) (map S (seq 0 (length rest)))).
  rewrite validate_loop_cons.
  change (length (b :: rest) - 1) with (length rest - 0) in IH.
  rewrite Nat.sub_0_r in IH. rewrite IH.
  change (children_chain t (a :: b :: rest))
    with (set_mem b (getChildren t a) && children_chain t (b :: rest)).
  now destruct (set_mem b (getChildren t a)).
Qed.

Lemma children_chain_linked (t : Tree) (path : list Page) :
  children_chain t path = true <-> linked (nbrs t) (map getName path).
Proof.
  unfold linked.
  induction path as [|a path IH]; [simpl; tauto|].
  destruct path as [|b rest]; [simpl; tauto|].
  change (children_chain t (a :: b :: rest))
    with (set_mem b (getChildren t a) && children_chain t (b :: rest)).
  change (chain (fun x y => In y (nbrs t x)) (map getName (a :: b :: rest)))
    with (In (getName b) (nbrs t (getName a))
          /\ chain (fun x y => In y (nbrs t x)) (map getName (b :: rest))).
  rewrite andb_true_iff, IH, set_mem_true, getChildren_names. tauto.
Qed.

Lemma validatePath_eq (path : list Page) :
  validatePath path
  = Done ((2 <=? length path) && children_chain (Tree_init (hd (MkPage "" None) path) true) path).
Proof.
  unfold validatePath.
  destruct path as [|a path]; [reflexivity|].
  destruct path as [|b rest]; [reflexivity|].
  change (length (a :: b :: rest) <? 2) with false.
  change (nth_error (a :: b :: rest) 0) with (Some a).
  cbv iota beta. rewrite validate_loop_seq. reflexivity.
Qed.

Lemma validatePath_true (path : list Page) :
  validatePath path = Done true
  <-> 2 <= length path /\ linked links (map getName path).
Proof.
  rewrite validatePath_eq. split.
  - intro H.
    assert (H' : (2 <=? length path)
                 && children_chain (Tree_init (hd (MkPage "" None) path) true) path
                 = true) by congruence.
    apply andb_true_iff in H'. destruct H' as [H1 H2].
    apply Nat.leb_le in H1. apply children_chain_linked in H2. tauto.
  - intros [H1 H2]. f_equal. apply andb_true_iff. split.
    + now apply Nat.leb_le.
    + now apply children_chain_linked.
Qed.

(** X1 ([validatePath]).  On every list of pages [validatePath] returns a
    truth value and raises nothing; it returns [True] exactly when the list
    has at least two pages and each page but the first is named among the
    links of the page before it. *)
Theorem validatePath_spec (path : list Page) :
  exists b, validatePath path = Done b
    /\ (b = true <-> 2 <= length path /\ linked links (map getName path)).
Proof.
  rewrite validatePath_eq. eexists. split; [reflexivity|].
  rewrite <- validatePath_true, validatePath_eq.
  split; intro H; [now rewrite H|now injection H].
Qed.

Lemma delivered_path_facts (startPage endPage : string) (g : Game)
      (delivered : list (list Page)) (p : list Page) :
  game_run startPage endPage g delivered -> In p delivered ->
  2 <= length p
  /\ hd_error (map getName p) = Some startPage
  /\ last (map getName p) EmptyString = endPage
  /\ ((forall x y, In y (linksHere x) -> In x (links y)) ->
      linked links (map getName p)).
Proof.
  intros RUN P.
  destruct (game_run_ok RUN) as [[GC _] _].
  destruct (game_run_roots RUN) as [RS RE].
  pose proof (game_run_delivered RUN p P) as I.
  destruct (gc_paths GC p I) as [i [j [J [L _]]]].
  pose proof (joins_ends GC J) as [E1 E2].
  rewrite RS in E1. rewrite RE in E2.
  rewrite (@joins_length _ _ i j p (gc_start GC) (gc_start_root GC)
             (gc_end GC) (gc_end_root GC) J).
  split; [lia|]. split; [exact E1|]. split; [exact E2|].
  intro H. eapply joins_linked; eassumption.
Qed.

(** X2 (the paths of [search] pass [validatePath]).  When every page that
    [linksHere] reports as linking to a page does list that page among its
    links, [validatePath] returns [True] on every path that the [search]
    calls of a game have returned. *)
Theorem search_paths_validate (startPage endPage : string) (g : Game)
        (delivered : list (list Page)) :
  (forall x y, In y (linksHere x) -> In x (links y)) ->
  game_run startPage endPage g delivered ->
  forall p, In p delivered -> validatePath p = Done true.
Proof.
  intros H RUN p P. apply validatePath_true.
  destruct (@delivered_path_facts _ _ _ _ p RUN P) as [L [_ [_ K]]]. auto.
Qed.


(** ** A direct link *)

Lemma explore_root_links (r : Page) (starting : bool) :
  root_children r starting <> [] ->
  explore (Tree_init r starting)
  = Done ((true, root_children r starting, true),
          {| root := r; isStarting := starting;
             endpoints := root_children r starting;
             queue := root_children r starting;
             queueLevel := 1; levels := [[r]; root_children r starting] |}).
Proof.
  intros NE.
  assert (OP : opened (Tree_init r starting) [] [r] []).
  { unfold opened. simpl. split; [reflexivity|]. split; [apply incl_refl|].
    split; [reflexivity|]. split; [discriminate|]. left. auto. }
  destruct (explore_opened (proj1 (Tree_init_ok r starting)) OP) as [u [U E]].
  destruct U as [<-|[]].
  cbv zeta in E. rewrite E. clear E.
  change (queue (Tree_init r starting)) with [r].
  unfold set_discard. cbn [filter]. rewrite Page_eqb_refl.
  cbn -[set_difference getChildren set_union_all Tree_init].
  set (x := set_difference (getChildren (Tree_init r starting) r)
              (set_union_all (@cons PageSet [r] (@cons PageSet [] (@nil PageSet))))).
  change (root_children r starting) with x in *.
  destruct x as [|c cs]; [now elim NE|]. reflexivity.
Qed.

Lemma root_children_In (r : Page) (starting : bool) (c : Page) :
  In c (root_children r starting)
  <-> In c (getChildren (Tree_init r starting) r) /\ getName c <> getName r.
Proof.
  unfold root_children. rewrite set_difference_In, set_union_all_names.
  simpl. intuition congruence.
Qed.

Lemma root_children_NoDup (r : Page) (starting : bool) :
  NoDup (map getName (root_children r starting)).
Proof. apply set_difference_NoDup, getChildren_NoDup. Qed.

Lemma root_children_name (r : Page) (starting : bool) (n : string) :
  In n (nbrs (Tree_init r starting) (getName r)) -> n <> getName r ->
  exists c, In c (root_children r starting) /\ getName c = n
            /\ getParent c = Some r.
Proof.
  intros H N. apply getChildren_names in H. apply in_map_iff in H.
  destruct H as [c [H1 H2]]. exists c. split; [|split; [assumption|]].
  - apply root_children_In. split; [assumption|congruence].
  - now apply getChildren_In in H2.
Qed.

(** The intersection of a set that holds one page with a set of pages of
    distinct names that has a page of that name is one page of that name. *)
Lemma set_intersection_single (e : Page) (s : PageSet) :
  NoDup (map getName s) -> In (getName e) (map getName s) ->
  exists m, set_intersection [e] s = [m] /\ getName m = getName e.
Proof.
  intros ND I. unfold set_intersection.
  destruct (length [e] <? length s) eqn:L.
  - exists e. split; [|reflexivity]. simpl.
    now rewrite (proj2 (set_mem_true e s) I).
  - apply Nat.ltb_ge in L. simpl in L.
    destruct s as [|c [|d s]]; [destruct I| |simpl in L; lia].
    destruct I as [I|[]]. exists c. split; [|assumption].
    simpl. unfold Page_eqb. rewrite I, String.eqb_refl. reflexivity.
Qed.

Lemma search_direct (startPage endPage : string) (fuel : nat) :
  In endPage (links startPage) -> startPage <> endPage ->
  exists m t',
    getName m = endPage
    /\ search (S (S fuel)) 1 (Game_init startPage endPage)
       = Done ({| ret := [[MkPage startPage None; m]];
                  exit := Completed; explored := [Start] |},
               {| startTree := t';
                  endTree := Tree_init (MkPage endPage None) false;
                  searchIndex := 1;
                  paths := [[MkPage startPage None; m]] |}).
Proof.
  intros L N.
  set (r := MkPage startPage None).
  set (e := MkPage endPage None).
  destruct (@root_children_name r true endPage L (not_eq_sym N))
    as [c [C1 [C2 C3]]].
  assert (NE : root_children r true <> []) by (intro H; rewrite H in C1; destruct C1).
  pose proof (@explore_root_links r true NE) as E.
  destruct (@set_intersection_single e (root_children r true)
              (root_children_NoDup r true)) as [m [M1 M2]].
  { apply in_map_iff. exists c. split; assumption. }
  exists m. eexists. split; [exact M2|].
  assert (BL : both_live (Game_init startPage endPage)).
  { destruct (Game_init_ok startPage endPage) as [_ [H|[[[D _]|[_ D]] _]]];
      [exact H|apply dead_endpoints in D; discriminate
      |apply dead_endpoints in D; discriminate]. }
  rewrite search_live by exact BL.
  replace (serve_buffered (searchIndex (Game_init startPage endPage) + 1)
             (Game_init startPage endPage))
    with (Game_init startPage endPage)
    by (rewrite serve_buffered_spec; reflexivity).
  rewrite outer_step by (simpl; lia).
  rewrite next_side_init.
  assert (F1 : find_eq m (root_children r true) = Some c).
  { apply find_eq_unique; [apply root_children_NoDup|assumption|].
    rewrite C2, M2. reflexivity. }
  assert (AC : ancestors c = [r]).
  { destruct c as [n [q|]]; simpl in C3; [|discriminate].
    injection C3 as ->. reflexivity. }
  assert (F2 : find_eq m [e] = Some e).
  { unfold find_eq. simpl. unfold Page_eqb. simpl. rewrite M2.
    now rewrite String.eqb_refl. }
  erewrite drain_pass; [|simpl; lia|exact E|].
  2:{ cbn [setTree treeOf otherSide endTree startTree Game_init endpoints Tree_init].
      fold e. rewrite M1. cbn [record_mids bind record_mid].
      unfold record_mid, getPath.
      cbn [startTree endTree endpoints Tree_init]. rewrite F1, F2.
      cbn [bind]. rewrite AC. reflexivity. }
  rewrite drain_stop by (now left). cbn [bind].
  rewrite outer_stop by (simpl; lia).
  cbn [bind]. reflexivity.
Qed.

(** X3 (a direct link).  When the starting page links to the ending page
    and the two differ, [search(1)] on a fresh game returns, given fuel for
    two loop iterations, exactly one path, made of the two pages, after a
    single [explore] call, on the starting tree. *)
Theorem search_direct_link (startPage endPage : string) (fuel : nat) :
  In endPage (links startPage) -> startPage <> endPage -> 2 <= fuel ->
  exists r g',
    search fuel 1 (Game_init startPage endPage) = Done (r, g')
    /\ map names (ret r) = [[startPage; endPage]]
    /\ explored r = [Start]
    /\ exit r = Completed
    /\ searchIndex g' = 1%Z.
Proof.
  intros L N F. destruct fuel as [|[|fuel]]; try lia.
  destruct (search_direct fuel L N) as [m [t' [M S2]]].
  eexists. eexists. split; [exact S2|]. simpl. rewrite M. auto.
Qed.

(** ** testLength2 *)

Lemma Game_new_plain (unquote : string -> string)
      (randomStart randomEnd : string) (startPage endPage : string) :
  Page_name unquote randomStart startPage = startPage ->
  Page_name unquote randomEnd endPage = endPage ->
  Game_new unquote randomStart randomEnd startPage endPage
  = Game_init startPage endPage.
Proof. intros H1 H2. unfold Game_new, Page_init. now rewrite H1, H2. Qed.

Lemma checkLength2_passed (res : list (list Page)) :
  checkLength2 res = Passed tt
  <-> exists p, res = [p] /\ length p = 2 /\ validatePath p = Done true.
Proof.
  unfold checkLength2. split.
  - destruct res as [|p [|q res]]; simpl; try discriminate.
    destruct (length p =? 2) eqn:L; simpl; [|discriminate].
    apply Nat.eqb_eq in L.
    destruct (validatePath p) as [[|]| |] eqn:V; try discriminate.
    intros _. exists p. auto.
  - intros [p [-> [L V]]]. simpl. rewrite L, V. reflexivity.
Qed.

Lemma two_names (p : list Page) (a b : string) :
  length p = 2 -> hd_error (map getName p) = Some a ->
  last (map getName p) EmptyString = b -> map getName p = [a; b].
Proof.
  destruct p as [|x [|y [|z p]]]; simpl; try discriminate.
  intros _ H1 H2. injection H1 as <-. now subst b.
Qed.

Lemma search_two_pages (startPage endPage : string) (fuel : nat) :
  startPage <> endPage -> 2 <= fuel ->
  (exists r g' p,
     search fuel 1 (Game_init startPage endPage) = Done (r, g')
     /\ ret r = [p] /\ length p = 2 /\ validatePath p = Done true)
  <-> In endPage (links startPage).
Proof.
  intros N F. split.
  - intros [r [g' [p [S1 [R [L V]]]]]].
    pose proof (run_search fuel 1 (run_init startPage endPage) S1) as RUN.
    simpl in RUN.
    assert (P : In p (ret r)) by (rewrite R; now left).
    destruct (@delivered_path_facts _ _ _ _ p RUN P) as [_ [H1 [H2 _]]].
    pose proof (two_names p L H1 H2) as NM.
    apply validatePath_true in V. destruct V as [_ V].
    rewrite NM in V. destruct V as [V _]. exact V.
  - intro L. destruct fuel as [|[|fuel]]; try lia.
    destruct (search_direct fuel L N) as [m [t' [M S2]]].
    eexists. eexists. exists [MkPage startPage None; m].
    split; [exact S2|]. split; [reflexivity|]. split; [reflexivity|].
    apply validatePath_true. split; [simpl; lia|].
    simpl. rewrite M. unfold linked. simpl. auto.
Qed.

(** X4 ([testLength2]).  When [unquote] leaves the two page titles of the
    test as they are, [testLength2] passes, given fuel for two loop
    iterations, exactly when the page "United States" links to the page
    "North America". *)
Theorem testLength2_passes (unquote : string -> string)
        (randomStart randomEnd : string) (fuel : nat) :
  unquote "United States" = "United States" ->
  unquote "North America" = "North America" ->
  2 <= fuel ->
  (testLength2 unquote randomStart randomEnd fuel = Passed tt
   <-> In "North America" (links "United States")).
Proof.
  intros HU HN F.
  assert (N : "United States" <> "North America") by discriminate.
  rewrite <- (search_two_pages N F).
  unfold testLength2. rewrite Game_new_plain.
  2:{ unfold Page_name, Page_fullLink, cleanLink. simpl String.eqb. cbv iota.
      rewrite HU. reflexivity. }
  2:{ unfold Page_name, Page_fullLink, cleanLink. simpl String.eqb. cbv iota.
      rewrite HN. reflexivity. }
  destruct (search fuel 1 (Game_init "United States" "North America"))
    as [[r g']| |] eqn:S1.
  - rewrite checkLength2_passed. split.
    + intros [p [R [L V]]]. exists r, g', p. auto.
    + intros [r0 [g0 [p [S0 [R [L V]]]]]]. injection S0 as <- <-.
      exists p. auto.
  - split; [discriminate|]. intros [r0 [g0 [p [S0 _]]]]. discriminate.
  - split; [discriminate|]. intros [r0 [g0 [p [S0 _]]]]. discriminate.
Qed.

(** ** testLength3 *)

Lemma length3_loop_counts (rounds fuel : nat) :
  forall (g : Game) (all : list Page) (valid k : nat) (v : nat) (l : list Page),
  length all = 3 * k -> valid <= k ->
  length3_loop rounds fuel g all valid = Passed (v, l) ->
  exists k', length l = 3 * k' /\ v <= k'.
Proof.
  induction rounds as [|rounds IH]; intros g all valid k v l A V;
    cbn [length3_loop]; [discriminate|].
  destruct (search fuel 1 g) as [[res g']| |]; try discriminate.
  destruct (length (ret res) =? 1); cbn [negb]; [|discriminate].
  destruct (nth_error (ret res) 0) as [p0|]; [|discriminate].
  destruct (length p0 =? 3) eqn:L3.
  - apply Nat.eqb_eq in L3.
    destruct (validatePath p0) as [b| |]; try discriminate.
    apply (IH g' (all ++ p0) (valid + (if b then 1 else 0)) (S k)).
    + rewrite length_app. lia.
    + destruct b; lia.
  - destruct (3 <? length p0).
    + intro H. injection H as <- <-. exists k. auto.
    + apply (IH g' all valid k); assumption.
Qed.

(** X5 ([testLength3]).  When [testLength3] gets to print its percentage,
    the quotient it prints is at most one third: the divisor counts the
    pages of the three-page paths, three for each path, and the dividend
    counts paths. *)
Theorem testLength3_ratio (unquote : string -> string)
        (randomStart randomEnd : string)
        (rounds fuel : nat) (validPaths pages : nat) :
  testLength3 unquote randomStart randomEnd rounds fuel
  = Passed (validPaths, pages) ->
  3 * validPaths <= pages /\ 3 <= pages /\ exists k, pages = 3 * k.
Proof.
  unfold testLength3.
  destruct (length3_loop rounds fuel
              (Game_new unquote randomStart randomEnd
                        "United States" "Donald Trump") [] 0)
    as [[v l]| |] eqn:E; try discriminate.
  destruct (@length3_loop_counts rounds fuel _ [] 0 0 v l eq_refl (le_n 0) E)
    as [k [K1 K2]].
  destruct (length l =? 0) eqn:Z; [discriminate|].
  apply Nat.eqb_neq in Z. intro H. injection H as <- <-.
  split; [lia|]. split; [lia|]. exists k. exact K1.
Qed.

(** ** [explore] on an exhausted tree *)

(** X6 ([explore] after a failure).  When [explore] reports failure it
    reports [(False, set(), False)] and leaves the queue empty, and the next
    [explore] call on the tree raises [KeyError]. *)
Theorem explore_after_failure (t t' : Tree) (new : PageSet) (last : bool) :
  explore t = Done ((false, new, last), t') ->
  new = [] /\ last = false /\ queue t' = []
  /\ explore t' = Raise KeyError.
Proof.
  unfold explore at 1.
  destruct (set_pop (queue t)) as [[searchPage queue1]|]; [|discriminate].
  destruct (set_remove searchPage (endpoints t)) as [endpoints1|];
    [|discriminate].
  destruct (add_children _ _ endpoints1) as [[levels2 endpoints2]|];
    [|discriminate].
  destruct (length queue1 =? 0) eqn:Q; [|discriminate].
  destruct (nth_error levels2 (S (queueLevel t))) as [l|]; [|discriminate].
  destruct (length l =? 0); [|discriminate].
  intro H. injection H as <- <- <-.
  apply Nat.eqb_eq in Q. apply length_zero_iff_nil in Q. subst queue1.
  repeat split. unfold explore. simpl queue. now rewrite set_pop_empty.
Qed.

(** ** The cursor of [search] *)

Lemma game_ok_dead_search (fuel : nat) (count : Z) (g : Game) :
  one_dead g ->
  exists x, search fuel count g
            = Done ({| ret := []; exit := x; explored := [] |}, g)
            /\ (x = NoEndpointsStart \/ x = NoEndpointsEnd).
Proof.
  intros [[[D B]|[B D]] _]; apply dead_endpoints in D; unfold search;
    rewrite Z.sub_0_r, py_slice_same.
  - rewrite D. simpl. eauto.
  - rewrite D.
    destruct (length (endpoints (startTree g)) =? 0); simpl; eauto.
Qed.

(** X7 (exhaustion is final).  Once a [search] call of a game has returned
    through another exit than the regular one, every later [search] call
    returns the empty list through one of the two exits that find a tree
    without endpoints, makes no [explore] call and leaves the game as it
    is. *)
Theorem exhaustion_is_final (startPage endPage : string) (g : Game)
        (delivered : list (list Page)) (fuel : nat) (count : Z)
        (r : SearchResult) (g' : Game) :
  game_run startPage endPage g delivered ->
  search fuel count g = Done (r, g') ->
  exit r <> Completed ->
  forall fuel' count',
  exists x, search fuel' count' g'
            = Done ({| ret := []; exit := x; explored := [] |}, g')
            /\ (x = NoEndpointsStart \/ x = NoEndpointsEnd).
Proof.
  intros RUN S1 X fuel' count'.
  destruct (game_run_ok RUN) as [OK _].
  pose proof (search_safe fuel count OK) as SS. rewrite S1 in SS.
  destruct SS as [_ [_ [[OD [-> _]]|[_ [_ [OP _]]]]]].
  - now apply game_ok_dead_search.
  - destruct OP as [_ [_ [_ [_ [_ OP]]]]].
    destruct (exit r); try contradiction; try (now elim X);
      destruct OP as [OD _]; now apply game_ok_dead_search.
Qed.

(** What a [search] call for [count >= 0] paths does to the cursor
    [searchIndex]: it moves forward by the number of paths returned, which
    are the paths it has passed. *)
Lemma search_cursor_step (fuel : nat) (count : Z) (g : Game)
      (r : SearchResult) (g' : Game) :
  game_ok g -> (0 <= count)%Z -> search fuel count g = Done (r, g') ->
  ret r = firstn (Z.to_nat (searchIndex g' - searchIndex g))
                 (skipn (Z.to_nat (searchIndex g)) (paths g'))
  /\ (0 <= searchIndex g <= searchIndex g')%Z
  /\ (searchIndex g' <= searchIndex g + count)%Z
  /\ (searchIndex g' <= Z.of_nat (length (paths g')))%Z
  /\ (searchIndex g <= Z.of_nat (length (paths g)))%Z
  /\ (exit r = Completed -> searchIndex g' = (searchIndex g + count)%Z)
  /\ exists found, paths g' = paths g ++ found.
Proof.
  intros OK C S1.
  pose proof (search_safe fuel count OK) as SS. rewrite S1 in SS.
  destruct OK as [GC _]. pose proof (gc_index GC) as I.
  destruct SS as [[GC' _] [GG [[OD [-> [R [_ X]]]]|[BL [_ [OP R]]]]]].
  - rewrite R, Z.sub_diag. simpl.
    split; [reflexivity|]. split; [lia|]. split; [lia|]. split; [lia|].
    split; [lia|]. split; [|exists []; now rewrite app_nil_r].
    intro H. rewrite H in X. destruct X; discriminate.
  - pose proof (gc_index GC') as I'.
    destruct GG as [_ [_ [SI [found [PF _]]]]].
    destruct OP as [_ [_ [NB [UB [_ OP]]]]].
    rewrite serve_buffered_spec in UB. simpl in UB.
    assert (U : (searchIndex g' <= searchIndex g + count)%Z) by lia.
    assert (M : slice_bound (Z.of_nat (length (paths g'))) (searchIndex g + count)
                = searchIndex g').
    { unfold slice_bound.
      replace (searchIndex g + count <? 0)%Z with false
        by (symmetry; apply Z.ltb_ge; lia).
      destruct (Z.lt_ge_cases (searchIndex g') (searchIndex g + count)) as [H|H].
      - specialize (NB H). lia.
      - lia. }
    split.
    { rewrite R, py_slice_from by (rewrite PF, length_app; lia).
      now rewrite M. }
    split; [lia|]. split; [lia|]. split; [lia|]. split; [lia|].
    split; [|exists found; exact PF].
    intro H. rewrite H in OP. lia.
Qed.

(** X8 (how many paths [search] returns).  A [search(count)] call with
    [count >= 0] returns at most [count] paths, exactly [count] when it
    leaves through the regular exit, and moves [searchIndex] forward by the
    number of paths it returns. *)
Theorem search_count (startPage endPage : string) (g : Game)
        (delivered : list (list Page)) (fuel : nat) (count : Z)
        (r : SearchResult) (g' : Game) :
  game_run startPage endPage g delivered ->
  (0 <= count)%Z ->
  search fuel count g = Done (r, g') ->
  (Z.of_nat (length (ret r)) <= count)%Z
  /\ (exit r = Completed -> Z.of_nat (length (ret r)) = count)
  /\ searchIndex g' = (searchIndex g + Z.of_nat (length (ret r)))%Z.
Proof.
  intros RUN C S1. destruct (game_run_ok RUN) as [OK _].
  destruct (@search_cursor_step fuel count g r g' OK C S1) as [R [A [B [D [_ [X _]]]]]].
  assert (L : Z.of_nat (length (ret r)) = (searchIndex g' - searchIndex g)%Z).
  { rewrite R, length_firstn, length_skipn. lia. }
  rewrite L. split; [lia|]. split; [|lia].
  intro H. specialize (X H). lia.
Qed.

Lemma paged_run_game_run (startPage endPage : string) (g : Game)
      (delivered : list (list Page)) :
  paged_run startPage endPage g delivered ->
  game_run startPage endPage g delivered.
Proof.
  induction 1 as [|g delivered fuel count r g' _ IH C S1]; [constructor|].
  econstructor; eassumption.
Qed.

(** X9 (nothing skipped, nothing repeated).  When every [search] call of a
    game asks for a number of paths that is not negative, the paths the
    calls have returned, in the order of their return, are the first
    [searchIndex] paths of the list [paths], in its order. *)
Theorem delivered_is_prefix (startPage endPage : string) (g : Game)
        (delivered : list (list Page)) :
  paged_run startPage endPage g delivered ->
  delivered = firstn (Z.to_nat (searchIndex g)) (paths g)
  /\ Z.of_nat (length delivered) = searchIndex g.
Proof.
  induction 1 as [|g delivered fuel count r g' RUN [IH1 IH2] C S1];
    [split; reflexivity|].
  apply paged_run_game_run in RUN. destruct (game_run_ok RUN) as [OK _].
  destruct (@search_cursor_step fuel count g r g' OK C S1) as [R [A [B [D [E [_ [found PF]]]]]]].
  assert (P : delivered ++ ret r
              = firstn (Z.to_nat (searchIndex g')) (paths g')).
  { replace (Z.to_nat (searchIndex g'))
      with (Z.to_nat (searchIndex g)
            + Z.to_nat (searchIndex g' - searchIndex g)) by lia.
    rewrite firstn_plus, <- R. f_equal.
    rewrite IH1 at 1. rewrite PF, firstn_app.
    replace (Z.to_nat (searchIndex g) - length (paths g)) with 0 by lia.
    simpl. now rewrite app_nil_r. }
  split; [exact P|].
  rewrite P, length_firstn. lia.
Qed.

(** X10 (a count that is not positive).  A [search(count)] call with
    [count <= 0] makes no [explore] call and leaves the game as it is, on
    every game; it returns the empty list when [searchIndex + count] is not
    negative. *)
Theorem search_nonpositive (fuel : nat) (count : Z) (g : Game) :
  (count <= 0)%Z ->
  exists r, search fuel count g = Done (r, g)
            /\ explored r = []
            /\ ((0 <= searchIndex g + count)%Z -> ret r = []).
Proof.
  intro C. unfold search. rewrite Z.sub_0_r, py_slice_same.
  destruct (length (endpoints (startTree g)) =? 0);
    [eexists; split; [reflexivity|]; simpl; auto|].
  destruct (length (endpoints (endTree g)) =? 0);
    [eexists; split; [reflexivity|]; simpl; auto|].
  rewrite serve_buffered_idle by lia. rewrite outer_stop by lia.
  cbn [bind]. eexists. split; [reflexivity|]. split; [reflexivity|].
  cbn [ret]. intro H. unfold py_slice, slice_bound.
  replace (searchIndex g <? 0)%Z with false by (symmetry; apply Z.ltb_ge; lia).
  replace (searchIndex g + count <? 0)%Z with false
    by (symmetry; apply Z.ltb_ge; lia).
  replace (Z.to_nat _) with 0 by lia. reflexivity.
Qed.

(** ** Termination on a finite graph *)

Lemma level_names_bounded (U : list string) (t : Tree) :
  (forall n, incl (nbrs t n) U) -> levels_ok t ->
  incl (map getName (concat (levels t))) (getName (root t) :: U).
Proof.
  intros HU OK n N. apply in_map_iff in N. destruct N as [p [<- P]].
  apply in_concat in P. destruct P as [l [L P]].
  apply In_nth_error in L. destruct L as [k L].
  pose proof (lo_level OK k p L P) as O. destruct k as [|k]; simpl in O.
  - left. now subst p.
  - right. destruct O as [q [l' [_ [O _]]]]. eapply HU, O.
Qed.

Lemma levels_size (U : list string) (t : Tree) :
  (forall n, incl (nbrs t n) U) -> levels_ok t ->
  length (concat (levels t)) <= S (length U).
Proof.
  intros HU OK. rewrite <- (length_map getName).
  change (S (length U)) with (length (getName (root t) :: U)).
  apply NoDup_incl_length; [apply OK|now apply level_names_bounded].
Qed.

Lemma set_discard_shorter (u : Page) (s : PageSet) :
  In u s -> S (length (set_discard u s)) <= length s.
Proof.
  unfold set_discard. induction s as [|x s IH]; intros []; simpl.
  - subst x. rewrite Page_eqb_refl. simpl.
    pose proof (filter_length_le (fun q => negb (Page_eqb u q)) s). lia.
  - specialize (IH H). destruct (negb (Page_eqb u x)); simpl; lia.
Qed.

Lemma skipn_app_exact (A : Type) (a b : list A) :
  skipn (length a) (a ++ b) = b.
Proof. induction a; simpl; auto. Qed.

Lemma opened_unexplored (t : Tree) init cur nxt :
  opened t init cur nxt -> unexplored t = length (queue t) + length nxt.
Proof.
  intros [Q [_ [_ [_ [[L [-> _]]|L]]]]]; unfold unexplored; rewrite Q, L.
  - replace (S (length init)) with (length (init ++ [cur]))
      by (rewrite length_app; simpl; lia).
    rewrite skipn_all. reflexivity.
  - replace (init ++ [cur; nxt]) with ((init ++ [cur]) ++ [nxt])
      by now rewrite <- app_assoc.
    replace (S (length init)) with (length (init ++ [cur]))
      by (rewrite length_app; simpl; lia).
    rewrite skipn_app_exact. simpl. now rewrite app_nil_r.
Qed.

Lemma stepped_budget (U : list string) (t t' : Tree) init cur nxt u unseen :
  (forall n, incl (nbrs t n) U) -> levels_ok t ->
  stepped t t' init cur nxt u unseen ->
  S (budget (length U) t') <= budget (length U) t.
Proof.
  intros HU OK ST.
  pose proof (stepped_levels_ok OK ST) as OK'.
  pose proof ST as [OP [I [_ [LV [_ [_ [FL PH]]]]]]].
  assert (HU' : forall n, incl (nbrs t' n) U).
  { intro n. unfold nbrs. rewrite FL. apply HU. }
  pose proof (levels_size HU' OK') as SZ.
  pose proof (set_discard_shorter u (queue t) I) as SH.
  unfold budget. rewrite (opened_unexplored OP).
  rewrite (opened_concat OP).
  rewrite LV, concat_grow, length_app in SZ |- *.
  assert (Q : queueLevel t = length init) by apply OP.
  assert (UN : unexplored t' + 1 <= length (queue t) + length nxt + length unseen).
  { unfold unexplored. rewrite LV.
    destruct PH as [[NE [Q1 Q2]]|[E [Q1 Q2]]]; rewrite Q1, Q2, Q.
    - replace (init ++ [cur; nxt ++ unseen])
        with ((init ++ [cur]) ++ [nxt ++ unseen]) by now rewrite <- app_assoc.
      replace (S (length init)) with (length (init ++ [cur]))
        by (rewrite length_app; simpl; lia).
      rewrite skipn_app_exact. simpl. rewrite app_nil_r, length_app. lia.
    - replace (S (S (length init))) with (length (init ++ [cur; nxt ++ unseen]))
        by (rewrite length_app; simpl; lia).
      rewrite skipn_all. simpl. rewrite length_app. rewrite E in SH. simpl in SH.
      lia. }
  lia.
Qed.

Lemma live_budget (bound : nat) (t : Tree) : live t -> 1 <= budget bound t.
Proof.
  intro L. destruct (live_opened L) as [init [cur [nxt OP]]].
  unfold budget. rewrite (opened_unexplored OP).
  assert (NE : queue t <> []) by apply OP.
  destruct (queue t); [now elim NE|]. simpl. lia.
Qed.

Lemma game_budget_sides (bound : nat) (sd : Side) (g : Game) :
  game_budget bound g
  = budget bound (treeOf sd g) + budget bound (treeOf (otherSide sd) g).
Proof. unfold game_budget. destruct sd; simpl; lia. Qed.

Lemma nbrs_bounded (U : list string) (t : Tree) :
  (forall n, incl (links n) U) -> (forall n, incl (linksHere n) U) ->
  forall n, incl (nbrs t n) U.
Proof. intros H1 H2 n. unfold nbrs. destruct (isStarting t); auto. Qed.

Lemma drain_budget (U : list string) (fuel : nat) :
  (forall n, incl (links n) U) -> (forall n, incl (linksHere n) U) ->
  forall (sd : Side) (target : Z) (queueEmpty : bool) (g : Game) (tr : list Side),
  game_core g -> boundary (treeOf (otherSide sd) g) ->
  (if queueEmpty then boundary (treeOf sd g) else live (treeOf sd g)) ->
  no_backlog target g ->
  spends (length U) fuel 0 g tr (drain fuel sd target queueEmpty g tr).
Proof.
  intros H1 H2.
  induction fuel as [|fuel IH]; intros sd target qe g tr GC B PH NB;
    rewrite drain_unfold.
  - destruct (negb qe && (searchIndex g <? target)%Z) eqn:C; simpl; [|lia].
    apply andb_true_iff in C. destruct C as [C1 _].
    apply negb_true_iff in C1. subst qe.
    rewrite (game_budget_sides _ sd).
    pose proof (live_budget (length U) PH). lia.
  - destruct (negb qe && (searchIndex g <? target)%Z) eqn:C; simpl; [|lia].
    apply andb_true_iff in C. destruct C as [C1 C2].
    apply negb_true_iff in C1. subst qe. apply Z.ltb_lt in C2.
    destruct (drain_step sd GC PH B (NB C2))
      as [t' [init [cur [nxt [u [unseen [E [ST [GC1 [GG1 AT]]]]]]]]]].
    destruct (AT target) as [RM [GC2 [GG2 NB2]]].
    rewrite E. simpl bind.
    destruct (after_step_tree sd target g t' unseen) as [T1 T2].
    pose proof (@stepped_budget U _ _ _ _ _ _ _
                  (nbrs_bounded (treeOf sd g) H1 H2)
                  (match sd as s return levels_ok (treeOf s g) with
                   | Start => gc_start GC | End => gc_end GC end) ST) as SB.
    assert (B2 : S (game_budget (length U) (after_step sd target g t' unseen))
                 <= game_budget (length U) g).
    { rewrite (game_budget_sides _ sd), (game_budget_sides _ sd g), T1, T2. lia. }
    assert (NEXT : forall last : bool,
      (if last then boundary t' else live t') ->
      spends (length U) (S fuel) 0 g tr
             (drain fuel sd target last
                (after_step sd target g t' unseen) (tr ++ [sd]))).
    { intros last P.
      assert (S2 : spends (length U) fuel 0 (after_step sd target g t' unseen)
                     (tr ++ [sd])
                     (drain fuel sd target last
                        (after_step sd target g t' unseen) (tr ++ [sd]))).
      { apply IH; auto; [now rewrite T2|now rewrite T1]. }
      destruct (drain fuel sd target last _ (tr ++ [sd]))
        as [[[x g'] tr']| |]; simpl in *; auto.
      - rewrite length_app in S2. simpl in S2. lia.
      - lia. }
    destruct (step_result_cases ST) as [[R P]|[[R P]|[R P]]]; rewrite R; simpl.
    + rewrite RM. simpl bind. apply NEXT. now right.
    + rewrite RM. simpl bind. apply NEXT. assumption.
    + rewrite length_app. simpl.
      rewrite (game_budget_sides _ sd), (game_budget_sides _ sd g),
        setTree_same, setTree_other. lia.
Qed.

Lemma outer_budget (U : list string) (fuel : nat) :
  (forall n, incl (links n) U) -> (forall n, incl (linksHere n) U) ->
  forall (target : Z) (g : Game) (tr : list Side),
  game_core g -> both_live g -> no_backlog target g ->
  spends (length U) fuel 1 g tr (outer fuel target g tr).
Proof.
  intros H1 H2.
  induction fuel as [|fuel IH]; intros target g tr GC BL NB;
    rewrite outer_unfold.
  - destruct (searchIndex g <? target)%Z eqn:C; simpl; lia.
  - destruct (searchIndex g <? target)%Z eqn:C; simpl; [|lia].
    apply Z.ltb_lt in C.
    destruct (next_side_ok BL) as [LV B].
    pose proof (@drain_safe fuel (next_side g) target false g tr GC B LV NB) as DS.
    pose proof (@drain_budget U fuel H1 H2 (next_side g) target false g tr
                  GC B LV NB) as DB.
    destruct (drain fuel (next_side g) target false g tr)
      as [[[x g'] tr']| |]; simpl in *; [|contradiction|lia].
    destruct DS as [A1 [A2 [A3 [A7 [[n [A4 A5]] A6]]]]].
    specialize (A5 eq_refl C).
    assert (LT : length tr < length tr').
    { rewrite A4, length_app, repeat_length. lia. }
    destruct x; simpl; [lia|].
    pose proof (IH target g' tr' A1 A6 A3) as OS.
    destruct (outer fuel target g' tr') as [[[x g''] tr'']| |]; simpl in *;
      [lia|contradiction|lia].
Qed.

Lemma search_budget (U : list string) (fuel : nat) (count : Z) (g : Game) :
  (forall n, incl (links n) U) -> (forall n, incl (linksHere n) U) ->
  game_ok g ->
  match search fuel count g with
  | Done (r, g') =>
      length (explored r) + game_budget (length U) g'
      <= game_budget (length U) g
  | Raise _ => False
  | OutOfFuel => fuel <= game_budget (length U) g
  end.
Proof.
  intros H1 H2 OK. pose proof OK as [GC _].
  destruct (game_ok_phase OK) as [[BL _]|[OD _]].
  - rewrite search_live by exact BL.
    destruct (serve_buffered_ok (searchIndex g + count) GC) as [GC1 [NB1 _]].
    assert (BL1 : both_live (serve_buffered (searchIndex g + count) g)).
    { rewrite serve_buffered_spec. exact BL. }
    pose proof (@outer_budget U fuel H1 H2 (searchIndex g + count) _ []
                  GC1 BL1 NB1) as OB.
    assert (GB : game_budget (length U)
                   (serve_buffered (searchIndex g + count) g)
                 = game_budget (length U) g)
      by (rewrite serve_buffered_spec; reflexivity).
    unfold spends in OB. rewrite GB in OB.
    destruct (outer fuel (searchIndex g + count)
                (serve_buffered (searchIndex g + count) g) [])
      as [[[x g'] tr]| |]; simpl in *; [lia|contradiction|lia].
  - destruct (search_dead fuel count OD) as [x ->]. simpl. lia.
Qed.

Lemma game_run_budget (U : list string) (startPage endPage : string)
      (g : Game) (delivered : list (list Page)) :
  (forall n, incl (links n) U) -> (forall n, incl (linksHere n) U) ->
  game_run startPage endPage g delivered ->
  game_budget (length U) g <= 2 * length U + 2.
Proof.
  intros H1 H2.
  induction 1 as [|g delivered fuel count r g' RUN IH S1].
  - unfold game_budget, budget, unexplored. simpl. lia.
  - destruct (game_run_ok RUN) as [OK _].
    pose proof (@search_budget U fuel count g H1 H2 OK) as SB.
    rewrite S1 in SB. lia.
Qed.

(** X11 (termination).  When the two lookups answer with names of a finite
    list [U] only, every [search] call of a game returns, whatever the
    number of paths asked for, as soon as its fuel exceeds
    [2 * len(U) + 2]; it makes at most that many [explore] calls and raises
    nothing. *)
Theorem search_terminates (U : list string) (startPage endPage : string)
        (g : Game) (delivered : list (list Page)) (fuel : nat) (count : Z) :
  (forall n, incl (links n) U) -> (forall n, incl (linksHere n) U) ->
  game_run startPage endPage g delivered ->
  2 * length U + 2 < fuel ->
  exists r g',
    search fuel count g = Done (r, g')
    /\ length (explored r) <= 2 * length U + 2.
Proof.
  intros H1 H2 RUN F.
  destruct (game_run_ok RUN) as [OK _].
  pose proof (@game_run_budget U _ _ _ _ H1 H2 RUN) as GB.
  pose proof (@search_budget U fuel count g H1 H2 OK) as SB.
  destruct (search fuel count g) as [[r g']| |]; [|contradiction|lia].
  exists r, g'. split; [reflexivity|lia].
Qed.

(** ** Properties that every step of the search keeps *)

Lemma drain_keeps (Q : Game -> Prop) (fuel : nat) :
  kept_by_steps Q ->
  forall (sd : Side) (target : Z) (queueEmpty : bool) (g : Game) (tr : list Side),
  game_core g -> boundary (treeOf (otherSide sd) g) ->
  (if queueEmpty then boundary (treeOf sd g) else live (treeOf sd g)) ->
  no_backlog target g -> Q g ->
  safely (drain fuel sd target queueEmpty g tr)
         (fun r => Q (snd (fst r))).
Proof.
  intro K.
  induction fuel as [|fuel IH]; intros sd target qe g tr GC B PH NB HQ;
    rewrite drain_unfold.
  - destruct (negb qe && (searchIndex g <? target)%Z); simpl; auto.
  - destruct (negb qe && (searchIndex g <? target)%Z) eqn:C; simpl; [|auto].
    apply andb_true_iff in C. destruct C as [C1 C2].
    apply negb_true_iff in C1. subst qe. apply Z.ltb_lt in C2.
    destruct (drain_step sd GC PH B (NB C2))
      as [t' [init [cur [nxt [u [unseen [E [ST [GC1 [GG1 AT]]]]]]]]]].
    destruct (AT target) as [RM [GC2 [GG2 NB2]]].
    rewrite E. simpl bind.
    destruct (after_step_tree sd target g t' unseen) as [T1 T2].
    destruct (K sd target g t' init cur nxt u unseen GC PH B (NB C2) ST GC1 GC2 HQ)
      as [Q2 Q1].
    assert (NEXT : forall last : bool,
      (if last then boundary t' else live t') ->
      safely (drain fuel sd target last
                (after_step sd target g t' unseen) (tr ++ [sd]))
             (fun r => Q (snd (fst r)))).
    { intros last P. apply IH; auto; [now rewrite T2|now rewrite T1]. }
    destruct (step_result_cases ST) as [[R P]|[[R P]|[R P]]]; rewrite R; simpl.
    + rewrite RM. simpl bind. apply NEXT. now right.
    + rewrite RM. simpl bind. apply NEXT. assumption.
    + now apply Q1.
Qed.

Lemma outer_keeps (Q : Game -> Prop) (fuel : nat) :
  kept_by_steps Q ->
  forall (target : Z) (g : Game) (tr : list Side),
  game_core g -> both_live g -> no_backlog target g -> Q g ->
  safely (outer fuel target g tr) (fun r => Q (snd (fst r))).
Proof.
  intro K.
  induction fuel as [|fuel IH]; intros target g tr GC BL NB HQ;
    rewrite outer_unfold.
  - destruct (searchIndex g <? target)%Z; simpl; auto.
  - destruct (searchIndex g <? target)%Z eqn:C; simpl; [|auto].
    destruct (next_side_ok BL) as [LV B].
    pose proof (@drain_safe fuel (next_side g) target false g tr GC B LV NB) as DS.
    pose proof (@drain_keeps Q fuel K (next_side g) target false g tr
                  GC B LV NB HQ) as DK.
    destruct (drain fuel (next_side g) target false g tr)
      as [[[x g'] tr']| |]; simpl in *; auto.
    destruct DS as [A1 [_ [A3 [_ [_ A6]]]]].
    destruct x; simpl; [assumption|].
    now apply IH.
Qed.

Lemma search_keeps (Q : Game -> Prop) (fuel : nat) (count : Z) (g : Game) :
  kept_by_steps Q -> index_free Q -> game_ok g -> Q g ->
  safely (search fuel count g) (fun r => Q (snd r)).
Proof.
  intros K F OK HQ. pose proof OK as [GC _].
  destruct (game_ok_phase OK) as [[BL _]|[OD _]].
  - rewrite search_live by exact BL.
    destruct (serve_buffered_ok (searchIndex g + count) GC) as [GC1 [NB1 _]].
    assert (BL1 : both_live (serve_buffered (searchIndex g + count) g)).
    { rewrite serve_buffered_spec. exact BL. }
    assert (Q1 : Q (serve_buffered (searchIndex g + count) g)).
    { rewrite serve_buffered_spec. now apply F. }
    pose proof (@outer_keeps Q fuel K (searchIndex g + count) _ []
                  GC1 BL1 NB1 Q1) as OK1.
    destruct (outer fuel (searchIndex g + count)
                (serve_buffered (searchIndex g + count) g) [])
      as [[[x g'] tr]| |]; simpl in *; auto.
  - destruct (search_dead fuel count OD) as [x ->]. exact HQ.
Qed.

Lemma game_run_keeps (Q : Game -> Prop) (startPage endPage : string)
      (g : Game) (delivered : list (list Page)) :
  kept_by_steps Q -> index_free Q -> Q (Game_init startPage endPage) ->
  game_run startPage endPage g delivered -> Q g.
Proof.
  intros K F I. induction 1 as [|g delivered fuel count r g' RUN IH S1];
    [exact I|].
  destruct (game_run_ok RUN) as [OK _].
  pose proof (@search_keeps Q fuel count g K F OK IH) as SK.
  now rewrite S1 in SK.
Qed.

(** ** Walks *)

Lemma walk_front (f : string -> list string) (n : nat) :
  forall x z y, In z (f x) -> walk f n z y -> walk f (S n) x y.
Proof.
  induction n as [|n IH]; intros x z y I W.
  - simpl in W. subst z. exists x. simpl. auto.
  - destruct W as [w [W1 W2]]. exists w. split; [|assumption].
    eapply IH; eassumption.
Qed.

Lemma walk_rev (f h : string -> list string) (n : nat) :
  (forall x y, In y (f x) -> In x (h y)) ->
  forall x y, walk f n x y -> walk h n y x.
Proof.
  intro H. induction n as [|n IH]; intros x y W.
  - simpl in *. now symmetry.
  - destruct W as [z [W1 W2]]. eapply walk_front; [apply H, W2|].
    now apply IH.
Qed.

Lemma walk_split (f : string -> list string) (a b : nat) :
  forall x y, walk f (a + b) x y -> exists v, walk f a x v /\ walk f b v y.
Proof.
  induction b as [|b IH]; intros x y W.
  - rewrite Nat.add_0_r in W. exists y. split; [assumption|reflexivity].
  - rewrite Nat.add_succ_r in W. destruct W as [z [W1 W2]].
    destruct (IH x z W1) as [v [V1 V2]]. exists v. split; [assumption|].
    exists z. auto.
Qed.

(** ** Meeting pages are not missed *)

Lemma names_in_concat (ls : list PageSet) (k : nat) (l : PageSet) (n : string) :
  nth_error ls k = Some l -> In n (map getName l) ->
  In n (map getName (concat ls)).
Proof. apply in_concat_names. Qed.

(** A walk of the links no longer than the two queue levels together passes
    a name that both trees have reached. *)
Lemma connected_shares (g : Game) (d : nat) :
  (forall x y, In y (linksHere x) <-> In x (links y)) ->
  game_core g ->
  walk links d (getName (root (startTree g))) (getName (root (endTree g))) ->
  d <= queueLevel (startTree g) + queueLevel (endTree g) ->
  shares_name (startTree g) (endTree g).
Proof.
  intros H GC W D.
  set (k := Nat.min (queueLevel (startTree g)) d).
  replace d with (k + (d - k)) in W by (unfold k; lia).
  apply walk_split in W. destruct W as [v [W1 W2]].
  apply (@walk_rev links linksHere) in W2; [|intros x y; apply H].
  assert (N1 : nbrs (startTree g) = links)
    by (unfold nbrs; now rewrite (gc_start_flag GC)).
  assert (N2 : nbrs (endTree g) = linksHere)
    by (unfold nbrs; now rewrite (gc_end_flag GC)).
  rewrite <- N1 in W1. rewrite <- N2 in W2.
  destruct (@walk_placed _ (gc_start GC) k v W1 ltac:(unfold k; lia))
    as [k1 [l1 [_ [A1 A2]]]].
  destruct (@walk_placed _ (gc_end GC) (d - k) v W2 ltac:(unfold k; lia))
    as [k2 [l2 [_ [B1 B2]]]].
  exists v. split; eapply in_concat_names; eassumption.
Qed.

(** In an exhausted tree every walk from the root stays on the levels. *)
Lemma dead_closed (t : Tree) :
  levels_ok t -> dead t -> forall d y,
  walk (nbrs t) d (getName (root t)) y ->
  In y (map getName (concat (levels t))).
Proof.
  intros OK [init [LV [Q _]]]. induction d as [|d IH]; intros y W.
  - simpl in W. subst y. eapply in_concat_names; [apply (lo_first OK)|].
    simpl. auto.
  - destruct W as [z [W1 W2]]. specialize (IH z W1).
    apply concat_names_nth in IH. destruct IH as [k [l [N I]]].
    apply in_map_iff in I. destruct I as [x [X1 X2]].
    assert (E : was_explored t k x).
    { left. rewrite Q. rewrite LV in N.
      destruct (Nat.lt_ge_cases k (length init)) as [L|L]; [assumption|].
      exfalso. rewrite nth_error_app2 in N by assumption.
      destruct (k - length init) as [|m]; simpl in N.
      - injection N as <-. destruct X2.
      - destruct m; discriminate. }
    rewrite <- X1 in W2.
    destruct (lo_closed OK N X2 E y W2) as [k' [l' [_ [C1 C2]]]].
    eapply in_concat_names; eassumption.
Qed.

Lemma dead_shares (g : Game) (d : nat) :
  (forall x y, In y (linksHere x) <-> In x (links y)) ->
  game_core g -> one_dead g ->
  walk links d (getName (root (startTree g))) (getName (root (endTree g))) ->
  shares_name (startTree g) (endTree g).
Proof.
  intros H GC [[[D _]|[_ D]] _] W.
  - exists (getName (root (endTree g))). split.
    + apply (dead_closed (gc_start GC) D d).
      unfold nbrs. now rewrite (gc_start_flag GC).
    + eapply in_concat_names; [apply (lo_first (gc_end GC))|]. simpl. auto.
  - exists (getName (root (startTree g))). split.
    + eapply in_concat_names; [apply (lo_first (gc_start GC))|]. simpl. auto.
    + apply (dead_closed (gc_end GC) D d).
      unfold nbrs. rewrite (gc_end_flag GC).
      apply (@walk_rev links linksHere) in W; [assumption|intros x y; apply H].
Qed.

Lemma set_intersection_nonempty (a b : PageSet) (n : string) :
  In n (map getName a) -> In n (map getName b) -> set_intersection a b <> [].
Proof.
  intros A B. unfold set_intersection.
  apply in_map_iff in A. destruct A as [x [X1 X2]].
  apply in_map_iff in B. destruct B as [y [Y1 Y2]].
  destruct (length a <? length b).
  - intro E. assert (I : In x (filter (fun p => set_mem p b) a)).
    { apply filter_In. split; [assumption|]. apply set_mem_true.
      rewrite X1, <- Y1. now apply in_map. }
    rewrite E in I. destruct I.
  - intro E. assert (I : In y (filter (fun p => set_mem p a) b)).
    { apply filter_In. split; [assumption|]. apply set_mem_true.
      rewrite Y1, <- X1. now apply in_map. }
    rewrite E in I. destruct I.
Qed.

Lemma shares_sides (sd : Side) (g : Game) :
  shares_name (startTree g) (endTree g)
  <-> exists n, In n (map getName (concat (levels (treeOf sd g))))
                /\ In n (map getName (concat (levels (treeOf (otherSide sd) g)))).
Proof.
  unfold shares_name. destruct sd; simpl; [tauto|].
  split; intros [n [A B]]; exists n; tauto.
Qed.

Lemma tree_ok_side (sd : Side) (g : Game) :
  game_core g -> levels_ok (treeOf sd g).
Proof. intro GC. destruct sd; [apply (gc_start GC)|apply (gc_end GC)]. Qed.

Lemma consistent_sides (sd : Side) (g : Game) (x y : string) :
  (forall x y, In y (linksHere x) <-> In x (links y)) ->
  game_core g ->
  In y (nbrs (treeOf sd g) x) -> In x (nbrs (treeOf (otherSide sd) g) y).
Proof.
  intros H GC. unfold nbrs.
  destruct sd; simpl; rewrite (gc_start_flag GC), (gc_end_flag GC); apply H.
Qed.

(** A name that the explored tree shares with the other tree after a step
    was shared before, or belongs to a page that the step reports and that
    is an endpoint of the other tree. *)
Lemma step_shares (sd : Side) (g : Game) (t' : Tree)
      init cur nxt (u : Page) (unseen : PageSet) (n : string) :
  (forall x y, In y (linksHere x) <-> In x (links y)) ->
  game_core g -> boundary (treeOf (otherSide sd) g) ->
  stepped (treeOf sd g) t' init cur nxt u unseen ->
  In n (map getName (concat (levels t'))) ->
  In n (map getName (concat (levels (treeOf (otherSide sd) g)))) ->
  shares_name (startTree g) (endTree g)
  \/ set_intersection (endpoints (treeOf (otherSide sd) g)) unseen <> [].
Proof.
  intros H GC B ST N1 N2.
  pose proof ST as [OP [U [UN [LV' _]]]].
  rewrite LV', concat_grow, <- (opened_concat OP), map_app, in_app_iff in N1.
  destruct N1 as [N1|N1].
  { left. apply (shares_sides sd). exists n. auto. }
  apply concat_names_nth in N2. destruct N2 as [b [l [NB IB]]].
  destruct B as [initO [LO [QO [EO _]]]].
  destruct (Nat.lt_ge_cases b (length initO)) as [L|L].
  - left. apply (shares_sides sd). exists (getName u).
    apply in_map_iff in N1. destruct N1 as [c [C1 C2]].
    apply in_map_iff in IB. destruct IB as [x [X1 X2]].
    rewrite UN in C2. apply unseen_child in C2. destruct C2 as [_ [C2 _]].
    split.
    + assert (IC : In u cur) by (apply OP; exact U).
      assert (NC : nth_error (levels (treeOf sd g)) (length init) = Some cur).
      { destruct OP as [_ [_ [_ [_ [[LT _]|LT]]]]]; rewrite LT.
        - rewrite nth_error_app2 by lia. now rewrite Nat.sub_diag.
        - apply nth_error_cur. }
      eapply in_concat_names; [exact NC|]. now apply in_map.
    + assert (E : was_explored (treeOf (otherSide sd) g) b x)
        by (left; lia).
      assert (K : In (getName u) (nbrs (treeOf (otherSide sd) g) (getName x))).
      { rewrite X1, <- C1. now apply consistent_sides. }
      destruct (lo_closed (tree_ok_side (otherSide sd) GC) NB X2 E _ K)
        as [k' [l' [_ [K1 K2]]]].
      eapply in_concat_names; eassumption.
  - right. rewrite LO in NB. rewrite nth_error_app2 in NB by assumption.
    destruct (b - length initO) as [|m]; simpl in NB;
      [|destruct m; discriminate].
    injection NB as <-. rewrite EO.
    now apply (set_intersection_nonempty _ _ n).
Qed.

Lemma found_ok_kept (startPage endPage : string) :
  (forall x y, In y (linksHere x) <-> In x (links y)) ->
  kept_by_steps (found_ok startPage endPage).
Proof.
  intros H sd target g t' init cur nxt u unseen GC LV B SI ST GC1 GC2
         [R1 [R2 [I1 I2]]].
  pose proof ST as [OP [U [UN [LV' [_ [RT [_ PH]]]]]]].
  assert (RS : getName (root (startTree (setTree sd t' g))) = startPage)
    by (destruct sd; simpl in *; [now rewrite RT|assumption]).
  assert (RE : getName (root (endTree (setTree sd t' g))) = endPage)
    by (destruct sd; simpl in *; [assumption|now rewrite RT]).
  split.
  - split; [exact RS|]. split; [exact RE|]. split.
    + intro SH. apply (shares_sides sd) in SH. destruct SH as [n [A B']].
      destruct (after_step_tree sd target g t' unseen) as [T1 T2].
      rewrite T1 in A. rewrite T2 in B'.
      destruct (@step_shares sd g t' init cur nxt u unseen n H GC B ST A B') as [OLD|NEW].
      * specialize (I1 OLD). unfold after_step. simpl.
        destruct (paths g); [now elim I1|discriminate].
      * unfold after_step. cbn [paths]. rewrite setTree_other.
        intro E. apply app_eq_nil in E. destruct E as [_ E].
        unfold found_paths in E. apply map_eq_nil in E. contradiction.
    + intros p d HD W.
      unfold after_step in HD. cbn [paths] in HD.
      destruct (paths g) as [|p0 rest] eqn:PG.
      * simpl in HD.
        destruct (step_meets sd GC B ST) as [i [j [IJ M]]].
        assert (IP : In p (found_paths (startTree (setTree sd t' g))
                             (endTree (setTree sd t' g))
                             (set_intersection
                                (endpoints (treeOf (otherSide sd) (setTree sd t' g)))
                                unseen))).
        { destruct (found_paths _ _ _); [discriminate|].
          injection HD as ->. now left. }
        rewrite setTree_other in IP.
        pose proof (@meets_joins _ _ i j _ M p IP) as J.
        rewrite (@joins_length _ _ i j p (gc_start GC1) (gc_start_root GC1)
                   (gc_end GC1) (gc_end_root GC1) J).
        destruct (Nat.le_gt_cases (i + j + 1) (d + 1)) as [L|L]; [exact L|].
        exfalso. apply I1; [|reflexivity].
        apply (@connected_shares g d H GC); [now rewrite R1, R2|].
        unfold path_len_now in IJ. lia.
      * simpl in HD. exact (I2 p d HD W).
  - intro D.
    assert (UE : unseen = []).
    { destruct D as [_ [_ [_ [QE _]]]].
      destruct PH as [[NE [Q1 _]]|[_ [Q1 _]]].
      - rewrite Q1 in QE. contradiction.
      - rewrite QE in Q1. symmetry in Q1. apply app_eq_nil in Q1. tauto. }
    split; [exact RS|]. split; [exact RE|]. split.
    + intro SH. apply (shares_sides sd) in SH. destruct SH as [n [A B']].
      rewrite setTree_same in A. rewrite setTree_other in B'.
      rewrite setTree_paths. apply I1. apply (shares_sides sd). exists n.
      split; [|exact B'].
      rewrite LV', concat_grow, <- (opened_concat OP), UE, app_nil_r in A.
      exact A.
    + rewrite setTree_paths. exact I2.
Qed.

Lemma found_ok_index_free (startPage endPage : string) :
  index_free (found_ok startPage endPage).
Proof. intros g si Q. exact Q. Qed.

Lemma found_ok_init (startPage endPage : string) :
  startPage <> endPage -> found_ok startPage endPage (Game_init startPage endPage).
Proof.
  intro N. split; [reflexivity|]. split; [reflexivity|]. split.
  - intros [n [[A|[]] [B|[]]]]. simpl in A, B. congruence.
  - intros p d HD. discriminate.
Qed.

Lemma hd_error_firstn (A : Type) (n : nat) (l : list A) (x : A) :
  hd_error (firstn n l) = Some x -> hd_error l = Some x.
Proof. destruct n, l; simpl; congruence. Qed.

Lemma paged_run_cursor (startPage endPage : string) (g : Game)
      (delivered : list (list Page)) :
  paged_run startPage endPage g delivered ->
  Z.of_nat (length delivered) = searchIndex g
  /\ forall p, hd_error delivered = Some p -> hd_error (paths g) = Some p.
Proof.
  induction 1 as [|g delivered fuel count r g' RUN [IH1 IH2] C S1];
    [split; [reflexivity|discriminate]|].
  apply paged_run_game_run in RUN. destruct (game_run_ok RUN) as [OK _].
  destruct (@search_cursor_step fuel count g r g' OK C S1)
    as [R [A [B [D [E [_ [found PF]]]]]]].
  split.
  - rewrite length_app, R, length_firstn, length_skipn. lia.
  - intros p HD. destruct delivered as [|q delivered].
    + simpl in HD, IH1. rewrite R, <- IH1 in HD. simpl in HD.
      now apply hd_error_firstn in HD.
    + simpl in HD. rewrite PF. apply hd_error_app. now apply IH2.
Qed.

(** X19 (the first path is a shortest one).  When [linksHere] gives exactly
    the pages that link to the page looked up, the two pages of a game
    differ and its [search] calls ask for numbers of paths that are not
    negative, the first path the game returns leads from the starting page
    to the ending page along the links and has no more pages than any other
    walk along the links between the two has. *)
Theorem first_path_shortest (startPage endPage : string) (g : Game)
        (delivered : list (list Page)) (p : list Page) :
  (forall x y, In y (linksHere x) <-> In x (links y)) ->
  startPage <> endPage ->
  paged_run startPage endPage g delivered ->
  hd_error delivered = Some p ->
  linked links (map getName p)
  /\ hd_error (map getName p) = Some startPage
  /\ last (map getName p) EmptyString = endPage
  /\ forall d, walk links d startPage endPage -> length p <= d + 1.
Proof.
  intros H N PR HD.
  pose proof (paged_run_game_run PR) as RUN.
  assert (P : In p delivered) by (destruct delivered; [discriminate|];
    injection HD as ->; now left).
  destruct (@delivered_path_facts _ _ _ _ p RUN P) as [_ [H1 [H2 H3]]].
  split; [apply H3; intros x y; apply H|]. split; [exact H1|].
  split; [exact H2|].
  intros d W.
  pose proof (@game_run_keeps (found_ok startPage endPage) _ _ _ _
                (@found_ok_kept startPage endPage H)
                (@found_ok_index_free startPage endPage)
                (@found_ok_init startPage endPage N) RUN) as [_ [_ [_ F]]].
  apply (F p d); [|exact W].
  now apply (proj2 (paged_run_cursor PR)).
Qed.

(** How a [search] call ends: through the regular exit, with the cursor at
    its target and both trees still to explore, or through another exit,
    with a tree exhausted and, unless nothing was done, the cursor short of
    the target. *)
Lemma search_exit_cases (fuel : nat) (count : Z) (g : Game)
      (r : SearchResult) (g' : Game) :
  game_ok g -> search fuel count g = Done (r, g') ->
  (exit r = Completed /\ both_live g'
   /\ (searchIndex g + count <= searchIndex g')%Z)
  \/ (exit r <> Completed /\ one_dead g'
      /\ (g' = g \/ (searchIndex g' < searchIndex g + count)%Z)).
Proof.
  intros OK S1.
  pose proof (search_safe fuel count OK) as SS. rewrite S1 in SS.
  destruct SS as [_ [_ [[OD [E [_ [_ X]]]]|[_ [_ [OP _]]]]]].
  - right. subst g'. split; [|split; [exact OD|now left]].
    destruct X as [X|X]; rewrite X; discriminate.
  - destruct OP as [_ [_ [_ [_ [_ OP]]]]].
    destruct (exit r); try contradiction.
    + right. split; [discriminate|]. split; [apply OP|right; apply OP].
    + right. split; [discriminate|]. split; [apply OP|right; apply OP].
    + left. split; [reflexivity|]. exact OP.
Qed.

(** X20 (a path is found when there is one).  When [linksHere] gives
    exactly the pages that link to the page looked up, both lookups answer
    with names of a finite list [U] only, and some walk along the links
    leads from the starting page to a different ending page, [search(1)] on
    a fresh game returns one path, through the regular exit, as soon as its
    fuel exceeds [2 * len(U) + 2]; the path has no more pages than the
    walk. *)
Theorem search_finds_path (U : list string) (startPage endPage : string)
        (d fuel : nat) :
  (forall x y, In y (linksHere x) <-> In x (links y)) ->
  (forall n, incl (links n) U) -> (forall n, incl (linksHere n) U) ->
  startPage <> endPage ->
  walk links d startPage endPage ->
  2 * length U + 2 < fuel ->
  exists r g' p,
    search fuel 1 (Game_init startPage endPage) = Done (r, g')
    /\ ret r = [p]
    /\ exit r = Completed
    /\ length p <= d + 1.
Proof.
  intros H H1 H2 N W F.
  pose proof (Game_init_ok startPage endPage) as OK.
  pose proof (@search_budget U fuel 1 _ H1 H2 OK) as SB.
  assert (GB : game_budget (length U) (Game_init startPage endPage)
               = 2 * length U + 2).
  { unfold game_budget, budget, unexplored. simpl. lia. }
  destruct (search fuel 1 (Game_init startPage endPage)) as [[r g']| |] eqn:S1;
    [|contradiction|lia].
  pose proof (@paged_search startPage endPage _ _ fuel 1%Z r g'
                (paged_init startPage endPage) ltac:(lia) S1) as PR.
  simpl in PR.
  pose proof (paged_run_game_run PR) as RUN.
  destruct (game_run_ok RUN) as [[GC _] _].
  destruct (game_run_roots RUN) as [RS RE].
  pose proof (@game_run_keeps (found_ok startPage endPage) _ _ _ _
                (@found_ok_kept startPage endPage H)
                (@found_ok_index_free startPage endPage)
                (@found_ok_init startPage endPage N) RUN) as [_ [_ [F1 F2]]].
  destruct (@search_cursor_step fuel 1 _ r g' OK ltac:(lia) S1)
    as [R [A [B [D [_ _]]]]].
  simpl in R, A, B.
  destruct (@search_exit_cases fuel 1 _ r g' OK S1) as [[X [_ T]]|[_ [OD [E|T]]]].
  - simpl in T. assert (SI : searchIndex g' = 1%Z) by lia.
    rewrite SI in R, D. rewrite Z.sub_0_r in R. simpl in R.
    destruct (paths g') as [|p rest] eqn:PG; [simpl in D; lia|].
    simpl in R. exists r, g', p. split; [reflexivity|].
    split; [exact R|]. split; [exact X|].
    apply (F2 p d); [reflexivity|exact W].
  - exfalso. subst g'. destruct OD as [[[DD _]|[_ DD]] _];
      apply dead_endpoints in DD; discriminate.
  - exfalso. simpl in T.
    assert (SH : shares_name (startTree g') (endTree g')).
    { apply (@dead_shares g' d H GC OD). now rewrite RS, RE. }
    specialize (F1 SH). destruct OD as [_ OD].
    destruct (paths g'); [now elim F1|simpl in OD; lia].
Qed.

(** ** No path is found twice *)

Lemma filter_names_NoDup (keep : Page -> bool) (s : PageSet) :
  NoDup (map getName s) -> NoDup (map getName (filter keep s)).
Proof.
  induction s as [|x s IH]; simpl; [auto|]. intro N.
  inversion N as [|? ? N1 N2]; subst.
  destruct (keep x); simpl; [|auto]. constructor; [|auto].
  intro I. apply N1. apply in_map_iff in I. destruct I as [y [Y1 Y2]].
  apply filter_In in Y2. apply in_map_iff. exists y. tauto.
Qed.

Lemma NoDup_map_key (A B C : Type) (h : A -> C) (f : A -> B) (k : B -> C)
      (l : list A) :
  (forall a, In a l -> k (f a) = h a) ->
  NoDup (map h l) -> NoDup (map f l).
Proof.
  induction l as [|a l IH]; simpl; intros K N; [constructor|].
  inversion N as [|? ? N1 N2]; subst. constructor.
  - intro I. apply N1. apply in_map_iff in I. destruct I as [x [X1 X2]].
    apply in_map_iff. exists x. split; [|assumption].
    rewrite <- (K x) by auto. rewrite X1. apply K. now left.
  - apply IH; auto.
Qed.

Lemma boundary_midlevel (t : Tree) : boundary t -> midlevel t -> False.
Proof.
  intros B M. apply boundary_shape in B. apply midlevel_shape in M. lia.
Qed.

Lemma mids_NoDup (o : Tree) (unseen : PageSet) :
  NoDup (map getName unseen) ->
  NoDup (map getName (endpoints o)) ->
  NoDup (map getName (set_intersection (endpoints o) unseen)).
Proof.
  intros N1 N2. unfold set_intersection.
  destruct (length (endpoints o) <? length unseen);
    now apply filter_names_NoDup.
Qed.

Lemma boundary_endpoints_NoDup (t : Tree) :
  levels_ok t -> boundary t -> NoDup (map getName (endpoints t)).
Proof.
  intros OK [init [LV [_ [E _]]]]. rewrite E.
  pose proof (lo_nodup OK) as N. rewrite LV, concat_app, map_app in N.
  apply NoDup_app_remove_l in N. simpl in N. now rewrite app_nil_r in N.
Qed.

Lemma nth_error_mid (a b : list Page) (mid : Page) :
  nth_error (names (rev a ++ mid :: b)) (length a) = Some (getName mid).
Proof.
  unfold names. rewrite map_app, nth_error_app2;
    rewrite length_map, length_rev; [|lia].
  now rewrite Nat.sub_diag.
Qed.

(** The path that [Game.__getPath] builds for the meeting page [mid]
    between the trees [s] and [e]. *)
Lemma found_paths_map (s e : Tree) (mids : list Page) :
  found_paths s e mids
  = map (fun mid =>
           match find_eq mid (endpoints s), find_eq mid (endpoints e) with
           | Some startMid, Some endMid =>
               rev (ancestors startMid) ++ mid :: ancestors endMid
           | _, _ => []
           end) mids.
Proof. reflexivity. Qed.

(** A path found by a step has the meeting page at [mid_index], and as
    many pages as the paths found now. *)
Lemma found_path_mid (sd : Side) (g : Game) (t' : Tree)
      init cur nxt (u : Page) (unseen : PageSet) (mid : Page) :
  game_core g -> boundary (treeOf (otherSide sd) g) ->
  stepped (treeOf sd g) t' init cur nxt u unseen ->
  game_core (setTree sd t' g) ->
  In mid (set_intersection (endpoints (treeOf (otherSide sd) g)) unseen) ->
  forall p,
  p = match find_eq mid (endpoints (startTree (setTree sd t' g))),
            find_eq mid (endpoints (endTree (setTree sd t' g))) with
      | Some a, Some b => rev (ancestors a) ++ mid :: ancestors b
      | _, _ => []
      end ->
  length p = path_len_now g
  /\ nth_error (names p) (mid_index sd g) = Some (getName mid)
  /\ In (getName mid) (map getName unseen)
  /\ ~ In (getName mid) (map getName (concat (levels (treeOf sd g)))).
Proof.
  intros GC B ST GC1 I p E.
  destruct (step_meets sd GC B ST) as [i [j [IJ M]]].
  assert (IP : In p (found_paths (startTree (setTree sd t' g))
                       (endTree (setTree sd t' g))
                       (set_intersection (endpoints (treeOf (otherSide sd) g))
                                         unseen))).
  { rewrite found_paths_map. apply in_map_iff. exists mid. now split. }
  pose proof (@meets_joins _ _ i j _ M p IP) as J.
  split.
  { rewrite (@joins_length _ _ i j p (gc_start GC1) (gc_start_root GC1)
               (gc_end GC1) (gc_end_root GC1) J). exact IJ. }
  assert (OK' : levels_ok t').
  { eapply stepped_levels_ok; [|eassumption]. now apply tree_ok_side. }
  pose proof I as I'. apply set_intersection_In in I'. destruct I' as [M1 M2].
  destruct (explored_meets mid OK' ST M2) as [x [l [X1 [X2 [X3 X4]]]]].
  destruct (boundary_meets mid B M1) as [y [l' [Y1 [Y2 [Y3 Y4]]]]].
  split; [|split; [exact M2|]].
  - subst p. destruct sd;
      cbn [setTree treeOf otherSide startTree endTree mid_index] in *.
    + rewrite X1, Y1.
      rewrite <- (@level_depth t' OK' (gc_start_root GC1) _ _ x X2 X3).
      apply nth_error_mid.
    + rewrite X1, Y1.
      rewrite <- (@level_depth (startTree g) (gc_start GC) (gc_start_root GC)
                    _ _ y Y2 Y3).
      apply nth_error_mid.
  - pose proof ST as [OP [_ [UN _]]].
    apply in_map_iff in M2. destruct M2 as [c [C1 C2]].
    rewrite UN in C2. apply unseen_child in C2. destruct C2 as [_ [_ C2]].
    rewrite set_union_all_names, <- (opened_concat OP), C1 in C2. exact C2.
Qed.

Lemma NoDup_app_intro (A : Type) (a b : list A) :
  NoDup a -> NoDup b -> (forall x, In x a -> ~ In x b) -> NoDup (a ++ b).
Proof.
  induction a as [|x a IH]; simpl; intros Na Nb D; [assumption|].
  inversion Na as [|? ? N1 N2]; subst. constructor.
  - intro I. apply in_app_or in I. destruct I as [I|I]; [contradiction|].
    apply (D x); auto.
  - apply IH; auto.
Qed.

Lemma path_len_setTree_eq (sd : Side) (t' : Tree) (g : Game) :
  path_len_now (setTree sd t' g) + queueLevel (treeOf sd g)
  = path_len_now g + queueLevel t'.
Proof. unfold path_len_now. destruct sd; simpl; lia. Qed.

Lemma mid_index_setTree (sd : Side) (t' : Tree) (g : Game) :
  queueLevel t' = queueLevel (treeOf sd g) ->
  mid_index sd (setTree sd t' g) = mid_index sd g.
Proof. destruct sd; simpl; intro H; now rewrite ?H. Qed.

Lemma paths_distinct_kept : kept_by_steps paths_distinct.
Proof.
  intros sd target g t' init cur nxt u unseen GC LV B SI ST GC1 GC2 [ND MID].
  pose proof ST as [OP [U [UN [LV' [_ [RT [FL PH]]]]]]].
  set (mids := set_intersection (endpoints (treeOf (otherSide sd) g)) unseen).
  set (F := fun mid : Page =>
         match find_eq mid (endpoints (startTree (setTree sd t' g))),
               find_eq mid (endpoints (endTree (setTree sd t' g))) with
         | Some a, Some b => rev (ancestors a) ++ mid :: ancestors b
         | _, _ => []
         end).
  assert (PA : paths (after_step sd target g t' unseen) = paths g ++ map F mids).
  { unfold after_step. cbn [paths]. now rewrite setTree_other. }
  assert (F1 : forall mid, In mid mids ->
             length (F mid) = path_len_now g
             /\ nth_error (names (F mid)) (mid_index sd g) = Some (getName mid)
             /\ In (getName mid) (map getName unseen)
             /\ ~ In (getName mid)
                  (map getName (concat (levels (treeOf sd g))))).
  { intros mid I.
    apply (@found_path_mid sd g t' init cur nxt u unseen mid GC B ST GC1 I).
    reflexivity. }
  assert (F3 : NoDup (map getName mids)).
  { apply mids_NoDup.
    - rewrite UN. apply set_difference_NoDup, getChildren_NoDup.
    - apply boundary_endpoints_NoDup; [now apply tree_ok_side|exact B]. }
  assert (F5 : forall q, In q (paths g) -> length q = path_len_now g ->
             exists n, nth_error (names q) (mid_index sd g) = Some n
                       /\ In n (map getName (concat (levels (treeOf sd g))))).
  { intros q Q L. destruct (MID q Q L) as [sd0 [n [M0 [N0 I0]]]].
    destruct sd, sd0; try (exists n; now split);
      exfalso; eapply boundary_midlevel; eassumption. }
  assert (CC : concat (levels t') = concat (levels (treeOf sd g)) ++ unseen).
  { now rewrite LV', concat_grow, <- (opened_concat OP). }
  assert (PL := path_len_setTree_eq sd t' g).
  assert (AL : path_len_now (after_step sd target g t' unseen)
               = path_len_now (setTree sd t' g)).
  { unfold path_len_now, after_step. reflexivity. }
  split.
  - split.
    + rewrite PA, map_app. apply NoDup_app_intro; [exact ND| |].
      * rewrite map_map.
        apply (@NoDup_map_key _ _ _ (fun mid => Some (getName mid))
                 (fun mid => names (F mid))
                 (fun ns => nth_error ns (mid_index sd g))).
        -- intros mid I. apply F1, I.
        -- apply (@NoDup_map_key _ _ _ getName
                    (fun mid => Some (getName mid))
                    (fun o => match o with Some n => n | None => EmptyString end));
             [reflexivity|exact F3].
      * intros ns I1 I2.
        apply in_map_iff in I1. destruct I1 as [q [Q1 Q2]].
        apply in_map_iff in I2. destruct I2 as [p [P1 P2]].
        apply in_map_iff in P2. destruct P2 as [mid [E I]]. subst p.
        destruct (F1 mid I) as [L [N [_ NI]]].
        assert (LQ : length q = path_len_now g).
        { rewrite <- L. rewrite <- (length_map getName q),
            <- (length_map getName (F mid)).
          unfold names in Q1, P1. now rewrite Q1, P1. }
        destruct (F5 q Q2 LQ) as [n [N' I']].
        rewrite Q1, <- P1, N in N'. injection N' as <-. contradiction.
    + intros q Q L. rewrite AL in L.
      destruct PH as [[NE [Q1 Q2]]|[E [Q1 Q2]]].
      * assert (L' : length q = path_len_now g) by lia.
        exists sd.
        destruct (after_step_tree sd target g t' unseen) as [T1 _].
        rewrite T1.
        assert (MI : mid_index sd (after_step sd target g t' unseen)
                     = mid_index sd g).
        { rewrite <- (mid_index_setTree sd t' g Q2). reflexivity. }
        rewrite MI.
        assert (ML : midlevel t').
        { destruct (stepped_phase ST) as [[_ M]|[[X _]|[X _]]];
            [exact M|contradiction|contradiction]. }
        rewrite PA in Q. apply in_app_or in Q. destruct Q as [Q|Q].
        -- destruct (F5 q Q L') as [n [N I]]. exists n.
           split; [exact ML|]. split; [exact N|].
           rewrite CC, map_app. apply in_or_app. now left.
        -- apply in_map_iff in Q. destruct Q as [mid [<- I]].
           destruct (F1 mid I) as [_ [N [IU _]]]. exists (getName mid).
           split; [exact ML|]. split; [exact N|].
           rewrite CC, map_app. apply in_or_app. now right.
      * exfalso. rewrite PA in Q. apply in_app_or in Q. destruct Q as [Q|Q].
        -- pose proof (@old_path_length g q GC Q). lia.
        -- apply in_map_iff in Q. destruct Q as [mid [<- I]].
           destruct (F1 mid I) as [L1 _]. lia.
  - intro D. split; [rewrite setTree_paths; exact ND|].
    intros q Q L. exfalso. rewrite setTree_paths in Q.
    assert (Q2 : queueLevel t' = S (queueLevel (treeOf sd g))).
    { destruct PH as [[NE [Q1 _]]|[_ [_ Q2]]]; [|exact Q2].
      destruct D as [_ [_ [_ [QE _]]]]. rewrite Q1 in QE. contradiction. }
    pose proof (@old_path_length g q GC Q). lia.
Qed.

Lemma paths_distinct_index_free : index_free paths_distinct.
Proof. intros g si Q. exact Q. Qed.

Lemma paths_distinct_init (startPage endPage : string) :
  paths_distinct (Game_init startPage endPage).
Proof. split; [constructor|intros q []]. Qed.

Lemma paged_run_sub (startPage endPage : string) (g : Game)
      (delivered : list (list Page)) :
  paged_run startPage endPage g delivered ->
  exists rest, paths g = delivered ++ rest.
Proof.
  induction 1 as [|g delivered fuel count r g' PR [rest IH] C S1];
    [exists []; reflexivity|].
  pose proof (paged_run_game_run PR) as RUN.
  destruct (game_run_ok RUN) as [OK _].
  destruct (paged_run_cursor PR) as [LEN _].
  destruct (@search_cursor_step fuel count g r g' OK C S1)
    as [R [_ [_ [_ [_ [_ [found PF]]]]]]].
  rewrite PF, IH, <- LEN, Nat2Z.id, <- app_assoc, skipn_app_exact in R.
  exists (skipn (Z.to_nat (searchIndex g' - Z.of_nat (length delivered)))
                (rest ++ found)).
  rewrite PF, IH, R, <- !app_assoc. f_equal.
  symmetry. apply firstn_skipn.
Qed.

(** X21 (no path twice).  No two of the paths that a game has found visit
    the same page names in the same order, and when its [search] calls ask
    for numbers of paths that are not negative, no two of the paths they
    have returned do. *)
Theorem paths_never_repeat (startPage endPage : string) (g : Game)
        (delivered : list (list Page)) :
  paged_run startPage endPage g delivered ->
  NoDup (map names (paths g)) /\ NoDup (map names delivered).
Proof.
  intro PR. pose proof (paged_run_game_run PR) as RUN.
  pose proof (@game_run_keeps paths_distinct _ _ _ _
                paths_distinct_kept paths_distinct_index_free
                (paths_distinct_init startPage endPage) RUN) as [ND _].
  split; [exact ND|].
  destruct (paged_run_sub PR) as [rest E].
  rewrite E, map_app in ND. eapply NoDup_app_remove_r. exact ND.
Qed.

(** ** The tree explored next *)

Lemma next_side_buffered (target : Z) (g : Game) :
  next_side (serve_buffered target g) = next_side g.
Proof. rewrite serve_buffered_spec. reflexivity. Qed.

Lemma chooseStart_boundary (g : Game) :
  boundary (startTree g) -> boundary (endTree g) ->
  chooseStart g
  = (length (endpoints (startTree g)) <=? length (endpoints (endTree g))).
Proof.
  intros B1 B2. apply boundary_shape in B1, B2. unfold chooseStart.
  replace (Z.of_nat (queueLevel (startTree g))
           =? Z.of_nat (length (levels (startTree g))) - 2)%Z with false
    by (symmetry; apply Z.eqb_neq; lia).
  replace (Z.of_nat (queueLevel (endTree g))
           =? Z.of_nat (length (levels (endTree g))) - 1)%Z with true
    by (symmetry; apply Z.eqb_eq; lia).
  simpl.
  destruct (Nat.leb_spec (length (endpoints (startTree g)))
              (length (endpoints (endTree g)))).
  - apply Z.leb_le. lia.
  - apply Z.leb_gt. lia.
Qed.

(** X22 (the tree explored next).  The first [explore] call of a [search]
    call goes to the tree the test of line 283 selects in the state the
    game was left in: the tree that was left inside a level, if there is
    one, and otherwise the tree with the fewer endpoints, the starting tree
    when both have as many. *)
Theorem next_tree_explored (startPage endPage : string) (g : Game)
        (delivered : list (list Page)) (fuel : nat) (count : Z)
        (r : SearchResult) (g' : Game) (side : Side) (rest : list Side) :
  game_run startPage endPage g delivered ->
  search fuel count g = Done (r, g') ->
  explored r = side :: rest ->
  side = (if chooseStart g then Start else End)
  /\ (midlevel (startTree g) -> side = Start)
  /\ (midlevel (endTree g) -> side = End)
  /\ (boundary (startTree g) -> boundary (endTree g) ->
      (side = Start
       <-> length (endpoints (startTree g)) <= length (endpoints (endTree g)))).
Proof.
  intros RUN S1 X. destruct (game_run_ok RUN) as [OK _].
  pose proof (search_safe fuel count OK) as SS. rewrite S1 in SS.
  destruct SS as [_ [_ [[_ [_ [_ [E _]]]]|[BL [O [OP _]]]]]];
    [rewrite E in X; discriminate|].
  assert (SD : side = next_side g).
  { destruct OP as [_ [_ [_ [_ [[tr2 [T1 T2]] _]]]]]. simpl in T1. subst tr2.
    destruct (Z.lt_ge_cases
                (searchIndex (serve_buffered (searchIndex g + count) g))
                (searchIndex g + count)) as [L|L].
    - destruct (T2 L) as [rest' T]. rewrite X, next_side_buffered in T.
      now injection T.
    - rewrite outer_stop in O by assumption. injection O as _ _ O.
      rewrite <- O in X. discriminate. }
  split; [exact SD|]. destruct BL as [L1 [L2 B]]. split; [|split].
  - intro M. rewrite SD. apply (@next_side_mid Start g); [exact M|].
    destruct B as [B|B]; [|exact B]. exfalso.
    eapply boundary_midlevel; eassumption.
  - intro M. rewrite SD. apply (@next_side_mid End g); [exact M|].
    destruct B as [B|B]; [exact B|]. exfalso.
    eapply boundary_midlevel; eassumption.
  - intros B1 B2. rewrite SD. unfold next_side.
    rewrite (@chooseStart_boundary g B1 B2).
    destruct (Nat.leb_spec (length (endpoints (startTree g)))
                (length (endpoints (endTree g)))) as [LE|GT];
      split; intro K; try reflexivity; try assumption; try discriminate; lia.
Qed.

(** ** Pagination in general *)

(** X25 (pagination, any two counts).  In every state of a game and for
    any two numbers [a] and [b] that are not negative, [search(a)] followed
    by [search(b)] and a single [search(a + b)] do the same: if the single
    call returns, so do the two calls on the same fuel, and if the two
    calls return, so does the single one on the sum of their fuels; the
    paths returned by the two calls, put end to end, are the paths of the
    single call, the [explore] calls made are the same, and the game is
    left in the same state. *)
Theorem pagination_any_counts (startPage endPage : string) (g : Game)
        (delivered : list (list Page)) (a b : Z) :
  game_run startPage endPage g delivered ->
  (0 <= a)%Z -> (0 <= b)%Z ->
  (forall fuel r g2,
     search fuel (a + b) g = Done (r, g2) ->
     exists ra g1 rb,
       search fuel a g = Done (ra, g1)
       /\ search fuel b g1 = Done (rb, g2)
       /\ ret ra ++ ret rb = ret r
       /\ explored ra ++ explored rb = explored r)
  /\ (forall f1 f2 ra g1 rb g2,
        search f1 a g = Done (ra, g1) ->
        search f2 b g1 = Done (rb, g2) ->
        exists r,
          search (f1 + f2) (a + b) g = Done (r, g2)
          /\ ret r = ret ra ++ ret rb
          /\ explored r = explored ra ++ explored rb).
Proof.
  intros RUN A B. destruct (game_run_ok RUN) as [OK _]. split.
  - intros fuel r g2 S1. now apply (search_split fuel OK).
  - intros f1 f2 ra g1 rb g2 S1 S2.
    now apply (@search_join f1 f2 a b g ra rb g1 g2 OK).
Qed.

(** ** The parents of the pages of a tree *)

(** X27 (parents).  In every state of a tree reached by successful
    [explore] calls, level 0 holds the root alone, and the parent of a page
    on a level above is a page of the level just below whose lookup names
    the page; when the root has no parent, following the parents from a
    page on level [k] passes [k] pages and ends at the root. *)
Theorem tree_parents (r : Page) (starting : bool) (t : Tree) :
  tree_reachable r starting t ->
  nth_error (levels t) 0 = Some [r]
  /\ (forall k l p, nth_error (levels t) (S k) = Some l -> In p l ->
        exists q lq, getParent p = Some q
                     /\ nth_error (levels t) k = Some lq /\ In q lq
                     /\ In (getName p) (nbrs t (getName q)))
  /\ (getParent r = None ->
      forall k l p, nth_error (levels t) k = Some l -> In p l ->
        length (ancestors p) = k /\ last (ancestors p) p = r).
Proof.
  intro RT. destruct (tree_reachable_ok RT) as [OK [_ [R _]]].
  split; [rewrite <- R; apply (lo_first OK)|]. split.
  - intros k l p N I.
    destruct (lo_level OK (S k) p N I) as [q [lq [H1 [H2 [H3 H4]]]]].
    exists q, lq. auto.
  - intros P k l p N I. rewrite <- R in P. split.
    + eapply level_depth; eassumption.
    + rewrite <- R. eapply level_chain_root; eassumption.
Qed.

End Search.

(** * Page names, links and path strings *)

(** ** Strings *)

Lemma replace_char_app (a b : ascii) (x y : string) :
  replace_char a b (x ++ y) = (replace_char a b x ++ replace_char a b y)%string.
Proof. induction x as [|c x IH]; simpl; [reflexivity|]. now rewrite IH. Qed.

Lemma replace_char_drop (a b : ascii) (n : nat) (s : string) :
  str_drop n (replace_char a b s) = replace_char a b (str_drop n s).
Proof.
  revert s. induction n as [|n IH]; intros [|c s]; simpl; auto.
Qed.

Lemma replace_char_back (a b : ascii) (s : string) :
  replace_char b a (replace_char a b s) = replace_char b a s.
Proof.
  induction s as [|c s IH]; simpl; [reflexivity|]. rewrite IH. f_equal.
  destruct (Ascii.eqb_spec c a) as [->|N].
  - rewrite Ascii.eqb_refl. now destruct (Ascii.eqb_spec a b).
  - reflexivity.
Qed.

Lemma replace_char_absent (a b : ascii) (s : string) :
  str_contains a s = false -> replace_char a b s = s.
Proof.
  induction s as [|c s IH]; simpl; [reflexivity|].
  intro H. apply orb_false_iff in H. destruct H as [H1 H2].
  now rewrite H1, IH.
Qed.

Lemma replace_char_gone (a b : ascii) (s : string) :
  a <> b -> str_contains a (replace_char a b s) = false.
Proof.
  intro N. induction s as [|c s IH]; simpl; [reflexivity|]. rewrite IH.
  destruct (Ascii.eqb_spec c a) as [->|M].
  - apply orb_false_iff. split; [|reflexivity].
    apply Ascii.eqb_neq. congruence.
  - apply orb_false_iff. split; [|reflexivity]. now apply Ascii.eqb_neq.
Qed.

Lemma str_contains_app (c : ascii) (x y : string) :
  str_contains c (x ++ y) = str_contains c x || str_contains c y.
Proof.
  induction x as [|d x IH]; simpl; [reflexivity|]. now rewrite IH, orb_assoc.
Qed.

Lemma str_contains_drop (c : ascii) (n : nat) (s : string) :
  str_contains c s = false -> str_contains c (str_drop n s) = false.
Proof.
  revert s. induction n as [|n IH]; intros [|d s]; simpl; auto.
  intro H. apply orb_false_iff in H. now apply IH.
Qed.

Lemma str_contains_take (c : ascii) (n : nat) (s : string) :
  str_contains c s = false -> str_contains c (str_take n s) = false.
Proof.
  revert s. induction n as [|n IH]; intros [|d s]; simpl; auto.
  intro H. apply orb_false_iff in H. destruct H as [H1 H2].
  now rewrite H1, IH.
Qed.

Lemma str_find_take (c : ascii) (s : string) (pos : nat) :
  str_find c s = Some pos -> str_contains c (str_take pos s) = false.
Proof.
  revert pos. induction s as [|d s IH]; intros pos; simpl; [discriminate|].
  destruct (Ascii.eqb d c) eqn:E.
  - intro H. injection H as <-. reflexivity.
  - destruct (str_find c s) as [n|]; [|discriminate].
    intro H. injection H as <-. simpl. now rewrite E, IH.
Qed.

Lemma str_find_none (c : ascii) (s : string) :
  str_find c s = None -> str_contains c s = false.
Proof.
  induction s as [|d s IH]; simpl; [reflexivity|].
  destruct (Ascii.eqb d c); [discriminate|].
  destruct (str_find c s); [discriminate|]. auto.
Qed.

Lemma prefix_app (p s : string) : String.prefix p (p ++ s) = true.
Proof.
  induction p as [|c p IH]; simpl; [now destruct s|].
  now destruct (ascii_dec c c).
Qed.

Lemma prefix_drop (p s : string) :
  String.prefix p s = true -> s = (p ++ str_drop (String.length p) s)%string.
Proof.
  revert s. induction p as [|c p IH]; intros s; [reflexivity|].
  destruct s as [|d s]; simpl; [discriminate|].
  destruct (ascii_dec c d) as [->|]; [|discriminate].
  intro H. now rewrite <- (IH s H).
Qed.

Lemma str_drop_app (p s : string) : str_drop (String.length p) (p ++ s) = s.
Proof. induction p; simpl; auto. Qed.

Lemma prefix_replace (a b : ascii) (p s : string) :
  str_contains a p = false -> str_contains b p = false ->
  String.prefix p (replace_char a b s) = String.prefix p s.
Proof.
  revert s. induction p as [|c p IH]; intros s; simpl; [now destruct s|].
  intros H1 H2. apply orb_false_iff in H1, H2.
  destruct H1 as [A1 A2], H2 as [B1 B2].
  destruct s as [|d s]; simpl; [reflexivity|].
  rewrite IH by assumption.
  apply Ascii.eqb_neq in A1, B1.
  destruct (Ascii.eqb_spec d a) as [->|N].
  - destruct (ascii_dec c b); [congruence|].
    destruct (ascii_dec c a); [congruence|reflexivity].
  - reflexivity.
Qed.

(** ** Page.__init__ *)

Lemma cleanLink_cases (unquote : string -> string) (link : string) :
  let s := unquote link in
  cleanLink unquote link
  = (wiki ++ replace_char " " "_"
               (if String.prefix wiki s then str_drop 30 s else s))%string.
Proof.
  intro s. unfold cleanLink. fold s.
  rewrite (@prefix_replace " " "_" wiki s) by reflexivity.
  destruct (String.prefix wiki s) eqn:P; [|reflexivity].
  rewrite (prefix_drop wiki s P) at 1.
  rewrite replace_char_app. reflexivity.
Qed.

(** X12 (the name of a page).  [Page.__init__] stores as the name of a page
    the unquoted input, without the address of the wiki in front when it
    starts with it, with every underscore turned into a space; the name
    holds no underscore. *)
Theorem Page_name_spec (unquote : string -> string) (randomUrl : string)
        (name : string) (parent : option Page) :
  let s := unquote (if String.eqb name "" then randomUrl else name) in
  getName (Page_init unquote randomUrl name parent)
  = replace_char "_" " " (if String.prefix wiki s then str_drop 30 s else s)
  /\ str_contains "_" (getName (Page_init unquote randomUrl name parent)) = false.
Proof.
  intro s. split.
  - unfold Page_init, getName, Page_name, Page_fullLink.
    rewrite cleanLink_cases. fold s.
    change 30 with (String.length wiki). rewrite str_drop_app.
    apply replace_char_back.
  - apply replace_char_gone. discriminate.
Qed.

Lemma Page_fullLink_of_name (unquote : string -> string) (randomUrl : string)
      (name : string) :
  Page_fullLink unquote randomUrl name
  = (wiki ++ replace_char " " "_" (Page_name unquote randomUrl name))%string.
Proof.
  unfold Page_name, Page_fullLink. rewrite cleanLink_cases.
  change 30 with (String.length wiki). rewrite str_drop_app.
  now rewrite (replace_char_back " " "_"), (replace_char_back "_" " ").
Qed.

(** X13 (the link of a page).  The link [Page.__init__] stores starts with
    the address of the wiki, holds no space, and is that address followed by
    the name of the page with every space turned into an underscore: the
    name determines the link. *)
Theorem Page_fullLink_spec (unquote : string -> string) (randomUrl : string)
        (name : string) (parent : option Page) :
  Page_fullLink unquote randomUrl name
  = getFullLink (Page_init unquote randomUrl name parent)
  /\ String.prefix wiki (Page_fullLink unquote randomUrl name) = true
  /\ str_contains " " (Page_fullLink unquote randomUrl name) = false.
Proof.
  split; [apply Page_fullLink_of_name|].
  rewrite Page_fullLink_of_name. split; [apply prefix_app|].
  rewrite str_contains_app. apply orb_false_iff. split; [reflexivity|].
  apply replace_char_gone. discriminate.
Qed.

Lemma append_inj_l (p a b : string) : (p ++ a)%string = (p ++ b)%string -> a = b.
Proof. induction p; simpl; intro H; [assumption|]. injection H as H. auto. Qed.

(** X14 (equal pages).  Two pages built by [Page.__init__] are equal for
    [Page.__eq__] exactly when they store the same link. *)
Theorem Page_eq_iff_link (unquote : string -> string) (randomUrl : string)
        (a b : string) (pa pb : option Page) :
  Page_eqb (Page_init unquote randomUrl a pa) (Page_init unquote randomUrl b pb)
  = true
  <-> Page_fullLink unquote randomUrl a = Page_fullLink unquote randomUrl b.
Proof.
  unfold Page_eqb, Page_init, getName. rewrite String.eqb_eq. split.
  - intro H. now rewrite !Page_fullLink_of_name, H.
  - intro H. unfold Page_name. now rewrite H.
Qed.

(** X26 (a page from its link).  When [unquote] leaves the link of a page
    as it is, the page that [Page.__init__] builds from that link is equal
    to the page, for [Page.__eq__], and stores the same link. *)
Theorem Page_of_link (unquote : string -> string) (randomUrl random' : string)
        (name : string) (parent parent' : option Page) :
  unquote (Page_fullLink unquote randomUrl name)
  = Page_fullLink unquote randomUrl name ->
  Page_eqb (Page_init unquote random' (Page_fullLink unquote randomUrl name)
                      parent')
           (Page_init unquote randomUrl name parent) = true
  /\ Page_fullLink unquote random' (Page_fullLink unquote randomUrl name)
     = Page_fullLink unquote randomUrl name.
Proof.
  intro H.
  assert (L : Page_fullLink unquote random' (Page_fullLink unquote randomUrl name)
              = Page_fullLink unquote randomUrl name).
  { unfold Page_fullLink at 1.
    assert (NE : String.eqb (Page_fullLink unquote randomUrl name) "" = false).
    { rewrite Page_fullLink_of_name. reflexivity. }
    rewrite NE, cleanLink_cases. cbv zeta. rewrite H.
    rewrite Page_fullLink_of_name at 1. rewrite prefix_app.
    rewrite Page_fullLink_of_name at 1.
    change 30 with (String.length wiki). rewrite str_drop_app.
    rewrite replace_char_absent by (apply replace_char_gone; discriminate).
    symmetry. apply Page_fullLink_of_name. }
  split; [|exact L].
  unfold Page_eqb, Page_init, getName. apply String.eqb_eq.
  unfold Page_name. now rewrite L.
Qed.

(** ** Tree.__fixLink *)

(** X15 ([__fixLink]).  [__fixLink] rejects exactly the missing links, the
    links that do not start with [/wiki/] and the links that hold a colon;
    the string it returns for another link holds neither [#] nor a
    space. *)
Theorem fixLink_spec (unquote : string -> string) (link : option string) :
  (fixLink unquote link = None
   <-> match link with
       | None => True
       | Some l => String.prefix "/wiki/" l = false \/ str_contains ":" l = true
       end)
  /\ forall fixed, fixLink unquote link = Some fixed ->
       str_contains "#" fixed = false /\ str_contains " " fixed = false.
Proof.
  unfold fixLink. destruct link as [l|]; [|split; [tauto|discriminate]].
  set (l' := replace_char " " "_" (unquote (str_drop 6 l))).
  assert (SP : str_contains " " l' = false)
    by (apply replace_char_gone; discriminate).
  destruct (String.prefix "/wiki/" l); cbn [negb orb];
    [|split; [tauto|discriminate]].
  destruct (str_contains ":" l); [split; [tauto|discriminate]|].
  destruct (str_find "#" l') as [pos|] eqn:F.
  - split; [split; [discriminate|intros [H|H]; discriminate]|].
    intros fixed H. injection H as <-. split.
    + now apply str_find_take.
    + now apply str_contains_take.
  - split; [split; [discriminate|intros [H|H]; discriminate]|].
    intros fixed H. injection H as <-. split.
    + now apply str_find_none.
    + assumption.
Qed.

(** ** Tree.getChildren on the pages as served *)

Lemma add_links_names (unquote : string -> string) (randomUrl : nat -> string)
      (searchPage : Page) (links : list (nat * option string)) (acc : PageSet) :
  fold_left (fun allPages link =>
               match fixLink unquote (snd link) with
               | Some fixed =>
                   set_add (Page_init unquote (randomUrl (fst link)) fixed
                                      (Some searchPage))
                           allPages
               | None => allPages
               end) links acc
  = fold_left (fun allPages n => set_add (MkPage n (Some searchPage)) allPages)
              (flat_map (fun link =>
                           match fixLink unquote (snd link) with
                           | Some fixed =>
                               [Page_name unquote (randomUrl (fst link)) fixed]
                           | None => []
                           end) links) acc.
Proof.
  revert acc. induction links as [|h links IH]; intro acc; [reflexivity|].
  simpl. rewrite fold_left_app. rewrite IH.
  destruct (fixLink unquote (snd h)); reflexivity.
Qed.

(** [getChildren_html] is [getChildren] over the lookups [html_links] and
    [html_linksHere]. *)
Lemma getChildren_html_lookup (unquote : string -> string)
        (randomUrl : string -> nat -> string)
        (body_hrefs list_hrefs : string -> option (list (option string)))
        (t : Tree) (searchPage : Page) :
  getChildren_html unquote randomUrl body_hrefs list_hrefs t searchPage
  = getChildren (html_links unquote randomUrl body_hrefs)
                (html_linksHere unquote randomUrl list_hrefs) t searchPage.
Proof.
  unfold getChildren_html, getChildren, html_links, html_linksHere.
  destruct (isStarting t).
  - change (getFullLink (MkPage (getName searchPage) None))
      with (getFullLink searchPage).
    destruct (body_hrefs (getFullLink searchPage)) as [hrefs|]; [|reflexivity].
    apply add_links_names.
  - change (reverse_link (MkPage (getName searchPage) None))
      with (reverse_link searchPage).
    destruct (list_hrefs (reverse_link searchPage)) as [hrefs|]; [|reflexivity].
    apply add_links_names.
Qed.

Lemma numbered_In (hrefs : list (option string)) (i : nat) (h : option string) :
  In (i, h) (numbered hrefs) -> nth_error hrefs i = Some h.
Proof.
  unfold numbered.
  assert (G : forall a, In (i, h) (combine (seq a (length hrefs)) hrefs) ->
                        a <= i /\ nth_error hrefs (i - a) = Some h).
  { induction hrefs as [|x l IH]; intros a I; [destruct I|].
    simpl in I. destruct I as [I|I].
    - injection I as <- <-. split; [lia|]. now rewrite Nat.sub_diag.
    - destruct (IH (S a) I) as [L N]. split; [lia|].
      replace (i - a) with (S (i - S a)) by lia. exact N. }
  intro I. destruct (G 0 I) as [_ N]. now rewrite Nat.sub_0_r in N.
Qed.

Lemma names_of_hrefs_In (unquote : string -> string) (randomUrl : nat -> string)
      (found : option (list (option string))) (n : string) :
  In n (names_of_hrefs unquote randomUrl found) ->
  exists hrefs i possLink fixed,
    found = Some hrefs
    /\ nth_error hrefs i = Some possLink
    /\ fixLink unquote possLink = Some fixed
    /\ n = Page_name unquote (randomUrl i) fixed.
Proof.
  destruct found as [hrefs|]; simpl; [|intros []].
  intro N. apply in_flat_map in N. destruct N as [[i h] [H1 H2]].
  simpl in H2. destruct (fixLink unquote h) as [fixed|] eqn:F; [|destruct H2].
  destruct H2 as [H2|[]]. exists hrefs, i, h, fixed.
  split; [reflexivity|]. split; [now apply numbered_In|].
  split; [assumption|now symmetry].
Qed.

(** X17 (the children of a page).  Every page that [Tree.getChildren]
    returns has the searched page as its parent and a name without
    underscore, which [Page.__init__] made of a link of the page that
    [__fixLink] accepts; no two of them have the same name. *)
Theorem getChildren_html_pages (unquote : string -> string)
        (randomUrl : string -> nat -> string)
        (body_hrefs list_hrefs : string -> option (list (option string)))
        (t : Tree) (searchPage : Page) :
  let url := if isStarting t then getFullLink searchPage
             else reverse_link searchPage in
  let children :=
    getChildren_html unquote randomUrl body_hrefs list_hrefs t searchPage in
  NoDup (map getName children)
  /\ forall c, In c children ->
       getParent c = Some searchPage
       /\ str_contains "_" (getName c) = false
       /\ exists hrefs i possLink fixed,
            (if isStarting t then body_hrefs url else list_hrefs url)
            = Some hrefs
            /\ nth_error hrefs i = Some possLink
            /\ fixLink unquote possLink = Some fixed
            /\ getName c = Page_name unquote (randomUrl url i) fixed.
Proof.
  intros url children. unfold children. rewrite getChildren_html_lookup.
  split; [apply getChildren_NoDup|].
  intros c C. apply (@getChildren_In first_pick) in C. destruct C as [P N].
  split; [exact P|].
  assert (E : exists hrefs i possLink fixed,
            (if isStarting t then body_hrefs url else list_hrefs url)
            = Some hrefs
            /\ nth_error hrefs i = Some possLink
            /\ fixLink unquote possLink = Some fixed
            /\ getName c = Page_name unquote (randomUrl url i) fixed).
  { unfold nbrs in N. unfold url. destruct (isStarting t).
    - unfold html_links in N.
      change (getFullLink (MkPage (getName searchPage) None))
        with (getFullLink searchPage) in N.
      now apply names_of_hrefs_In.
    - unfold html_linksHere in N.
      change (reverse_link (MkPage (getName searchPage) None))
        with (reverse_link searchPage) in N.
      now apply names_of_hrefs_In. }
  split; [|exact E].
  destruct E as [hrefs [i [h [fixed [_ [_ [_ E]]]]]]]. rewrite E.
  apply replace_char_gone. discriminate.
Qed.

(** ** Path strings *)

Lemma concat_sep_cons (sep x : string) (l : list string) :
  l <> [] -> String.concat sep (x :: l) = (x ++ sep ++ String.concat sep l)%string.
Proof. destruct l; [now intros []|reflexivity]. Qed.

Lemma append_assoc (a b c : string) : ((a ++ b) ++ c)%string = (a ++ b ++ c)%string.
Proof. induction a; simpl; [reflexivity|]. now rewrite IHa. Qed.

Lemma concat_sep_snoc (sep x : string) (l : list string) :
  l <> [] ->
  String.concat sep (l ++ [x]) = (String.concat sep l ++ sep ++ x)%string.
Proof.
  induction l as [|a l IH]; [now intros []|]. intros _.
  destruct l as [|b l]; [reflexivity|].
  change ((a :: b :: l) ++ [x]) with (a :: ((b :: l) ++ [x])).
  rewrite (@concat_sep_cons sep a ((b :: l) ++ [x])) by (simpl; discriminate).
  rewrite IH by discriminate.
  rewrite (@concat_sep_cons sep a (b :: l)) by discriminate.
  now rewrite !append_assoc.
Qed.

Lemma prepend_parents (ps : list Page) :
  forall (l : list Page) (out : string),
  l <> [] -> out = getPathStringFromPath l ->
  fold_left (fun out q => (getName q ++ " > " ++ out)%string) ps out
  = getPathStringFromPath (rev ps ++ l).
Proof.
  induction ps as [|p ps IH]; intros l out NE E; [exact E|].
  cbn [fold_left rev]. rewrite <- app_assoc.
  apply IH; [discriminate|]. subst out.
  unfold getPathStringFromPath. cbn [map app]. symmetry.
  apply concat_sep_cons. destruct l; [now elim NE|discriminate].
Qed.

Lemma append_parents (ps : list Page) :
  forall (l : list Page) (out : string),
  l <> [] -> out = getPathStringFromPath l ->
  fold_left (fun out q => (out ++ " > " ++ getName q)%string) ps out
  = getPathStringFromPath (l ++ ps).
Proof.
  induction ps as [|p ps IH]; intros l out NE E;
    [now rewrite app_nil_r|].
  cbn [fold_left].
  replace (l ++ p :: ps) with ((l ++ [p]) ++ ps) by now rewrite <- app_assoc.
  apply IH; [destruct l; discriminate|]. subst out.
  unfold getPathStringFromPath. rewrite map_app. cbn [map]. symmetry.
  apply concat_sep_snoc. destruct l; [now elim NE|discriminate].
Qed.

(** X18 (the string of a path).  [Game.__getPathString] returns for a
    meeting page the string that [Game.getPathStringFromPath] makes of the
    path that [Game.__getPath] returns for it, the names joined by [" > "],
    and raises [UnboundLocalError] in the same cases. *)
Theorem getPathString_of_getPath (g : Game) (mid : Page) :
  getPathString g mid
  = (p <- getPath g mid ;; Done (getPathStringFromPath p)).
Proof.
  unfold getPathString, getPath.
  destruct (find_eq mid (endpoints (startTree g))) as [startMid|];
    [|reflexivity].
  destruct (find_eq mid (endpoints (endTree g))) as [endMid|]; [|reflexivity].
  cbn [bind]. f_equal.
  rewrite (@prepend_parents (ancestors startMid) [mid] (getName mid))
    by (discriminate || reflexivity).
  rewrite (@append_parents (ancestors endMid)
             (rev (ancestors startMid) ++ [mid])
             (getPathStringFromPath (rev (ancestors startMid) ++ [mid])))
    by ((destruct (rev (ancestors startMid)); discriminate) || reflexivity).
  now rewrite <- app_assoc.
Qed.

(** ** Status strings *)

Lemma uint_no_comma (d : Decimal.uint) :
  str_contains "," (DecimalString.NilEmpty.string_of_uint d) = false.
Proof. induction d; simpl; auto. Qed.

Lemma str_of_nat_no_comma (n : nat) : str_contains "," (str_of_nat n) = false.
Proof. apply uint_no_comma. Qed.

Lemma list_ascii_app (a b : string) :
  list_ascii_of_string (a ++ b)
  = list_ascii_of_string a ++ list_ascii_of_string b.
Proof. induction a as [|c a IH]; simpl; [reflexivity|]. now rewrite IH. Qed.

Lemma str_slice_brackets (s : string) :
  str_slice ("[" ++ s ++ "]") 1 (-1) = s.
Proof.
  unfold str_slice, py_slice, slice_bound.
  change ("[" ++ s ++ "]")%string with (String "[" (s ++ "]")).
  cbn [list_ascii_of_string]. rewrite list_ascii_app.
  cbn [list_ascii_of_string length]. rewrite length_app. cbn [length].
  set (n := length (list_ascii_of_string s)).
  replace (1 <? 0)%Z with false by reflexivity.
  replace (-1 <? 0)%Z with true by reflexivity.
  replace (Z.to_nat (Z.max 0 (Z.min (Z.of_nat (S (n + 1))) 1))) with 1 by lia.
  replace (Z.to_nat _) with n by lia.
  cbn [skipn]. subst n. rewrite firstn_app, firstn_all, Nat.sub_diag.
  cbn [firstn]. rewrite app_nil_r.
  apply string_of_list_ascii_of_string.
Qed.

Lemma replace_clean_app (d rest : string) :
  str_contains "," d = false ->
  str_replace_from ", " " > " 0 (d ++ rest)
  = (d ++ str_replace_from ", " " > " 0 rest)%string.
Proof.
  induction d as [|c d IH]; [reflexivity|]. simpl str_contains.
  intro H. apply orb_false_iff in H. destruct H as [H1 H2].
  change (String c d ++ rest)%string with (String c (d ++ rest)).
  cbn [str_replace_from String.prefix].
  destruct (ascii_dec "," c) as [E|_];
    [subst c; discriminate|].
  now rewrite IH.
Qed.

Lemma replace_clean (d : string) :
  str_contains "," d = false -> str_replace_from ", " " > " 0 d = d.
Proof.
  intro H. pose proof (replace_clean_app d "" H) as R.
  assert (E : forall s : string, (s ++ "")%string = s)
    by (induction s as [|c s IH]; simpl; [reflexivity|now rewrite IH]).
  simpl in R. now rewrite !E in R.
Qed.

Lemma prefix_empty (s : string) : String.prefix "" s = true.
Proof. now destruct s. Qed.

Lemma replace_separator (rest : string) :
  str_replace_from ", " " > " 0 (", " ++ rest)
  = (" > " ++ str_replace_from ", " " > " 0 rest)%string.
Proof.
  change (", " ++ rest)%string with (String "," (String " " rest)).
  cbn [str_replace_from String.prefix String.length Nat.sub].
  destruct (ascii_dec "," ","); [|congruence].
  destruct (ascii_dec " " " "); [|congruence].
  now rewrite prefix_empty.
Qed.

Lemma replace_separators (ds : list string) :
  (forall d, In d ds -> str_contains "," d = false) ->
  str_replace ", " " > " (String.concat ", " ds) = String.concat " > " ds.
Proof.
  unfold str_replace. induction ds as [|d ds IH]; intro H; [reflexivity|].
  destruct ds as [|e ds].
  - simpl. apply replace_clean, H. now left.
  - rewrite (@concat_sep_cons ", " d (e :: ds)) by discriminate.
    rewrite (@concat_sep_cons " > " d (e :: ds)) by discriminate.
    rewrite replace_clean_app by (apply H; now left).
    rewrite replace_separator, IH by (intros x X; apply H; now right).
    reflexivity.
Qed.

(** X23 (the string of a tree).  [Tree.__str__] returns the numbers of pages
    of the levels of the tree joined by [" > "], from the root down for a
    starting tree and from the deepest level up to the root for an ending
    tree. *)
Theorem Tree_str_spec (t : Tree) :
  Tree_str t
  = String.concat " > "
      (map str_of_nat
           (if isStarting t then map (@length Page) (levels t)
            else rev (map (@length Page) (levels t)))).
Proof.
  unfold Tree_str, str_of_list. rewrite str_slice_brackets.
  apply replace_separators.
  intros d D. apply in_map_iff in D. destruct D as [n [<- _]].
  apply str_of_nat_no_comma.
Qed.

Lemma concat_sep_app (sep : string) (a b : list string) :
  a <> [] -> b <> [] ->
  String.concat sep (a ++ b)
  = (String.concat sep a ++ sep ++ String.concat sep b)%string.
Proof.
  intros A B. induction a as [|x a IH]; [now elim A|].
  destruct a as [|y a].
  - simpl app. now apply concat_sep_cons.
  - change ((x :: y :: a) ++ b) with (x :: ((y :: a) ++ b)).
    rewrite (@concat_sep_cons sep x ((y :: a) ++ b)) by (simpl; discriminate).
    rewrite IH by discriminate.
    rewrite (@concat_sep_cons sep x (y :: a)) by discriminate.
    now rewrite !append_assoc.
Qed.

(** X24 (the status string).  In every state of a game,
    [Game.getStatusString] returns, joined by [" > "]: the numbers of pages
    of the levels of the starting tree from the root down, three dots, and
    the numbers of pages of the levels of the ending tree from the deepest
    level up to the root; the first and the last number are 1. *)
Theorem getStatusString_spec (pick : PageSet -> nat)
        (links linksHere : string -> list string)
        (startPage endPage : string) (g : Game) (delivered : list (list Page)) :
  game_run pick links linksHere startPage endPage g delivered ->
  getStatusString g
  = String.concat " > "
      (map str_of_nat (map (@length Page) (levels (startTree g)))
       ++ ["..."]
       ++ map str_of_nat (rev (map (@length Page) (levels (endTree g)))))
  /\ hd_error (map (@length Page) (levels (startTree g))) = Some 1
  /\ last (rev (map (@length Page) (levels (endTree g)))) 0 = 1.
Proof.
  intro RUN. destruct (game_run_ok RUN) as [[GC _] _].
  pose proof (lo_first (gc_start GC)) as FS.
  pose proof (lo_first (gc_end GC)) as FE.
  unfold getStatusString. rewrite !Tree_str_spec.
  rewrite (gc_start_flag GC), (gc_end_flag GC).
  destruct (levels (startTree g)) as [|ls lss] eqn:LS; [discriminate|].
  destruct (levels (endTree g)) as [|le lse] eqn:LE; [discriminate|].
  simpl in FS, FE. injection FS as ->. injection FE as ->.
  split; [|split; [reflexivity|]].
  - rewrite concat_sep_app; [|discriminate|].
    + cbn [app].
      rewrite (@concat_sep_cons " > " "..."); [reflexivity|].
      simpl. destruct (rev (map (@length Page) lse)); discriminate.
    + simpl. destruct (rev (map (@length Page) lse)); discriminate.
  - simpl. now rewrite last_last.
Qed.

Example scenario_run :
  match search first_pick scenario_links scenario_linksHere 10 1 (Game_init "A" "D") with
  | Done (r, _) => map names (ret r) = [["A"; "B"; "D"]]
  | _ => False
  end.
Proof. vm_compute. reflexivity. Qed.

(** * Counterexamples and instances on the example graphs *)

Lemma scenario_consistent (x y : string) :
  In y (scenario_linksHere x) <-> In x (scenario_links y).
Proof.
  unfold scenario_linksHere, scenario_links. split.
  - destruct (String.eqb_spec x "D") as [->|D];
      [|destruct (String.eqb_spec x "B") as [->|B];
        [|destruct (String.eqb_spec x "C") as [->|C]]];
      simpl; intro H; repeat (destruct H as [<-|H]); try destruct H;
      simpl; auto.
  - destruct (String.eqb_spec y "A") as [->|A];
      [|destruct (String.eqb_spec y "B") as [->|B];
        [|destruct (String.eqb_spec y "E") as [->|E]]];
      simpl; intro H; repeat (destruct H as [<-|H]); try destruct H;
      simpl; auto.
Qed.

(** The tree of page A in the scenario after two [explore] calls: C is
    still queued, D has been found below B. *)
Lemma scenario_tree_reachable :
  tree_reachable first_pick scenario_links scenario_linksHere
    (MkPage "A" None) true
    {| root := MkPage "A" None; isStarting := true;
       endpoints := [MkPage "C" (Some (MkPage "A" None));
                     MkPage "D" (Some (MkPage "B" (Some (MkPage "A" None))))];
       queue := [MkPage "C" (Some (MkPage "A" None))];
       queueLevel := 1;
       levels := [[MkPage "A" None];
                  [MkPage "B" (Some (MkPage "A" None));
                   MkPage "C" (Some (MkPage "A" None))];
                  [MkPage "D" (Some (MkPage "B" (Some (MkPage "A" None))))]] |}.
Proof.
  eapply tr_explore; [eapply tr_explore; [apply tr_init|]|]; reflexivity.
Qed.

(** C1, counterexample: on the round trip from A to A, [search(1)] explores
    both trees and returns the path A, B, A. *)
Lemma C1_counterexample :
  ~ (forall pick links linksHere page fuel r g',
       search pick links linksHere fuel 1 (Game_init page page) = Done (r, g') ->
       map names (ret r) = [[page]] /\ explored r = []).
Proof.
  intro H.
  destruct (search first_pick round_links round_linksHere 10 1
              (Game_init "A" "A")) as [[r g']| |] eqn:E;
    [|vm_compute in E; discriminate|vm_compute in E; discriminate].
  destruct (H _ _ _ _ _ _ _ E) as [_ H2].
  vm_compute in E. injection E as <- _. discriminate.
Qed.

(** C7 (endpoints): the tree of page A in the scenario after two [explore]
    calls, of A and of B.  Its endpoints are C, still queued on level 1, and
    D, found below B; its deepest level holds D alone.  So [getEndpoints]
    returns a page, C, that is not on the deepest level of the tree. *)
Theorem C7_endpoints_mid_level :
  exists res1 t1 res2 t2,
    explore first_pick scenario_links scenario_linksHere
            (Tree_init (MkPage "A" None) true) = Done (res1, t1)
    /\ explore first_pick scenario_links scenario_linksHere t1 = Done (res2, t2)
    /\ map getName (endpoints t2) = ["C"; "D"]
    /\ map (map getName) (levels t2) = [["A"]; ["B"; "C"]; ["D"]]
    /\ queueLevel t2 = 1
    /\ ~ (forall p, In p (endpoints t2) ->
                    set_mem p (last (levels t2) []) = true).
Proof.
  eexists. eexists. eexists. eexists.
  split; [vm_compute; reflexivity|]. split; [vm_compute; reflexivity|].
  split; [reflexivity|]. split; [reflexivity|]. split; [reflexivity|].
  intro H.
  specialize (H (MkPage "C" (Some (MkPage "A" None))) (or_introl eq_refl)).
  vm_compute in H. discriminate.
Qed.

(** C9, counterexample: from A to G in the graph where M links back to X,
    the second path found is A, X, M, X, G. *)
Lemma C9_counterexample :
  ~ (forall pick links linksHere startPage endPage g delivered,
       game_run pick links linksHere startPage endPage g delivered ->
       forall p, In p (paths g) -> NoDup (map getName p)).
Proof.
  intro H.
  destruct (search first_pick loop_links loop_linksHere 10 2
              (Game_init "A" "G")) as [[r g']| |] eqn:E;
    [|vm_compute in E; discriminate|vm_compute in E; discriminate].
  pose proof (run_search 10 2
                (run_init first_pick loop_links loop_linksHere "A" "G") E)
    as RUN.
  specialize (H _ _ _ _ _ _ _ RUN).
  vm_compute in E. injection E as _ <-.
  specialize (H _ (or_intror (or_introl eq_refl))).
  simpl in H. inversion H as [|? ? _ N1]. inversion N1 as [|? ? N2 _].
  apply N2. simpl. auto.
Qed.

(** ** The fork *)


Definition fork_g1 : Game :=
  Eval vm_compute in
    match search first_pick fork_links fork_linksHere 10 1 (Game_init "A" "D") with
    | Done (_, g) => g
    | _ => Game_init "A" "D"
    end.



Definition fork_g2 : Game :=
  Eval vm_compute in
    match search first_pick fork_links fork_linksHere 10 4 fork_g1 with
    | Done (_, g) => g
    | _ => Game_init "A" "D"
    end.



(** After the two calls the game returns nothing more: every further
    [search] call leaves at once, the starting tree having no endpoint. *)
Lemma fork_exhausted (fuel : nat) (count : Z) :
  search first_pick fork_links fork_linksHere fuel count fork_g2
  = Done ({| ret := []; exit := NoEndpointsStart; explored := [] |}, fork_g2).
Proof. now apply search_no_endpoints. Qed.


(** ** Instances *)

Lemma C5_first_discovery_wins_witness :
  exists t, tree_reachable first_pick scenario_links scenario_linksHere
              (MkPage "A" None) true t
            /\ NoDup (map getName (concat (levels t))).
Proof.
  eexists. split; [exact scenario_tree_reachable|].
  exact (proj1 (C5_first_discovery_wins scenario_tree_reachable)).
Defined.

Lemma C6_explore_never_raises_witness :
  exists t, tree_reachable first_pick scenario_links scenario_linksHere
              (MkPage "A" None) true t
            /\ exists res t',
                 explore first_pick scenario_links scenario_linksHere t
                 = Done (res, t').
Proof.
  eexists. split; [exact scenario_tree_reachable|].
  destruct (C6_explore_never_raises scenario_tree_reachable)
    as [res [t' [E _]]].
  exists res, t'. exact E.
Defined.

Lemma C4_validity_witness :
  (forall x y, In y (scenario_linksHere x) <-> In x (scenario_links y))
  /\ exists g d,
       game_run first_pick scenario_links scenario_linksHere "A" "D" g d
       /\ map names d = [["A"; "B"; "D"]]
       /\ forall p, In p d -> linked scenario_links (map getName p).
Proof.
  split; [exact scenario_consistent|].
  eexists. eexists. split; [|split].
  - exact (run_search 10 1
             (run_init first_pick scenario_links scenario_linksHere "A" "D")
             eq_refl).
  - reflexivity.
  - exact (C4_validity scenario_consistent
             (run_search 10 1
                (run_init first_pick scenario_links scenario_linksHere "A" "D")
                eq_refl)).
Defined.

Lemma C9_path_reconstruction_witness :
  exists g d,
    game_run first_pick scenario_links scenario_linksHere "A" "D" g d
    /\ map names (paths g) = [["A"; "B"; "D"]]
    /\ forall mid p, getPath g mid = Done p ->
         exists startMid endMid,
           In startMid (endpoints (startTree g))
           /\ In endMid (endpoints (endTree g))
           /\ getName startMid = getName mid /\ getName endMid = getName mid
           /\ p = rev (ancestors startMid) ++ mid :: ancestors endMid.
Proof.
  eexists. eexists. split; [|split].
  - exact (run_search 10 1
             (run_init first_pick scenario_links scenario_linksHere "A" "D")
             eq_refl).
  - reflexivity.
  - exact (proj1 (C9_path_reconstruction
             (run_search 10 1
                (run_init first_pick scenario_links scenario_linksHere "A" "D")
                eq_refl))).
Defined.

Lemma C1_equal_pages_witness :
  (0 < 1)%Z
  /\ exists r g',
       search first_pick round_links round_linksHere 10 1 (Game_init "A" "A")
       = Done (r, g')
       /\ map names (ret r) = [["A"; "B"; "A"]]
       /\ (exists rest, explored r = Start :: rest)
       /\ forall p, In p (ret r) -> 3 <= length p.
Proof.
  split; [reflexivity|].
  eexists. eexists. split; [reflexivity|]. split; [reflexivity|].
  exact (C1_equal_pages first_pick round_links round_linksHere "A" 10
           (count := 1) eq_refl eq_refl).
Defined.

Lemma C8_exhaustion_witness :
  (forall n, no_links n = []) /\ (0 < 3)%Z /\ 2 <= 2
  /\ exists r g',
       search first_pick no_links no_links 2 3 (Game_init "A" "B") = Done (r, g')
       /\ ret r = [].
Proof.
  split; [reflexivity|]. split; [reflexivity|]. split; [apply le_n|].
  destruct (C8_exhaustion (fuel := 2) (count := 3)
              (fun n => eq_refl) (fun n => eq_refl)
              (run_init first_pick no_links no_links "A" "B")
              eq_refl (le_n 2))
    as [r [g' [E [R _]]]].
  exists r, g'. split; [exact E|exact R].
Defined.


(** ** The fan *)

(** [search(3)] on the fan, from A to D. *)
Definition fan_r3 : SearchResult :=
  Eval vm_compute in
    match search first_pick fan_links fan_linksHere 10 3 (Game_init "A" "D") with
    | Done (r, _) => r
    | _ => MkResult [] Completed []
    end.

Definition fan_g3 : Game :=
  Eval vm_compute in
    match search first_pick fan_links fan_linksHere 10 3 (Game_init "A" "D") with
    | Done (_, g) => g
    | _ => Game_init "A" "D"
    end.

Lemma fan_three_call :
  search first_pick fan_links fan_linksHere 10 3 (Game_init "A" "D")
  = Done (fan_r3, fan_g3).
Proof. vm_compute. reflexivity. Qed.

(** [search(2)] on the game that [search(3)] left. *)
Definition fan_r2 : SearchResult :=
  Eval vm_compute in
    match search first_pick fan_links fan_linksHere 10 2 fan_g3 with
    | Done (r, _) => r
    | _ => MkResult [] Completed []
    end.

Definition fan_g5 : Game :=
  Eval vm_compute in
    match search first_pick fan_links fan_linksHere 10 2 fan_g3 with
    | Done (_, g) => g
    | _ => Game_init "A" "D"
    end.

Lemma fan_two_call :
  search first_pick fan_links fan_linksHere 10 2 fan_g3
  = Done (fan_r2, fan_g5).
Proof. vm_compute. reflexivity. Qed.

(** A single [search(5)] on the fan. *)
Definition fan_r5 : SearchResult :=
  Eval vm_compute in
    match search first_pick fan_links fan_linksHere 10 5 (Game_init "A" "D") with
    | Done (r, _) => r
    | _ => MkResult [] Completed []
    end.

Lemma fan_five_call :
  search first_pick fan_links fan_linksHere 10 5 (Game_init "A" "D")
  = Done (fan_r5, fan_g5).
Proof. vm_compute. reflexivity. Qed.

(** The fourth path is found together with the first three: after
    [search(3)] it waits in [paths], beyond [searchIndex]. *)
Lemma fan_buffered :
  map names (paths fan_g3)
  = [["A"; "B1"; "D"]; ["A"; "B2"; "D"]; ["A"; "B3"; "D"]; ["A"; "B4"; "D"]]
  /\ searchIndex fan_g3 = 3%Z.
Proof. split; reflexivity. Qed.

Lemma C3_pagination_witness :
  search first_pick fan_links fan_linksHere 10 5 (Game_init "A" "D")
  = Done (fan_r5, fan_g5)
  /\ map names (ret fan_r5)
     = [["A"; "B1"; "D"]; ["A"; "B2"; "D"]; ["A"; "B3"; "D"];
        ["A"; "B4"; "D"]; ["A"; "C"; "E"; "D"]]
  /\ (exists r3 g3 r2,
        search first_pick fan_links fan_linksHere 10 3 (Game_init "A" "D")
        = Done (r3, g3)
        /\ search first_pick fan_links fan_linksHere 10 2 g3
           = Done (r2, fan_g5)
        /\ map names (ret r3)
           = [["A"; "B1"; "D"]; ["A"; "B2"; "D"]; ["A"; "B3"; "D"]]
        /\ map names (ret r2) = [["A"; "B4"; "D"]; ["A"; "C"; "E"; "D"]]
        /\ ret r3 ++ ret r2 = ret fan_r5
        /\ explored r3 = [Start; End]
        /\ explored r2 = [Start; Start; Start; Start; Start]
        /\ explored r3 ++ explored r2 = explored fan_r5)
  /\ (exists r1 g4,
        search first_pick fan_links fan_linksHere 10 1 fan_g3 = Done (r1, g4)
        /\ map names (ret r1) = [["A"; "B4"; "D"]]
        /\ explored r1 = []
        /\ startTree g4 = startTree fan_g3 /\ endTree g4 = endTree fan_g3).
Proof.
  split; [exact fan_five_call|]. split; [reflexivity|]. split.
  - destruct (proj1 (C3_pagination
                       (run_init first_pick fan_links fan_linksHere "A" "D"))
                    10 fan_r5 fan_g5 fan_five_call)
      as [r3 [g3 [r2 [S3 [S2 [R E]]]]]].
    exists r3, g3, r2.
    split; [exact S3|]. split; [exact S2|].
    pose proof fan_three_call as T3. rewrite S3 in T3.
    injection T3 as -> ->.
    pose proof fan_two_call as T2. rewrite S2 in T2.
    injection T2 as ->.
    split; [reflexivity|]. split; [reflexivity|]. split; [exact R|].
    split; [reflexivity|]. split; [reflexivity|exact E].
  - destruct (proj2 (proj2 (C3_pagination
                       (run_search 10 3
                          (run_init first_pick fan_links fan_linksHere "A" "D")
                          fan_three_call)))
                    10 1%Z ltac:(discriminate) ltac:(discriminate))
      as [x S1].
    eexists. eexists. split; [exact S1|].
    split; [reflexivity|]. split; [reflexivity|]. split; reflexivity.
Defined.

(** * Instances of the further properties *)

Lemma scenario_backward (x y : string) :
  In y (scenario_linksHere x) -> In x (scenario_links y).
Proof. apply scenario_consistent. Qed.

Lemma scenario_links_bounded (n : string) :
  incl (scenario_links n) scenario_names.
Proof.
  unfold scenario_links, scenario_names.
  destruct (String.eqb n "A"); [|destruct (String.eqb n "B");
    [|destruct (String.eqb n "E")]];
    intros x H; simpl in *; tauto.
Qed.

Lemma scenario_linksHere_bounded (n : string) :
  incl (scenario_linksHere n) scenario_names.
Proof.
  unfold scenario_linksHere, scenario_names.
  destruct (String.eqb n "D"); [|destruct (String.eqb n "B");
    [|destruct (String.eqb n "C")]];
    intros x H; simpl in *; tauto.
Qed.

Lemma search_paths_validate_witness :
  exists g d,
    game_run first_pick scenario_links scenario_linksHere "A" "D" g d
    /\ map names d = [["A"; "B"; "D"]]
    /\ forall p, In p d -> validatePath scenario_links scenario_linksHere p = Done true.
Proof.
  eexists. eexists. split; [|split].
  - exact (run_search 10 1
             (run_init first_pick scenario_links scenario_linksHere "A" "D")
             eq_refl).
  - reflexivity.
  - exact (search_paths_validate scenario_backward
             (run_search 10 1
                (run_init first_pick scenario_links scenario_linksHere "A" "D")
                eq_refl)).
Defined.

Lemma search_direct_link_witness :
  In "B" (scenario_links "A") /\ "A" <> "B" /\ 2 <= 2
  /\ exists r g',
       search first_pick scenario_links scenario_linksHere 2 1
              (Game_init "A" "B") = Done (r, g')
       /\ map names (ret r) = [["A"; "B"]].
Proof.
  split; [now left|]. split; [discriminate|]. split; [apply le_n|].
  destruct (@search_direct_link first_pick scenario_links scenario_linksHere
              "A" "B" 2 (or_introl eq_refl)
              ltac:(discriminate)
              (le_n 2))
    as [r [g' [S1 [R _]]]].
  exists r, g'. split; [exact S1|exact R].
Defined.

Lemma testLength2_passes_witness :
  plain_unquote "United States" = "United States"
  /\ plain_unquote "North America" = "North America"
  /\ 2 <= 2
  /\ In "North America" (test_links "United States")
  /\ testLength2 first_pick test_links test_linksHere plain_unquote "" "" 2
     = Passed tt.
Proof.
  split; [reflexivity|]. split; [reflexivity|]. split; [apply le_n|].
  split; [now left|].
  exact (proj2 (@testLength2_passes first_pick test_links test_linksHere
                  plain_unquote "" "" 2 eq_refl eq_refl (le_n 2))
               (or_introl eq_refl)).
Defined.

Lemma testLength3_ratio_witness :
  testLength3 first_pick test_links test_linksHere plain_unquote "" "" 5 10
  = Passed (1, 3)
  /\ 3 * 1 <= 3.
Proof.
  split; [reflexivity|].
  exact (proj1 (@testLength3_ratio first_pick test_links test_linksHere
                  plain_unquote "" "" 5 10 1 3 eq_refl)).
Defined.

Lemma explore_after_failure_witness :
  exists t',
    explore first_pick no_links no_links (Tree_init (MkPage "A" None) true)
    = Done ((false, [], false), t')
    /\ explore first_pick no_links no_links t' = Raise KeyError.
Proof.
  eexists. split; [reflexivity|].
  exact (proj2 (proj2 (proj2
           (@explore_after_failure first_pick no_links no_links
              (Tree_init (MkPage "A" None) true) _ [] false eq_refl)))).
Defined.

Lemma exhaustion_is_final_witness :
  exists r g' x,
    search first_pick no_links no_links 2 1 (Game_init "A" "B") = Done (r, g')
    /\ exit r <> Completed
    /\ search first_pick no_links no_links 0 3 g'
       = Done ({| ret := []; exit := x; explored := [] |}, g').
Proof.
  destruct (@exhaustion_is_final first_pick no_links no_links "A" "B" _ _ 2 1
              _ _ (run_init first_pick no_links no_links "A" "B") eq_refl
              ltac:(discriminate) 0 3%Z) as [x [S2 _]].
  eexists. eexists. exists x.
  split; [reflexivity|]. split; [discriminate|exact S2].
Defined.

Lemma search_count_witness :
  (0 <= 1)%Z
  /\ exists r g',
       search first_pick scenario_links scenario_linksHere 10 1
              (Game_init "A" "D") = Done (r, g')
       /\ (Z.of_nat (length (ret r)) <= 1)%Z
       /\ searchIndex g' = (0 + Z.of_nat (length (ret r)))%Z.
Proof.
  split; [discriminate|].
  eexists. eexists. split; [reflexivity|].
  destruct (@search_count first_pick scenario_links scenario_linksHere
              "A" "D" _ _ 10 1 _ _
              (run_init first_pick scenario_links scenario_linksHere "A" "D")
              ltac:(discriminate) eq_refl) as [H1 [_ H2]].
  split; [exact H1|exact H2].
Defined.

Lemma delivered_is_prefix_witness :
  exists g d,
    paged_run first_pick scenario_links scenario_linksHere "A" "D" g d
    /\ map names d = [["A"; "B"; "D"]]
    /\ d = firstn (Z.to_nat (searchIndex g)) (paths g).
Proof.
  eexists. eexists. split; [|split].
  - exact (@paged_search first_pick scenario_links scenario_linksHere "A" "D"
             _ _ 10 1 _ _
             (paged_init first_pick scenario_links scenario_linksHere "A" "D")
             ltac:(discriminate) eq_refl).
  - reflexivity.
  - exact (proj1 (delivered_is_prefix
             (@paged_search first_pick scenario_links scenario_linksHere "A" "D"
                _ _ 10 1 _ _
                (paged_init first_pick scenario_links scenario_linksHere "A" "D")
                ltac:(discriminate) eq_refl))).
Defined.

Lemma search_nonpositive_witness :
  (-2 <= 0)%Z
  /\ exists r,
       search first_pick scenario_links scenario_linksHere 0 (-2)
              (Game_init "A" "D") = Done (r, Game_init "A" "D")
       /\ explored r = [].
Proof.
  split; [discriminate|].
  destruct (@search_nonpositive first_pick scenario_links scenario_linksHere
              0 (-2) (Game_init "A" "D") ltac:(discriminate))
    as [r [S1 [E _]]].
  exists r. split; [exact S1|exact E].
Defined.

Lemma search_terminates_witness :
  (forall n, incl (scenario_links n) scenario_names)
  /\ (forall n, incl (scenario_linksHere n) scenario_names)
  /\ 2 * length scenario_names + 2 < 13
  /\ exists r g',
       search first_pick scenario_links scenario_linksHere 13 7
              (Game_init "A" "D") = Done (r, g')
       /\ length (explored r) <= 12.
Proof.
  split; [exact scenario_links_bounded|].
  split; [exact scenario_linksHere_bounded|].
  split; [apply le_n|].
  exact (@search_terminates first_pick scenario_links scenario_linksHere
           scenario_names "A" "D" _ _ 13 7
           scenario_links_bounded scenario_linksHere_bounded
           (run_init first_pick scenario_links scenario_linksHere "A" "D")
           (le_n 13)).
Defined.

Lemma scenario_walk : walk scenario_links 2 "A" "D".
Proof.
  exists "B". split; [|now left]. exists "A". split; [reflexivity|now left].
Qed.

Lemma first_path_shortest_witness :
  (forall x y, In y (scenario_linksHere x) <-> In x (scenario_links y))
  /\ "A" <> "D"
  /\ exists g d p,
       paged_run first_pick scenario_links scenario_linksHere "A" "D" g d
       /\ hd_error d = Some p
       /\ names p = ["A"; "B"; "D"]
       /\ forall n, walk scenario_links n "A" "D" -> length p <= n + 1.
Proof.
  split; [exact scenario_consistent|]. split; [discriminate|].
  eexists. eexists. eexists. split; [|split; [|split]].
  - exact (@paged_search first_pick scenario_links scenario_linksHere "A" "D"
             _ _ 10 1 _ _
             (paged_init first_pick scenario_links scenario_linksHere "A" "D")
             ltac:(discriminate) eq_refl).
  - reflexivity.
  - reflexivity.
  - exact (proj2 (proj2 (proj2
             (@first_path_shortest first_pick scenario_links scenario_linksHere
                "A" "D" _ _ _ scenario_consistent ltac:(discriminate)
                (@paged_search first_pick scenario_links scenario_linksHere
                   "A" "D" _ _ 10 1 _ _
                   (paged_init first_pick scenario_links scenario_linksHere
                      "A" "D")
                   ltac:(discriminate) eq_refl)
                eq_refl)))).
Defined.

Lemma search_finds_path_witness :
  (forall x y, In y (scenario_linksHere x) <-> In x (scenario_links y))
  /\ (forall n, incl (scenario_links n) scenario_names)
  /\ (forall n, incl (scenario_linksHere n) scenario_names)
  /\ "A" <> "D"
  /\ walk scenario_links 2 "A" "D"
  /\ 2 * length scenario_names + 2 < 13
  /\ exists r g' p,
       search first_pick scenario_links scenario_linksHere 13 1
              (Game_init "A" "D") = Done (r, g')
       /\ ret r = [p]
       /\ length p <= 2 + 1.
Proof.
  split; [exact scenario_consistent|].
  split; [exact scenario_links_bounded|].
  split; [exact scenario_linksHere_bounded|].
  split; [discriminate|]. split; [exact scenario_walk|].
  split; [apply le_n|].
  destruct (@search_finds_path first_pick scenario_links scenario_linksHere
              scenario_names "A" "D" 2 13 scenario_consistent
              scenario_links_bounded scenario_linksHere_bounded
              ltac:(discriminate) scenario_walk (le_n 13))
    as [r [g' [p [S1 [R [_ L]]]]]].
  exists r, g', p. split; [exact S1|]. split; [exact R|exact L].
Defined.

Lemma paths_never_repeat_witness :
  exists g d,
    paged_run first_pick fan_links fan_linksHere "A" "D" g d
    /\ map names d
       = [["A"; "B1"; "D"]; ["A"; "B2"; "D"]; ["A"; "B3"; "D"];
          ["A"; "B4"; "D"]; ["A"; "C"; "E"; "D"]]
    /\ map names (paths g) = map names d
    /\ NoDup (map names (paths g))
    /\ NoDup (map names d).
Proof.
  exists fan_g5, (ret fan_r3 ++ ret fan_r2).
  assert (RUN : paged_run first_pick fan_links fan_linksHere "A" "D"
                          fan_g5 (ret fan_r3 ++ ret fan_r2)).
  { exact (@paged_search first_pick fan_links fan_linksHere "A" "D"
             _ _ 10 2 _ _
             (@paged_search first_pick fan_links fan_linksHere "A" "D"
                _ _ 10 3 _ _
                (paged_init first_pick fan_links fan_linksHere "A" "D")
                ltac:(discriminate) fan_three_call)
             ltac:(discriminate) fan_two_call). }
  split; [exact RUN|]. split; [reflexivity|]. split; [reflexivity|].
  exact (paths_never_repeat RUN).
Defined.

Lemma next_tree_explored_witness :
  exists r g' rest,
    search first_pick scenario_links scenario_linksHere 10 1 (Game_init "A" "D")
    = Done (r, g')
    /\ explored r = Start :: rest
    /\ Start = (if chooseStart (Game_init "A" "D") then Start else End).
Proof.
  eexists. eexists. eexists. split; [reflexivity|]. split; [reflexivity|].
  exact (proj1 (@next_tree_explored first_pick scenario_links scenario_linksHere
                  "A" "D" _ _ 10 1 _ _ Start _
                  (run_init first_pick scenario_links scenario_linksHere "A" "D")
                  eq_refl eq_refl)).
Defined.

Lemma getStatusString_spec_witness :
  game_run first_pick scenario_links scenario_linksHere "A" "D"
           (Game_init "A" "D") []
  /\ getStatusString (Game_init "A" "D") = "1 > ... > 1".
Proof.
  split; [apply run_init|].
  exact (proj1 (getStatusString_spec
                  (run_init first_pick scenario_links scenario_linksHere
                     "A" "D"))).
Defined.

(** The outcome of one request for two paths on the example graph. *)
Definition scenario_two : outcome (SearchResult * Game) :=
  Eval vm_compute in
    search first_pick scenario_links scenario_linksHere 10 2 (Game_init "A" "D").

Lemma scenario_two_run :
  search first_pick scenario_links scenario_linksHere 10 (1 + 1)
         (Game_init "A" "D")
  = scenario_two.
Proof. vm_compute. reflexivity. Qed.

Lemma pagination_any_counts_witness :
  (0 <= 1)%Z
  /\ exists ra g1 rb r g2,
       search first_pick scenario_links scenario_linksHere 10 (1 + 1)
              (Game_init "A" "D") = Done (r, g2)
       /\ search first_pick scenario_links scenario_linksHere 10 1
                 (Game_init "A" "D") = Done (ra, g1)
       /\ search first_pick scenario_links scenario_linksHere 10 1 g1
          = Done (rb, g2)
       /\ ret ra ++ ret rb = ret r.
Proof.
  split; [discriminate|].
  destruct (proj1 (@pagination_any_counts first_pick scenario_links
                     scenario_linksHere "A" "D" _ _ 1 1
                     (run_init first_pick scenario_links scenario_linksHere
                        "A" "D")
                     ltac:(discriminate) ltac:(discriminate))
                  10 _ _ scenario_two_run)
    as [ra [g1 [rb [S1 [S2 [R _]]]]]].
  exists ra, g1, rb. eexists. eexists.
  split; [exact scenario_two_run|]. split; [exact S1|].
  split; [exact S2|exact R].
Defined.

Lemma Page_of_link_witness :
  plain_unquote (Page_fullLink plain_unquote "" "United States")
  = Page_fullLink plain_unquote "" "United States"
  /\ Page_eqb (Page_init plain_unquote ""
                         (Page_fullLink plain_unquote "" "United States") None)
              (Page_init plain_unquote "" "United States" None) = true.
Proof.
  split; [reflexivity|].
  exact (proj1 (@Page_of_link plain_unquote "" "" "United States" None None
                  eq_refl)).
Defined.

Lemma tree_parents_witness :
  exists t,
    tree_reachable first_pick scenario_links scenario_linksHere
                   (MkPage "A" None) true t
    /\ length (levels t) = 3
    /\ nth_error (levels t) 0 = Some [MkPage "A" None].
Proof.
  eexists. split; [exact scenario_tree_reachable|]. split; [reflexivity|].
  exact (proj1 (tree_parents scenario_tree_reachable)).
Defined.
